(** * circuits.core: a shallow embedding of the event/channel/dispatch engine

    The development follows [circuits/core.py]: the handler descriptor made
    by the [listener] decorator, the channel registry of a [Manager] (a
    [defaultdict(list)] from channel names to handler lists, next to the set
    [_handlers]), channel resolution [handlers], registration [add] and
    [remove], the queue pipeline [push] / [flush] / [send], and the
    [Component] tree built by [register] and [unregister]. *)

From Stdlib Require Import String Ascii ZArith.
From stdpp Require Import base option list strings countable gmap fin_maps sets.

Local Open Scope string_scope.
Local Open Scope list_scope.

(** ** Python primitives used by the module *)

(** [":" in s] *)
Fixpoint has_colon (s : string) : bool :=
  match s with
  | EmptyString => false
  | String c r => if Ascii.eqb c ":" then true else has_colon r
  end.

(** [s.split(":", 1)] for a string that holds a colon: the text before the
    first colon and the text after it; [None] when [s] holds no colon. *)
Fixpoint split_colon (s : string) : option (string * string) :=
  match s with
  | EmptyString => None
  | String c r =>
      if Ascii.eqb c ":" then Some (EmptyString, r)
      else match split_colon r with
           | Some (t, ch) => Some (String c t, ch)
           | None => None
           end
  end.

(** [k.startswith(c)] *)
Definition startswith (c k : string) : bool := String.prefix c k.

(** [k.endswith(c)] *)
Fixpoint endswith (c k : string) : bool :=
  String.eqb c k ||
  match k with
  | EmptyString => false
  | String _ r => endswith c r
  end.

(** ["%s" % x] where [x] is a string or [None] *)
Definition fmt (x : option string) : string :=
  match x with
  | Some s => s
  | None => "None"
  end.

(** Python values carried by events and returned by handlers; [truthy] is
    Python's truth test. *)
Inductive value :=
  | VNone
  | VBool (b : bool)
  | VInt (z : Z)
  | VStr (s : string).

Definition truthy (v : value) : bool :=
  match v with
  | VNone => false
  | VBool b => b
  | VInt z => negb (Z.eqb z 0)
  | VStr s => negb (String.eqb s "")
  end.

(** ** Handler descriptors

    A callable with the attributes the decorator attaches.  [h_func] names
    the callable: Python compares handlers by identity, the model by
    equality of the records, so distinct callables carry distinct names. *)

Record Handler := {
  h_func : nat;                  (* the underlying callable *)
  h_type : option string;        (* getattr(handler, "type", None) *)
  h_channels : list string;      (* f.channels *)
  h_args : list string;          (* f.args, a leading "self" stripped *)
  h_varargs : bool;
  h_varkw : bool
}.

Global Instance Handler_eq_dec : EqDecision Handler.
Proof. solve_decision. Defined.

Global Instance Handler_countable : Countable Handler.
Proof.
  refine (inj_countable'
    (fun h => (h_func h, h_type h, h_channels h, h_args h, h_varargs h, h_varkw h))
    (fun t => match t with
              | (f, ty, chs, a, va, vk) =>
                  {| h_func := f; h_type := ty; h_channels := chs;
                     h_args := a; h_varargs := va; h_varkw := vk |}
              end) _).
  by intros [].
Defined.

(** ** Exceptions and the state-and-exception monad

    A Python method mutates its receiver and either returns or raises; what
    it changed before raising stays changed.  [Timeout] is reserved for the
    fuel of the delegation chain ([push], [flush], [send]). *)

Inductive exn :=
  | InvalidHandler (h : Handler)
  | ValueError                   (* list.remove(x): x not in list *)
  | KeyError                     (* set.remove(x): x not in set *)
  | AttributeError               (* a method the object does not have *)
  | TypeError                    (* [":" in None] *)
  | HandlerError                 (* an exception raised inside a handler *)
  | BadReference.                (* model only: a reference to no object *)

Inductive res (A : Type) :=
  | Ok (a : A)
  | Raise (e : exn)
  | Timeout.
Arguments Ok {A} a.
Arguments Raise {A} e.
Arguments Timeout {A}.

Definition M (S A : Type) : Type := S -> res A * S.

Definition ret {S A} (a : A) : M S A := fun s => (Ok a, s).

Definition bind {S A B} (c : M S A) (k : A -> M S B) : M S B :=
  fun s =>
    match c s with
    | (Ok a, s') => k a s'
    | (Raise e, s') => (Raise e, s')
    | (Timeout, s') => (Timeout, s')
    end.

Definition raise {S A} (e : exn) : M S A := fun s => (Raise e, s).
Definition get {S} : M S S := fun s => (Ok s, s).
Definition put {S} (s : S) : M S unit := fun _ => (Ok tt, s).
Definition modify {S} (f : S -> S) : M S unit := fun s => (Ok tt, f s).

Declare Scope py_scope.
Delimit Scope py_scope with py.
Notation "'let*' x := c 'in' k" := (bind c (fun x => k))
  (at level 10, x name, c at level 100, k at level 200) : py_scope.
Notation "'do' c 'then' k" := (bind c (fun _ => k))
  (at level 10, c at level 100, k at level 200) : py_scope.
Local Open Scope py_scope.

(** [for x in xs: body(x)] *)
Fixpoint for_each {S A} (xs : list A) (body : A -> M S unit) : M S unit :=
  match xs with
  | [] => ret tt
  | x :: r => do body x then for_each r body
  end.

(** ** The decorator [listener] *)

Record Callable := {
  f_id : nat;
  f_params : list string;        (* getargspec(f)[0] *)
  f_star : bool;                 (* getargspec(f)[1] is set *)
  f_starstar : bool              (* getargspec(f)[2] is set *)
}.

Definition listener (args : list string) (type : option string) (f : Callable)
  : Handler :=
  {| h_func := f_id f;
     h_type := Some (default "listener" type);
     h_channels := args;
     h_args := match f_params f with
               | a :: r => if String.eqb a "self" then r else a :: r
               | [] => []
               end;
     h_varargs := f_star f;
     h_varkw := f_starstar f |}.

(** ** Manager objects *)

Inductive kind := KManager | KComponent.

Record Manager := {
  m_queue : list nat;                        (* self._queue, event references *)
  m_handlers : gset Handler;                 (* self._handlers *)
  m_manager : nat;                           (* self.manager, an object reference *)
  m_channels : gmap string (list Handler);   (* self.channels *)
  m_kind : kind;
  c_channel : option string;                 (* Component.channel *)
  c_members : list Handler                   (* callable members, in getmembers order *)
}.

Definition set_queue (q : list nat) (m : Manager) : Manager :=
  {| m_queue := q; m_handlers := m_handlers m; m_manager := m_manager m;
     m_channels := m_channels m; m_kind := m_kind m;
     c_channel := c_channel m; c_members := c_members m |}.

Definition set_handlers (hs : gset Handler) (m : Manager) : Manager :=
  {| m_queue := m_queue m; m_handlers := hs; m_manager := m_manager m;
     m_channels := m_channels m; m_kind := m_kind m;
     c_channel := c_channel m; c_members := c_members m |}.

Definition set_manager (r : nat) (m : Manager) : Manager :=
  {| m_queue := m_queue m; m_handlers := m_handlers m; m_manager := r;
     m_channels := m_channels m; m_kind := m_kind m;
     c_channel := c_channel m; c_members := c_members m |}.

Definition set_channels (chs : gmap string (list Handler)) (m : Manager) : Manager :=
  {| m_queue := m_queue m; m_handlers := m_handlers m; m_manager := m_manager m;
     m_channels := chs; m_kind := m_kind m;
     c_channel := c_channel m; c_members := c_members m |}.

(** [Manager.__init__] for the object allocated at reference [self]. *)
Definition Manager_init (self : nat) : Manager :=
  {| m_queue := []; m_handlers := ∅; m_manager := self; m_channels := ∅;
     m_kind := KManager; c_channel := None; c_members := [] |}.

(** [self.channels[k]] on the [defaultdict(list)]: an absent key is created
    with an empty list. *)
Definition getitem (k : string) : M Manager (list Handler) :=
  fun m =>
    match m_channels m !! k with
    | Some l => (Ok l, m)
    | None => (Ok [], set_channels (<[k := []]> (m_channels m)) m)
    end.

(** [self.channels[k] = l] *)
Definition setitem (k : string) (l : list Handler) : M Manager unit :=
  modify (fun m => set_channels (<[k := l]> (m_channels m)) m).

(** [Manager.__getitem__] *)
Definition Manager_getitem (x : string) : M Manager (list Handler) := getitem x.

(** [l.remove(x)]: drops the first occurrence, [ValueError] when there is none. *)
Fixpoint list_remove (x : Handler) (l : list Handler) : option (list Handler) :=
  match l with
  | [] => None
  | y :: r => if decide (x = y) then Some r
              else match list_remove x r with
                   | Some r' => Some (y :: r')
                   | None => None
                   end
  end.

(** [s.remove(x)] on a set: [KeyError] when [x] is not a member. *)
Definition set_remove (x : Handler) (s : gset Handler) : option (gset Handler) :=
  if bool_decide (x ∈ s) then Some (s ∖ {[x]}) else None.

(** [l.sort(key=lambda x: x.type)]: a stable sort on the [type] strings.
    Every handler of a channel list went through the guard of [add], so its
    [type] is present; the key of a handler without one is never compared. *)
Definition type_key (h : Handler) : string := default "" (h_type h).

Fixpoint insert_by_type (h : Handler) (l : list Handler) : list Handler :=
  match l with
  | [] => [h]
  | y :: r => if String.leb (type_key h) (type_key y) then h :: y :: r
              else y :: insert_by_type h r
  end.

Fixpoint sort_by_type (l : list Handler) : list Handler :=
  match l with
  | [] => []
  | h :: r => insert_by_type h (sort_by_type r)
  end.

(** ** Channel resolution: [Manager.handlers] *)

Definition type_ok (h : Handler) : bool :=
  match h_type h with
  | Some t => String.eqb t "filter" || String.eqb t "listener"
  | None => false
  end.

(** [[channels[k] for k in channels if p(k)]], flattened. *)
Definition matching (p : string -> bool) (chs : gmap string (list Handler))
  : list Handler :=
  concat (map snd (List.filter (fun kl => p (fst kl)) (map_to_list chs))).

(** [target, channel = s.split(":", 1)] when [":" in s], else
    [channel = s; target = None]. *)
Definition parse_channel (s : string) : option string * string :=
  match split_colon s with
  | Some (t, c) => (Some t, c)
  | None => (None, s)
  end.

Definition handlers (s : string) : M Manager (list Handler) :=
  let '(target, channel) := parse_channel s in
  let* globals := getitem "*" in
  let* m := get in
  if bool_decide (target = Some "*") && String.eqb channel "*" then
    ret (elements (m_handlers m))
  else if bool_decide (target = Some "*") then
    let c := ":" +:+ channel in
    let all := matching (fun k => String.eqb k channel || endswith c k)
                        (m_channels m) in
    ret (globals ++ all)
  else if String.eqb channel "*" then
    let c := fmt target +:+ ":" in
    let all := matching (fun k => startswith c k || negb (has_colon k))
                        (m_channels m) in
    ret (globals ++ all)
  else
    let* all := getitem (fmt target +:+ ":*") in
    let* own := getitem s in
    ret (globals ++ all ++ own).

(** ** Registration: [Manager.add] and [Manager.remove] *)

Definition add (handler : Handler) (channel : option string) : M Manager unit :=
  if negb (type_ok handler) then raise (InvalidHandler handler)
  else
    do modify (fun m => set_handlers ({[handler]} ∪ m_handlers m) m) then
    let channel := default "*" channel in
    let* m := get in
    match m_channels m !! channel with
    | Some l =>
        if bool_decide (handler ∈ l) then ret tt
        else setitem channel (sort_by_type (l ++ [handler]))
    | None => setitem channel [handler]
    end.

(** [if handler in self.channels[k]: self.channels[k].remove(handler)] *)
Definition discard (handler : Handler) (k : string) : M Manager unit :=
  let* l := getitem k in
  if bool_decide (handler ∈ l) then
    match list_remove handler l with
    | Some l' => setitem k l'
    | None => raise ValueError
    end
  else ret tt.

Definition remove (handler : Handler) (channel : option string) : M Manager unit :=
  let* keys := match channel with
               | None =>
                   do discard handler "*" then
                   let* m := get in
                   ret (map fst (map_to_list (m_channels m)))
               | Some c => ret [c]
               end in
  let* m := get in
  do (if bool_decide (handler ∈ m_handlers m) then
        match set_remove handler (m_handlers m) with
        | Some hs => modify (set_handlers hs)
        | None => raise KeyError
        end
      else ret tt) then
  for_each keys (discard handler).

(** ** Events *)

(** [source] and [ignore] are not read by the core and are left out. *)
Record Event := {
  ev_name : string;
  ev_args : list value;
  ev_kwargs : list (string * value);
  ev_channel : option string;
  ev_target : option string
}.

(** [Event.__new__(cls, *args, **kwargs)] *)
Definition Event_new (cls : string) (args : list value)
    (kwargs : list (string * value)) : Event :=
  {| ev_name := cls; ev_args := args; ev_kwargs := kwargs;
     ev_channel := None; ev_target := None |}.

(** [event.channel = channel; event.target = target] *)
Definition stamped (channel target : option string) (e : Event) : Event :=
  {| ev_name := ev_name e; ev_args := ev_args e; ev_kwargs := ev_kwargs e;
     ev_channel := channel; ev_target := target |}.

(** What a handler is called with: the event object when its first declared
    parameter is [event], then [*eargs] and [**ekwargs] where they are passed. *)
Record Invocation := {
  i_event : option Event;
  i_args : list value;
  i_kwargs : list (string * value)
}.

Inductive Outcome :=
  | Returned (v : value)
  | Raised.

(** The six call shapes of [send]. *)
Definition adapt (handler : Handler) (event : Event) : Invocation :=
  let eargs := ev_args event in
  let ekwargs := ev_kwargs event in
  match h_args handler with
  | a :: _ =>
      if String.eqb a "event"
      then {| i_event := Some event; i_args := eargs; i_kwargs := ekwargs |}
      else {| i_event := None; i_args := eargs; i_kwargs := ekwargs |}
  | [] =>
      if h_varargs handler && h_varkw handler
      then {| i_event := None; i_args := eargs; i_kwargs := ekwargs |}
      else if h_varkw handler
      then {| i_event := None; i_args := []; i_kwargs := ekwargs |}
      else if h_varargs handler
      then {| i_event := None; i_args := eargs; i_kwargs := [] |}
      else {| i_event := None; i_args := []; i_kwargs := [] |}
  end.

(** [q.pop()] on a deque: the right end, where [append] puts elements. *)
Definition pop (q : list nat) : option (nat * list nat) :=
  match rev q with
  | [] => None
  | e :: r => Some (e, rev r)
  end.

(** ** The object store, and the methods that follow [self.manager]

    Managers and events are Python objects, held here in two stores and
    named by their index.  The bodies of the handlers are not part of the
    module: [call] gives what a handler returns (or that it raises) and what
    it does to the application state [W].  Handlers that edit the registry
    of the manager that is dispatching to them are outside this model.
    [log] records what was dispatched and what was invoked, with what and
    to what end, for the statements. *)

Inductive Action :=
  | Dispatched (root : nat) (event : nat) (key : string)
  | Invoked (root : nat) (h : Handler) (inv : Invocation) (out : Outcome).

Section Dispatch.

Context {W : Type}.
Variable call : Handler -> Invocation -> W -> Outcome * W.

Record Sys := {
  objs : list Manager;
  events : list Event;
  world : W;
  log : list Action
}.

Definition set_objs (os : list Manager) (σ : Sys) : Sys :=
  {| objs := os; events := events σ; world := world σ; log := log σ |}.
Definition set_events (es : list Event) (σ : Sys) : Sys :=
  {| objs := objs σ; events := es; world := world σ; log := log σ |}.
Definition set_world (w : W) (σ : Sys) : Sys :=
  {| objs := objs σ; events := events σ; world := w; log := log σ |}.
Definition record (a : Action) (σ : Sys) : Sys :=
  {| objs := objs σ; events := events σ; world := world σ; log := log σ ++ [a] |}.

Definition obj (self : nat) : M Sys Manager :=
  fun σ => match objs σ !! self with
           | Some m => (Ok m, σ)
           | None => (Raise BadReference, σ)
           end.

Definition event_obj (event : nat) : M Sys Event :=
  fun σ => match events σ !! event with
           | Some e => (Ok e, σ)
           | None => (Raise BadReference, σ)
           end.

(** Runs a method of the object at [self] on the store. *)
Definition at_obj {A} (self : nat) (c : M Manager A) : M Sys A :=
  fun σ => match objs σ !! self with
           | Some m => let '(r, m') := c m in
                       (r, set_objs (<[self := m']> (objs σ)) σ)
           | None => (Raise BadReference, σ)
           end.

Definition stamp (event : nat) (channel target : option string) : M Sys unit :=
  fun σ => match events σ !! event with
           | Some e => (Ok tt, set_events (<[event := stamped channel target e]> (events σ)) σ)
           | None => (Raise BadReference, σ)
           end.

Definition new_event (e : Event) : M Sys nat :=
  fun σ => (Ok (length (events σ)), set_events (events σ ++ [e]) σ).

Definition timeout {A} : M Sys A := fun σ => (Timeout, σ).

(** [Manager.push] *)
Fixpoint push (fuel : nat) (self event : nat) (channel target : option string)
  : M Sys unit :=
  match fuel with
  | O => timeout
  | S fuel =>
      let* m := obj self in
      if Nat.eqb (m_manager m) self then
        do stamp event channel target then
        at_obj self (modify (fun m => set_queue (m_queue m ++ [event]) m))
      else push fuel (m_manager m) event channel target
  end.

(** The call of one handler in the loop of [send]. *)
Definition invoke (self : nat) (handler : Handler) (event : nat) : M Sys value :=
  let* e := event_obj event in
  let inv := adapt handler e in
  fun σ =>
    match call handler inv (world σ) with
    | (Returned v, w) =>
        (Ok v, set_world w (record (Invoked self handler inv (Returned v)) σ))
    | (Raised, w) =>
        (Raise HandlerError, set_world w (record (Invoked self handler inv Raised) σ))
    end.

(** [for handler in self.handlers(channel): ...] *)
Fixpoint dispatch (self event : nat) (hs : list Handler) : M Sys unit :=
  match hs with
  | [] => ret tt
  | handler :: rest =>
      let* filter := invoke self handler event in
      if truthy filter && bool_decide (h_type handler = Some "filter")
      then ret tt
      else dispatch self event rest
  end.

(** [Manager.send] *)
Fixpoint send (fuel : nat) (self event : nat) (channel target : option string)
  : M Sys unit :=
  match fuel with
  | O => timeout
  | S fuel =>
      let* m := obj self in
      if Nat.eqb (m_manager m) self then
        do stamp event channel target then
        let* key := match target with
                    | Some t => ret (t +:+ ":" +:+ fmt channel)
                    | None => match channel with
                              | Some c => ret c
                              | None => raise TypeError
                              end
                    end in
        do modify (record (Dispatched self event key)) then
        let* hs := at_obj self (handlers key) in
        dispatch self event hs
      else send fuel (m_manager m) event channel target
  end.

(** [while q: event = q.pop(); ...; self.send(event, channel, target)];
    [n] bounds the number of rounds, [length q] rounds empty the deque. *)
Fixpoint drain (n : nat) (q : list nat)
    (send_self : nat -> option string -> option string -> M Sys unit) : M Sys unit :=
  match pop q with
  | None => ret tt
  | Some (event, q') =>
      match n with
      | O => timeout
      | S n =>
          let* e := event_obj event in
          do send_self event (ev_channel e) (ev_target e) then
          drain n q' send_self
      end
  end.

(** [Manager.flush] *)
Fixpoint flush (fuel : nat) (self : nat) : M Sys unit :=
  match fuel with
  | O => timeout
  | S fuel' =>
      let* m := obj self in
      if Nat.eqb (m_manager m) self then
        let q := m_queue m in
        do at_obj self (modify (set_queue [])) then
        drain (length q) q (send fuel self)
      else flush fuel' (m_manager m)
  end.

(** ** Components *)

(** [Manager()] *)
Definition new_manager : M Sys nat :=
  fun σ => let self := length (objs σ) in
           (Ok self, set_objs (objs σ ++ [Manager_init self]) σ).

(** [if handler.channels: channels = handler.channels] /
    [else: channels = ["*"]] *)
Definition declared (handler : Handler) : list string :=
  match h_channels handler with
  | [] => ["*"]
  | _ => h_channels handler
  end.

(** [if self.channel is not None: channel = "%s:%s" % (self.channel, channel)] *)
Definition qualified (prefix : option string) (channel : string) : string :=
  match prefix with
  | Some p => p +:+ ":" +:+ channel
  | None => channel
  end.

(** [Component.register].  [self.channel] is read where the source reads it;
    nothing in the method writes it, so the value read first stands for all
    the reads. *)
Definition register (fuel : nat) (self manager : nat) : M Sys unit :=
  let* c := obj self in
  match m_kind c with
  | KManager => raise AttributeError
  | KComponent =>
      let hs := List.filter (fun x => bool_decide (is_Some (h_type x))) (c_members c) in
      do for_each hs (fun handler =>
           for_each (declared handler) (fun channel =>
             at_obj manager (add handler (Some (qualified (c_channel c) channel))))) then
      do (if negb (Nat.eqb manager self) then
            let* ev := new_event (Event_new "Registered" [] []) in
            send fuel manager ev (Some "registered") (c_channel c)
          else ret tt) then
      at_obj self (modify (set_manager manager))
  end.

(** [Component.unregister]; [self.manager] is not written before the loop
    ends. *)
Definition unregister (self : nat) : M Sys unit :=
  let* c := obj self in
  match m_kind c with
  | KManager => raise AttributeError
  | KComponent =>
      do for_each (elements (m_handlers c)) (fun handler =>
           at_obj (m_manager c) (remove handler None)) then
      at_obj self (modify (set_manager self))
  end.

(** [Component(channel=...)] for a class whose callable members are
    [members]: [Manager.__init__], the [channel] attribute, [register(self)]. *)
Definition new_component (fuel : nat) (channel : option string)
    (members : list Handler) : M Sys nat :=
  fun σ =>
    let self := length (objs σ) in
    let c := {| m_queue := []; m_handlers := ∅; m_manager := self;
                m_channels := ∅; m_kind := KComponent;
                c_channel := channel; c_members := members |} in
    (do register fuel self self then ret self) (set_objs (objs σ ++ [c]) σ).

(** [Manager.__add__] and [Manager.__iadd__]: [y.register(self.manager)] *)
Definition Manager_iadd (fuel : nat) (self y : nat) : M Sys unit :=
  let* m := obj self in
  register fuel y (m_manager m).

(** [Manager.__sub__]: [y.unregister()] *)
Definition Manager_sub (self y : nat) : M Sys unit := unregister y.

End Dispatch.

Arguments Sys : clear implicits.

(** ** Vocabulary of the statements *)

(** [self.channels[k]] as it reads: the list under [k], empty for an absent key. *)
Definition chan (m : Manager) (k : string) : list Handler :=
  default [] (m_channels m !! k).

(** What a read of an absent key leaves behind in the [defaultdict]. *)
Definition vivify (k : string) (chs : gmap string (list Handler))
  : gmap string (list Handler) :=
  match chs !! k with
  | Some _ => chs
  | None => <[k := []]> chs
  end.

(** Membership in the sequence resolved for [s], case by case. *)
Definition resolves (m : Manager) (s : string) (h : Handler) : Prop :=
  let '(target, channel) := parse_channel s in
  if bool_decide (target = Some "*") && String.eqb channel "*" then
    h ∈ m_handlers m
  else if bool_decide (target = Some "*") then
    h ∈ chan m "*" \/
    h ∈ matching (fun k => String.eqb k channel || endswith (":" +:+ channel) k)
                 (m_channels m)
  else if String.eqb channel "*" then
    h ∈ chan m "*" \/
    h ∈ matching (fun k => startswith (fmt target +:+ ":") k || negb (has_colon k))
                 (m_channels m)
  else
    h ∈ chan m "*" \/ h ∈ chan m (fmt target +:+ ":*") \/ h ∈ chan m s.

(** The sequence resolved for [s] holds [h]. *)
Definition delivered (m : Manager) (s : string) (h : Handler) : Prop :=
  exists hs m', handlers s m = (Ok hs, m') /\ h ∈ hs.

(** A target name: no colon in it, and not the wildcard. *)
Definition plain (a : string) : Prop := has_colon a = false /\ a ≠ "*".

(** The list [add] leaves under the channel, from what was there. *)
Definition add_list (h : Handler) (o : option (list Handler)) : list Handler :=
  match o with
  | Some l => if bool_decide (h ∈ l) then l else sort_by_type (l ++ [h])
  | None => [h]
  end.

Definition is_filter (h : Handler) : Prop := h_type h = Some "filter".
Definition is_listener (h : Handler) : Prop := h_type h = Some "listener".

(** The filters of [l] in their order, then its listeners in theirs. *)
Definition by_type (l : list Handler) : list Handler :=
  filter is_filter l ++ filter is_listener l.

(** [if x in l: l.remove(x)] as a function on the list. *)
Definition discard_list (x : Handler) (l : list Handler) : list Handler :=
  default l (list_remove x l).

(** The registry after [discard] ran over [keys]. *)
Definition discard_all (x : Handler) (keys : list string)
    (chs : gmap string (list Handler)) : gmap string (list Handler) :=
  fold_left (fun chs k => <[k := discard_list x (default [] (chs !! k))]> chs) keys chs.

(** ** Histories of a registry

    The calls a client can make on the registry of one manager, and the
    state they lead to from [Manager.__init__].  A call that raises leaves
    what it had done and the client goes on. *)

Inductive RegOp :=
  | OpAdd (h : Handler) (channel : option string)
  | OpRemove (h : Handler) (channel : option string)
  | OpHandlers (s : string)
  | OpGetitem (x : string).

Definition run_op (op : RegOp) (m : Manager) : Manager :=
  match op with
  | OpAdd h ch => (add h ch m).2
  | OpRemove h ch => (remove h ch m).2
  | OpHandlers s => (handlers s m).2
  | OpGetitem x => (Manager_getitem x m).2
  end.

Definition run_ops (ops : list RegOp) (m : Manager) : Manager :=
  fold_left (fun m op => run_op op m) ops m.

(** The handlers subscribed to channel [c], in the order of their insertion:
    an accepted [add] on [c] puts a handler that is not there at the end, a
    [remove] that covers [c] takes it out. *)
Definition subscribe_op (c : string) (l : list Handler) (op : RegOp) : list Handler :=
  match op with
  | OpAdd h ch =>
      if type_ok h && String.eqb (default "*" ch) c
      then (if bool_decide (h ∈ l) then l else l ++ [h])
      else l
  | OpRemove h None => filter (fun x => x ≠ h) l
  | OpRemove h (Some k) => if String.eqb k c then filter (fun x => x ≠ h) l else l
  | OpHandlers _ | OpGetitem _ => l
  end.

Definition insertion_order (ops : list RegOp) (c : string) : list Handler :=
  fold_left (subscribe_op c) ops [].

(** The registry of an object just made: no key, no handler. *)
Definition fresh (m : Manager) : Prop :=
  m_channels m = ∅ /\ m_handlers m = ∅.

Definition reachable (m : Manager) : Prop :=
  exists ops m0, fresh m0 /\ m = run_ops ops m0.

(** No handler twice, and only handlers that pass the guard of [add]. *)
Definition tidy (l : list Handler) : Prop :=
  NoDup l /\ Forall (fun y => type_ok y = true) l.

(** Two registries that read the same: the same handler set and, under
    every key, the same list, an absent key reading as the empty list. *)
Definition same_lists (m1 m2 : Manager) : Prop :=
  m_handlers m1 = m_handlers m2 /\ forall k, chan m1 k = chan m2 k.

(** The keys a [remove] goes through. *)
Definition covers (channel : option string) (k : string) : bool :=
  match channel with
  | None => true
  | Some c => String.eqb k c
  end.

(** ** Vocabulary of the statements on dispatch *)

(** The [break] of the loop of [send], and the end of it by an exception. *)
Definition stops (h : Handler) (out : Outcome) : bool :=
  match out with
  | Returned v => truthy v && bool_decide (h_type h = Some "filter")
  | Raised => true
  end.

(** The log entry of a call of [c.1] for the event [e] that ended in [c.2]. *)
Definition invoked (root : nat) (e : Event) (c : Handler * Outcome) : Action :=
  Invoked root c.1 (adapt c.1 e) c.2.

(** The events dispatched in a stretch of the log, in order. *)
Definition dispatched_events (l : list Action) : list nat :=
  omap (fun a => match a with
                 | Dispatched _ e _ => Some e
                 | Invoked _ _ _ _ => None
                 end) l.

(** The calls made on the sequence [hs], one after the other, and how the
    loop ended. *)
Inductive run_of : list Handler -> list (Handler * Outcome) -> res unit -> Prop :=
  | run_nil : run_of [] [] (Ok tt)
  | run_break h rest v :
      stops h (Returned v) = true ->
      run_of (h :: rest) [(h, Returned v)] (Ok tt)
  | run_raise h rest :
      run_of (h :: rest) [(h, Raised)] (Raise HandlerError)
  | run_next h rest v calls r :
      stops h (Returned v) = false ->
      run_of rest calls r ->
      run_of (h :: rest) ((h, Returned v) :: calls) r.

(** The object at [self] is its own manager. *)
Definition is_root {W} (σ : Sys W) (self : nat) : Prop :=
  exists m, objs σ !! self = Some m /\ m_manager m = self.

Definition queue_of {W} (σ : Sys W) (self : nat) : list nat :=
  default [] (m_queue <$> objs σ !! self).

(** The string [send] resolves: ["%s:%s" % (target, channel)] with a target,
    the channel without; no string when both are [None]. *)
Definition send_key (channel target : option string) : option string :=
  match target with
  | Some t => Some (t +:+ ":" +:+ fmt channel)
  | None => channel
  end.



(** ** Vocabulary of the statements on the tree *)

(** The [manager] reference of every object. *)
Definition parents {W} (σ : Sys W) : list nat := m_manager <$> objs σ.

(** The root that the [manager] references lead to from [i], when [fuel]
    steps reach one. *)
Fixpoint root_of (ps : list nat) (fuel : nat) (i : nat) : option nat :=
  match fuel with
  | O => None
  | S fuel =>
      match ps !! i with
      | Some p => if Nat.eqb p i then Some i else root_of ps fuel p
      | None => None
      end
  end.

(** The objects met on the way, [i] included. *)
Fixpoint chain (ps : list nat) (fuel : nat) (i : nat) : list nat :=
  match fuel with
  | O => []
  | S fuel =>
      i :: match ps !! i with
           | Some p => if Nat.eqb p i then [] else chain ps fuel p
           | None => []
           end
  end.

(** Every object leads to a root. *)
Definition rooted (ps : list nat) : Prop :=
  forall i, i < length ps -> exists n r, root_of ps n i = Some r.

(** [k] steps along the [manager] references. *)
Fixpoint ancestor (ps : list nat) (k : nat) (i : nat) : option nat :=
  match k with
  | O => Some i
  | S k => match ps !! i with
           | Some p => ancestor ps k p
           | None => None
           end
  end.

(** The only way back to an object is the reference of a root to itself. *)
Definition acyclic (ps : list nat) : Prop :=
  forall i k, ancestor ps (S k) i = Some i -> ps !! i = Some i.

(** The calls that build a tree. *)
Inductive TreeOp :=
  | TManager
  | TComponent (channel : option string) (members : list Handler)
  | TRegister (c manager : nat)
  | TUnregister (c : nat).

Definition run_tree_op {W} (call : Handler -> Invocation -> W -> Outcome * W)
    (fuel : nat) (op : TreeOp) : M (Sys W) unit :=
  match op with
  | TManager => do new_manager then ret tt
  | TComponent channel members => do new_component call fuel channel members then ret tt
  | TRegister c manager => register call fuel c manager
  | TUnregister c => unregister c
  end.

(** The configurations reached from the empty store by calls that [ok]
    lets through and that come to an end. *)
Inductive reach_by {W} (call : Handler -> Invocation -> W -> Outcome * W)
    (ok : Sys W -> TreeOp -> Prop) : Sys W -> Prop :=
  | reach_empty σ : objs σ = [] -> reach_by call ok σ
  | reach_step σ fuel op :
      reach_by call ok σ -> ok σ op ->
      (run_tree_op call fuel op σ).1 ≠ Timeout ->
      reach_by call ok (run_tree_op call fuel op σ).2.

Definition any_op {W} (σ : Sys W) (op : TreeOp) : Prop := True.

(** [register] onto the component itself, or onto a manager whose way to
    its root does not pass the component. *)
Definition off_chain {W} (σ : Sys W) (op : TreeOp) : Prop :=
  match op with
  | TRegister c manager =>
      manager = c \/
      exists n r, root_of (parents σ) n manager = Some r /\
                  c ∉ chain (parents σ) n manager
  | _ => True
  end.

(** What a call on the registry of an object leaves of the object. *)
Definition same_shape (m m' : Manager) : Prop :=
  m_manager m' = m_manager m /\ m_queue m' = m_queue m /\
  m_kind m' = m_kind m /\ c_channel m' = c_channel m /\
  c_members m' = c_members m.

(** The same object, its registry reading the same. *)
Definition same_object (m m' : Manager) : Prop :=
  same_shape m m' /\ same_lists m' m.

(** The handler [h] is registered on the object at [i] under [key]. *)
Definition subscribed {W} (σ : Sys W) (i : nat) (h : Handler) (key : string) : Prop :=
  exists om, objs σ !! i = Some om /\ h ∈ m_handlers om /\ h ∈ chan om key.

(** The registry after [remove(h)] ran for each [h] of [hs]. *)
Definition remove_each (hs : list Handler) (m : Manager) : Manager :=
  fold_left (fun m h => (remove h None m).2) hs m.

(** The object at [i], for stores that have one there. *)
Definition the_obj {W} (σ : Sys W) (i : nat) : Manager :=
  default (Manager_init i) (objs σ !! i).

(** A script of tree calls, each run to its end or to its exception. *)
Definition run_tree {W} (call : Handler -> Invocation -> W -> Outcome * W)
    (fuel : nat) (ops : list TreeOp) (σ : Sys W) : Sys W :=
  fold_left (fun σ op => (run_tree_op call fuel op σ).2) ops σ.

(** ** Sample objects *)

Definition empty_sys : Sys unit :=
  {| objs := []; events := []; world := tt; log := [] |}.

(** Handlers that all return [None]. *)
Definition call_none (h : Handler) (inv : Invocation) (w : unit) : Outcome * unit :=
  (Returned VNone, w).

(** Two components, each registered on the other. *)
Definition cycle_ops : list TreeOp :=
  [TComponent None []; TComponent None []; TRegister 0 1; TRegister 1 0].

(** A manager, a component on channel ["foo"] with one listener that
    declares no channel, and the component registered on the manager. *)
Definition plain_listener : Handler :=
  {| h_func := 1; h_type := Some "listener"; h_channels := [];
     h_args := []; h_varargs := false; h_varkw := false |}.


(** A manager and a component with one listener; the component is
    unregistered while it is its own manager, registered on the manager,
    and unregistered again. *)
Definition stale_ops : list TreeOp :=
  [TManager; TComponent None [plain_listener]; TUnregister 1; TRegister 1 0].

(** A filter on channel ["c"] that takes the event, and handlers that
    return [True] when they are filters and [None] otherwise. *)
Definition stop_filter : Handler :=
  {| h_func := 2; h_type := Some "filter"; h_channels := ["c"];
     h_args := ["event"]; h_varargs := false; h_varkw := false |}.


(** A root manager with the listener and then the filter added on ["c"],
    and one event. *)
Definition sample_root : Manager :=
  (add stop_filter (Some "c") (add plain_listener (Some "c") (Manager_init 0)).2).2.

Definition sample_sys : Sys unit :=
  {| objs := [sample_root]; events := [Event_new "Ping" [VInt 1] []];
     world := tt; log := [] |}.

(** A root manager with one event queued on ["c"] and a second event not
    yet pushed. *)
Definition queue_sys : Sys unit :=
  {| objs := [set_queue [0] (Manager_init 0)];
     events := [stamped (Some "c") None (Event_new "E1" [] []); Event_new "E2" [] []];
     world := tt; log := [] |}.

(** A manager and a component with one listener registered on it. *)
Definition pair_ops : list TreeOp :=
  [TManager; TComponent None [plain_listener]; TRegister 1 0].


Definition sample_ops : list RegOp :=
  [OpAdd plain_listener (Some "c"); OpAdd stop_filter (Some "c");
   OpHandlers "t:c"; OpRemove plain_listener None].

(** ** More of [Manager] *)

(** [Manager.__len__] *)
Definition Manager_len (m : Manager) : nat := length (m_queue m).

(** The dispatches of a stretch of the log, each with the key resolved. *)
Definition dispatched_keys (l : list Action) : list (nat * string) :=
  omap (fun a => match a with
                 | Dispatched _ e k => Some (e, k)
                 | Invoked _ _ _ _ => None
                 end) l.

(** [push] of an event, a [send] of the same event, then a [flush]. *)
Definition push_send_flush {W} (call : Handler -> Invocation -> W -> Outcome * W)
    (r ev : nat) (a b : string) (ta tb : option string) : M (Sys W) unit :=
  do push 1 r ev (Some a) ta then
  do send call 1 r ev (Some b) tb then
  flush call 1 r.

(** ** More of [Component] *)

(** The members [register] picks: the callables with a [type] attribute. *)
Definition tagged_members (members : list Handler) : list Handler :=
  List.filter (fun x => bool_decide (is_Some (h_type x))) members.

(** The registry after the adds of the loop of [register] over [hs]. *)
Definition add_each (prefix : option string) (hs : list Handler) (m : Manager)
  : Manager :=
  fold_left (fun m h =>
               fold_left (fun m ch => (add h (Some (qualified prefix ch)) m).2)
                         (declared h) m)
            hs m.

(** ** More of [Event] *)

(** What [event[x]] is asked with: an [int], a [str], or something else. *)
Inductive index :=
  | IInt (z : Z)
  | IStr (s : string)
  | IOther.

Inductive lookup_error :=
  | IndexError                   (* tuple index out of range *)
  | MissingKey (k : string)      (* KeyError(k) *)
  | BadIndexType.                (* TypeError("Expected int or str, ...") *)

(** [t[z]] on a tuple: a negative index counts from the end. *)
Definition tuple_index (t : list value) (z : Z) : option value :=
  let n := Z.of_nat (length t) in
  if (0 <=? z)%Z && (z <? n)%Z then t !! Z.to_nat z
  else if (- n <=? z)%Z && (z <? 0)%Z then t !! Z.to_nat (n + z)
  else None.

(** [d[k]] on the keyword dictionary, held as its items. *)
Fixpoint dict_get (d : list (string * value)) (k : string) : option value :=
  match d with
  | [] => None
  | (k', v) :: r => if String.eqb k' k then Some v else dict_get r k
  end.

(** [Event.__getitem__] *)
Definition Event_getitem (e : Event) (x : index) : lookup_error + value :=
  match x with
  | IInt z => match tuple_index (ev_args e) z with
              | Some v => inr v
              | None => inl IndexError
              end
  | IStr k => match dict_get (ev_kwargs e) k with
              | Some v => inr v
              | None => inl (MissingKey k)
              end
  | IOther => inl BadIndexType
  end.

(** [v == w] on the values: [None] equals only [None], a string only the
    same string, and [bool] compares as the integers 0 and 1. *)
Definition as_number (v : value) : option Z :=
  match v with
  | VBool b => Some (if b then 1 else 0)%Z
  | VInt z => Some z
  | VNone | VStr _ => None
  end.

Definition value_eq (v w : value) : bool :=
  match v, w with
  | VNone, VNone => true
  | VStr s, VStr t => String.eqb s t
  | _, _ => match as_number v, as_number w with
            | Some a, Some b => Z.eqb a b
            | _, _ => false
            end
  end.

(** [==] on tuples: the same length and equal items. *)
Fixpoint tuple_eq (s t : list value) : bool :=
  match s, t with
  | [], [] => true
  | v :: s', w :: t' => value_eq v w && tuple_eq s' t'
  | _, _ => false
  end.

(** [==] on dictionaries: the same number of items, and every key of the
    first is a key of the second with an equal value. *)
Definition dict_eq (a b : list (string * value)) : bool :=
  Nat.eqb (length a) (length b) &&
  forallb (fun kv => match dict_get b kv.1 with
                     | Some w => value_eq kv.2 w
                     | None => false
                     end) a.

(** [==] on the routing fields: a string or [None]. *)
Definition routing_eq (a b : option string) : bool :=
  match a, b with
  | None, None => true
  | Some s, Some t => String.eqb s t
  | _, _ => false
  end.

(** [Event.__eq__]: [False not in r] for the list [r] of the five
    comparisons. *)
Definition Event_eq (x y : Event) : bool :=
  let r := [String.eqb (ev_name x) (ev_name y);
            tuple_eq (ev_args x) (ev_args y);
            dict_eq (ev_kwargs x) (ev_kwargs y);
            routing_eq (ev_channel x) (ev_channel y);
            routing_eq (ev_target x) (ev_target y)] in
  negb (existsb negb r).

(** A keyword dictionary has each key once. *)
Definition kwargs_ok (e : Event) : Prop := NoDup (ev_kwargs e).*1.

(** The items of [a] are items of [b] up to [==] of the values. *)
Definition dict_le (a b : list (string * value)) : Prop :=
  forall k v, (k, v) ∈ a -> exists w, dict_get b k = Some w /\ value_eq v w = true.

(** * [circuits/core/utils.py] *)

(** ** [uncamel] *)

(** The character classes of [UNCAMELRE = "([a-z0-9])([A-Z])"]. *)
Definition is_lower_or_digit (c : ascii) : bool :=
  let n := nat_of_ascii c in
  ((97 <=? n) && (n <=? 122) || (48 <=? n) && (n <=? 57))%nat.

Definition is_upper (c : ascii) : bool :=
  let n := nat_of_ascii c in ((65 <=? n) && (n <=? 90))%nat.

(** [UNCAMELRE.sub("\g<1>_\g<2>", s)]: the matches are taken from left to
    right and do not overlap, so after a match the scan goes on behind its
    second character. *)
Fixpoint sub_uncamel (s : string) : string :=
  match s with
  | EmptyString => EmptyString
  | String c r =>
      match r with
      | EmptyString => String c EmptyString
      | String d r' =>
          if is_lower_or_digit c && is_upper d
          then String c (String "_"%char (String d (sub_uncamel r')))
          else String c (sub_uncamel r)
      end
  end.

(** [str.lower()] in the C locale: only [A-Z] change. *)
Definition lower_char (c : ascii) : ascii :=
  if is_upper c then ascii_of_nat (nat_of_ascii c + 32) else c.

Fixpoint lower (s : string) : string :=
  match s with
  | EmptyString => EmptyString
  | String c r => String (lower_char c) (lower r)
  end.

Definition uncamel (s : string) : string := lower (sub_uncamel s).

Fixpoint has_upper (s : string) : bool :=
  match s with
  | EmptyString => false
  | String c r => is_upper c || has_upper r
  end.

(** ** [findroot], [flatten] *)

Section Tree.
(** The objects are named by numbers; [parent x] is [x.parent] and
    [components x] is [x.components] in the order the loop visits it. *)
Variable parent : nat -> nat.
Variable components : nat -> list nat.

(** [findroot(x)]; the fuel bounds the depth of the recursion. *)
Fixpoint findroot (fuel : nat) (x : nat) : option nat :=
  match fuel with
  | 0 => None
  | S fuel =>
      if Nat.eqb (parent x) x then Some x else findroot fuel (parent x)
  end.

(** The loop of [flatten] over the copy of [x.components]: [v] is the
    one set shared by all the nested generators, [rec] the recursive
    call; the result is what is yielded and the set afterwards. *)
Definition flatten_loop (rec : nat -> gset nat -> option (list nat * gset nat)) :
    list nat -> gset nat -> option (list nat * gset nat) :=
  fix loop cs v :=
    match cs with
    | [] => Some ([], v)
    | c :: cs =>
        if decide (c ∈ v) then loop cs v
        else match rec c ({[c]} ∪ v) with
             | None => None
             | Some (ys, v1) =>
                 match loop cs v1 with
                 | None => None
                 | Some (zs, v2) => Some (ys ++ zs, v2)
                 end
             end
    end.

(** [not v]: [v] is the default [None], or a set that is empty. *)
Definition is_falsy (v : option (gset nat)) : bool :=
  match v with
  | None => true
  | Some s => bool_decide (s = ∅)
  end.

(** The set the generator works on: [if not v: v = set()] gives it a new
    empty set of its own, otherwise it is the set that was passed. *)
Definition working_set (v : option (gset nat)) : gset nat :=
  if is_falsy v then ∅ else default ∅ v.

(** [flatten(x, v)] run to its end: what it yields ([x] first, then what
    the loop yields) and the set that was passed for [v] as it is
    afterwards.  When the generator made a set of its own the set passed
    is as before; otherwise it is the set the loop worked on.  The
    recursive call passes the loop's set, and the loop goes on with that
    set as the call leaves it. *)
Fixpoint flatten_from (fuel : nat) (x : nat) (v : option (gset nat)) :
    option (list nat * option (gset nat)) :=
  match fuel with
  | 0 => None
  | S fuel =>
      match flatten_loop
              (fun c w =>
                 match flatten_from fuel c (Some w) with
                 | None => None
                 | Some (ys, v1) => Some (ys, default w v1)
                 end)
              (components x) (working_set v) with
      | None => None
      | Some (ys, w') => Some (x :: ys, if is_falsy v then v else Some w')
      end
  end.

(** The recursive call as the loop sees it. *)
Definition flatten_call (fuel : nat) (c : nat) (w : gset nat) :
    option (list nat * gset nat) :=
  match flatten_from fuel c (Some w) with
  | None => None
  | Some (ys, v1) => Some (ys, default w v1)
  end.

(** [flatten(x)]: [v] is [None]. *)
Definition flatten (fuel : nat) (x : nat) : option (list nat) :=
  fst <$> flatten_from fuel x None.

(** [y] is a component of [x]. *)
Definition component_of (x y : nat) : Prop := y ∈ components x.

(** A set of objects that holds the components of its members. *)
Definition closed (U : gset nat) : Prop :=
  forall y c, y ∈ U -> c ∈ components y -> c ∈ U.

(** What a run of [flatten(x, v)] or of its loop leaves behind: [ys]
    has no duplicates, it holds exactly the objects added to the set,
    each is reached from [x], and all components of each are in the set. *)
Definition visit_ok (from : nat -> Prop) (v : gset nat) (ys : list nat)
    (v' : gset nat) : Prop :=
  NoDup ys /\ (forall y, y ∈ ys <-> y ∈ v' /\ y ∉ v) /\ v ⊆ v' /\
  (forall y, y ∈ ys -> from y) /\
  (forall y c, y ∈ ys -> c ∈ components y -> c ∈ v').
End Tree.

(** ** [itercmp], [findcmp] *)

Section Find.
Variable components : nat -> list nat.
(** [issubclass(x.__class__, c)] and [isinstance(x, c)] for the class [c]
    that is looked for. *)
Variable issubclass_c : nat -> bool.
Variable isinstance_c : nat -> bool.

(** The test of the [if] and the [elif]: the object is yielded. *)
Definition is_cmp (subclass : bool) (x : nat) : bool :=
  subclass && issubclass_c x || isinstance_c x.

(** The loop of [itercmp] over [x.components], run to its end. *)
Definition itercmp_loop (rec : nat -> option (list nat)) (hit : nat -> bool) :
    list nat -> option (list nat) :=
  fix loop cs :=
    match cs with
    | [] => Some []
    | c :: cs =>
        match (if hit c then Some [c] else rec c) with
        | None => None
        | Some ys =>
            match loop cs with
            | None => None
            | Some zs => Some (ys ++ zs)
            end
        end
    end.

(** [itercmp(x, c, subclass)]: all that the generator yields. *)
Fixpoint itercmp (fuel : nat) (x : nat) (subclass : bool) : option (list nat) :=
  match fuel with
  | 0 => None
  | S fuel =>
      if is_cmp subclass x then Some [x]
      else itercmp_loop (fun c => itercmp fuel c subclass) (is_cmp subclass)
             (components x)
  end.

(** [next] runs the generator up to its first [yield] only: the loop
    stops at the first component that yields. *)
Definition findcmp_loop (rec : nat -> option (option nat)) (hit : nat -> bool) :
    list nat -> option (option nat) :=
  fix loop cs :=
    match cs with
    | [] => Some None
    | c :: cs =>
        if hit c then Some (Some c)
        else match rec c with
             | None => None
             | Some (Some y) => Some (Some y)
             | Some None => loop cs
             end
    end.

(** [findcmp(x, c, subclass)]: the first object yielded, or [None] when
    the generator ends without one. *)
Fixpoint findcmp (fuel : nat) (x : nat) (subclass : bool) : option (option nat) :=
  match fuel with
  | 0 => None
  | S fuel =>
      if is_cmp subclass x then Some (Some x)
      else findcmp_loop (fun c => findcmp fuel c subclass) (is_cmp subclass)
             (components x)
  end.

(** What a finished search from [x] says: each object yielded passes
    the test and is [x] or lies below it, and nothing is yielded only when
    nothing there passes. *)
Definition found (s : bool) (x : nat) (ys : list nat) : Prop :=
  Forall (fun y => is_cmp s y = true /\ rtc (component_of components) x y) ys /\
  (ys = [] ->
   forall y, rtc (component_of components) x y -> is_cmp s y = false).
End Find.

(** ** More sample objects *)

(** A method tagged with a type that [add] refuses. *)
Definition odd_handler : Handler :=
  {| h_func := 3; h_type := Some "observer"; h_channels := ["c"];
     h_args := []; h_varargs := false; h_varkw := false |}.

(** A manager and a component on channel ["foo"] that is its own manager
    and has a listener and then the refused method among its members. *)
Definition odd_component : Manager :=
  {| m_queue := []; m_handlers := ∅; m_manager := 1; m_channels := ∅;
     m_kind := KComponent; c_channel := Some "foo";
     c_members := [plain_listener; odd_handler] |}.

Definition odd_sys : Sys unit :=
  {| objs := [Manager_init 0; odd_component]; events := []; world := tt; log := [] |}.

(** Two events made alike, up to [1 == True]. *)
Definition ping_one : Event := Event_new "Ping" [VInt 1] [("k", VBool true)].
Definition ping_true : Event := Event_new "Ping" [VBool true] [("k", VInt 1)].

(** Each object's parent is the one numbered just below it; [0] is its
    own parent. *)
Definition sample_parent (x : nat) : nat := Nat.pred x.

(** Object [0] holds [1] and [2], and [1] holds [0] again. *)
Definition loop_components (x : nat) : list nat :=
  match x with
  | 0 => [1; 2]
  | 1 => [0]
  | _ => []
  end.

(** Object [0] holds [1] and [2], which hold nothing. *)
Definition tree_components (x : nat) : list nat :=
  match x with
  | 0 => [1; 2]
  | _ => []
  end.

Definition tree_rank (x : nat) : nat :=
  match x with
  | 0 => 1
  | _ => 0
  end.

(** Only object [2] is of the class looked for. *)
Definition is_two (x : nat) : bool := Nat.eqb x 2.

(** * Properties *)

(** ** Strings *)

Lemma split_colon_app a x :
  has_colon a = false -> split_colon (a +:+ ":" +:+ x) = Some (a, x).
Proof.
  induction a as [|c a IH]; simpl; [done|].
  destruct (Ascii.eqb c ":"); [done|]. intros Ha. by rewrite IH.
Qed.

Lemma split_colon_plain s : has_colon s = false -> split_colon s = None.
Proof.
  induction s as [|c s IH]; simpl; [done|].
  destruct (Ascii.eqb c ":"); [done|]. intros Hs. by rewrite IH.
Qed.

Lemma has_colon_app a x : has_colon (a +:+ ":" +:+ x) = true.
Proof.
  induction a as [|c a IH]; simpl; [done|]. by destruct (Ascii.eqb c ":").
Qed.

Lemma parse_channel_app a x :
  has_colon a = false -> parse_channel (a +:+ ":" +:+ x) = (Some a, x).
Proof. intros Ha. unfold parse_channel. by rewrite split_colon_app. Qed.

Lemma parse_channel_plain s : has_colon s = false -> parse_channel s = (None, s).
Proof. intros Hs. unfold parse_channel. by rewrite split_colon_plain. Qed.

Lemma startswith_app c x : startswith c (c +:+ x) = true.
Proof.
  unfold startswith. induction c as [|a c IH]; simpl; [by destruct x|].
  destruct (ascii_dec a a); [done|congruence].
Qed.

Lemma startswith_inv c k : startswith c k = true -> exists x, k = c +:+ x.
Proof.
  unfold startswith. revert k. induction c as [|a c IH]; intros k; simpl.
  - intros _. by exists k.
  - destruct k as [|b k]; simpl; [done|].
    destruct (ascii_dec a b) as [->|]; [|done].
    intros [x ->]%IH. by exists x.
Qed.

Lemma endswith_app p c : endswith c (p +:+ c) = true.
Proof.
  induction p as [|a p IH]; simpl.
  - change (endswith c c = true). destruct c; cbn [endswith]; by rewrite String.eqb_refl.
  - rewrite IH. apply orb_true_r.
Qed.

Lemma endswith_inv c k : endswith c k = true -> exists p, k = p +:+ c.
Proof.
  induction k as [|a k IH]; simpl.
  - rewrite orb_false_r. intros ->%String.eqb_eq. by exists "".
  - intros [->%String.eqb_eq | [p ->]%IH]%orb_true_iff.
    + by exists "".
    + by exists (String a p).
Qed.

(** Cutting [a ++ ":" ++ x] at its first colon is unambiguous. *)
Lemma colon_app_inj a b x y :
  has_colon a = false -> has_colon b = false ->
  a +:+ ":" +:+ x = b +:+ ":" +:+ y -> a = b /\ x = y.
Proof.
  intros Ha Hb Heq.
  pose proof (split_colon_app a x Ha) as H1.
  pose proof (split_colon_app b y Hb) as H2.
  rewrite Heq in H1. rewrite H1 in H2. by injection H2.
Qed.

(** ** The registry as a total map *)

Lemma elem_of_matching p chs h :
  h ∈ matching p chs <->
  exists k l, chs !! k = Some l /\ p k = true /\ h ∈ l.
Proof.
  unfold matching. rewrite list_elem_of_In, in_concat. split.
  - intros (l & Hl & Hh). apply in_map_iff in Hl as ([k l'] & <- & Hkl).
    apply filter_In in Hkl as [Hkl Hp]. simpl in *.
    exists k, l'. split; [|by rewrite list_elem_of_In].
    by apply elem_of_map_to_list, list_elem_of_In.
  - intros (k & l & Hk & Hp & Hh). exists l. split; [|by apply list_elem_of_In].
    apply in_map_iff. exists (k, l). split; [done|].
    apply filter_In. split; [|done].
    by apply list_elem_of_In, elem_of_map_to_list.
Qed.

Lemma getitem_eq k m :
  getitem k m = (Ok (chan m k), set_channels (vivify k (m_channels m)) m).
Proof.
  unfold getitem, chan, vivify. destruct (m_channels m !! k); [|done].
  by destruct m.
Qed.

Lemma lookup_vivify_eq k chs : vivify k chs !! k = Some (default [] (chs !! k)).
Proof.
  unfold vivify. destruct (chs !! k) eqn:E; [done|]. by rewrite lookup_insert_eq.
Qed.

Lemma lookup_vivify_ne k k' chs : k ≠ k' -> vivify k chs !! k' = chs !! k'.
Proof.
  intros Hne. unfold vivify. destruct (chs !! k); [done|].
  by rewrite lookup_insert_ne.
Qed.

Lemma default_vivify k k' chs :
  default [] (vivify k chs !! k') = default [] (chs !! k').
Proof.
  destruct (decide (k = k')) as [<-|Hne].
  - by rewrite lookup_vivify_eq.
  - by rewrite lookup_vivify_ne.
Qed.

Lemma vivify_elem k chs k' l h :
  vivify k chs !! k' = Some l -> h ∈ l -> chs !! k' = Some l.
Proof.
  destruct (decide (k = k')) as [<-|Hne].
  - rewrite lookup_vivify_eq. destruct (chs !! k); [done|].
    intros [= <-]. by intros ?%elem_of_nil.
  - by rewrite lookup_vivify_ne.
Qed.

Lemma vivify_mono k chs k' l : chs !! k' = Some l -> vivify k chs !! k' = Some l.
Proof.
  intros Hl. destruct (decide (k = k')) as [<-|Hne].
  - by rewrite lookup_vivify_eq, Hl.
  - by rewrite lookup_vivify_ne.
Qed.

Lemma elem_of_matching_vivify p k chs h :
  h ∈ matching p (vivify k chs) <-> h ∈ matching p chs.
Proof.
  rewrite !elem_of_matching. split; intros (k' & l & Hl & Hp & Hh); exists k', l.
  - eauto using vivify_elem.
  - eauto using vivify_mono.
Qed.

(** ** Channel resolution *)

Lemma handlers_total s m : exists hs m', handlers s m = (Ok hs, m').
Proof.
  unfold handlers. destruct (parse_channel s) as [target channel].
  unfold bind. rewrite getitem_eq. simpl.
  destruct (bool_decide (target = Some "*")), (String.eqb channel "*"); simpl;
    unfold ret, bind; rewrite ?getitem_eq; simpl; rewrite ?getitem_eq; simpl;
    eauto.
Qed.

Lemma handlers_elem s m hs m' h :
  handlers s m = (Ok hs, m') ->
  h ∈ hs <-> resolves m s h.
Proof.
  unfold handlers, resolves. destruct (parse_channel s) as [target channel].
  unfold bind. rewrite getitem_eq. simpl.
  destruct (bool_decide_reflect (target = Some "*")) as [Ht|Ht];
    destruct (String.eqb_spec channel "*") as [Hc|Hc]; simpl;
    unfold ret, bind; rewrite ?getitem_eq; simpl; rewrite ?getitem_eq; simpl;
    intros [= <- <-].
  - apply elem_of_elements.
  - rewrite elem_of_app, elem_of_matching_vivify. done.
  - rewrite elem_of_app, elem_of_matching_vivify. done.
  - rewrite !elem_of_app. unfold chan; simpl. rewrite !default_vivify. done.
Qed.

(** ** Registration *)

Lemma insert_by_type_perm h l : insert_by_type h l ≡ₚ h :: l.
Proof.
  induction l as [|y r IH]; simpl; [done|].
  destruct (String.leb _ _); [done|]. rewrite IH. apply Permutation_swap.
Qed.

Lemma sort_by_type_perm l : sort_by_type l ≡ₚ l.
Proof.
  induction l as [|h r IH]; simpl; [done|].
  by rewrite insert_by_type_perm, IH.
Qed.

Lemma elem_of_sort_by_type h l : h ∈ sort_by_type l <-> h ∈ l.
Proof. by rewrite sort_by_type_perm. Qed.

Lemma elem_of_add_list h' h o :
  h' ∈ add_list h o <-> h' = h \/ h' ∈ default [] o.
Proof.
  unfold add_list. destruct o as [l|]; simpl.
  - case_bool_decide as Hin.
    + split; [auto|]. by intros [->|].
    + rewrite elem_of_sort_by_type, elem_of_app, list_elem_of_singleton. tauto.
  - rewrite list_elem_of_singleton, elem_of_nil. tauto.
Qed.

Lemma add_eq h ch m :
  type_ok h = true ->
  add h ch m =
    (Ok tt,
     set_channels
       (<[default "*" ch := add_list h (m_channels m !! default "*" ch)]> (m_channels m))
       (set_handlers ({[h]} ∪ m_handlers m) m)).
Proof.
  intros Hty. unfold add. rewrite Hty. simpl.
  unfold bind, modify, get, setitem, modify, add_list. simpl.
  destruct (m_channels m !! default "*" ch) as [l|] eqn:E; [|done].
  case_bool_decide; [|done]. unfold ret. by rewrite insert_id.
Qed.

Lemma add_invalid h ch m :
  type_ok h = false -> add h ch m = (Raise (InvalidHandler h), m).
Proof. intros Hty. unfold add. by rewrite Hty. Qed.

Lemma chan_add_eq h ch m :
  type_ok h = true ->
  chan (add h ch m).2 (default "*" ch) = add_list h (m_channels m !! default "*" ch).
Proof.
  intros Hty. rewrite add_eq by done. unfold chan. simpl.
  by rewrite lookup_insert_eq.
Qed.

Lemma chan_add_ne h ch m k :
  type_ok h = true -> default "*" ch ≠ k ->
  chan (add h ch m).2 k = chan m k.
Proof.
  intros Hty Hne. rewrite add_eq by done. unfold chan. simpl.
  by rewrite lookup_insert_ne.
Qed.

Lemma handlers_add h ch m :
  type_ok h = true -> m_handlers (add h ch m).2 = {[h]} ∪ m_handlers m.
Proof. intros Hty. by rewrite add_eq. Qed.

Lemma elem_of_chan_add h ch m :
  type_ok h = true -> h ∈ chan (add h ch m).2 (default "*" ch).
Proof. intros Hty. rewrite chan_add_eq by done. apply elem_of_add_list. auto. Qed.

Lemma elem_of_matching_insert_ne p k l chs h :
  p k = false ->
  h ∈ matching p (<[k := l]> chs) <-> h ∈ matching p chs.
Proof.
  intros Hp. rewrite !elem_of_matching.
  split; intros (k' & l' & Hl & Hp' & Hh); exists k', l';
    (destruct (decide (k = k')) as [<-|Hne]; [congruence|]).
  - by rewrite lookup_insert_ne in Hl.
  - by rewrite lookup_insert_ne.
Qed.

Lemma delivered_resolves m s h : delivered m s h <-> resolves m s h.
Proof.
  split.
  - intros (hs & m' & Hrun & Hh). by eapply handlers_elem.
  - intros Hres. destruct (handlers_total s m) as (hs & m' & Hrun).
    exists hs, m'. split; [done|]. by eapply handlers_elem.
Qed.

Lemma string_app_assoc (a b c : string) : a +:+ b +:+ c = (a +:+ b) +:+ c.
Proof.
  induction a as [|d a IH]; [done|].
  change (String d (a +:+ b +:+ c) = String d ((a +:+ b) +:+ c)). by rewrite IH.
Qed.

Lemma startswith_other a b x :
  has_colon a = false -> has_colon b = false -> a ≠ b ->
  startswith (b +:+ ":") (a +:+ ":" +:+ x) = false.
Proof.
  intros Ha Hb Hne. destruct (startswith _ _) eqn:E; [|done].
  apply startswith_inv in E as [y Hy].
  rewrite <- string_app_assoc in Hy. apply colon_app_inj in Hy as [? _]; done.
Qed.

(** The global handlers come first in every resolution but ["*:*"], which
    returns the handler set. *)
Lemma global_delivered m s h :
  h ∈ chan m "*" -> h ∈ m_handlers m -> delivered m s h.
Proof.
  intros Hg Hs. apply delivered_resolves. unfold resolves.
  destruct (parse_channel s) as [target channel].
  repeat case_match; auto.
Qed.

Lemma own_target_delivered h m a z :
  type_ok h = true -> plain a ->
  delivered (add h (Some (a +:+ ":*")) m).2 (a +:+ ":" +:+ z) h.
Proof.
  intros Hty [Ha Ha']. apply delivered_resolves. unfold resolves.
  rewrite parse_channel_app by done.
  rewrite bool_decide_eq_false_2 by congruence. simpl.
  pose proof (elem_of_chan_add h (Some (a +:+ ":*")) m Hty) as Hin. simpl in Hin.
  destruct (String.eqb_spec z "*") as [->|Hz]; [|by right; left].
  right. apply elem_of_matching.
  unfold chan in Hin. destruct (m_channels _ !! _) as [l|] eqn:E;
    [|by apply elem_of_nil in Hin].
  exists (a +:+ ":*"), l. split; [done|]. split; [|done].
  change (a +:+ ":*") with (a +:+ ":" +:+ "*").
  rewrite string_app_assoc. by rewrite startswith_app.
Qed.

Lemma other_target_frame h m a b y :
  type_ok h = true -> plain a -> plain b -> a ≠ b ->
  delivered (add h (Some (a +:+ ":*")) m).2 (b +:+ ":" +:+ y) h <->
  delivered m (b +:+ ":" +:+ y) h.
Proof.
  intros Hty [Ha Ha'] [Hb Hb'] Hab.
  assert (forall k, k ≠ a +:+ ":*" ->
            chan (add h (Some (a +:+ ":*")) m).2 k = chan m k) as Hframe.
  { intros k Hk. apply chan_add_ne; [done|]. simpl. congruence. }
  rewrite !delivered_resolves. unfold resolves.
  rewrite parse_channel_app by done.
  rewrite bool_decide_eq_false_2 by congruence. simpl.
  assert ("*" ≠ a +:+ ":*") as Hstar.
  { intros Heq. pose proof (has_colon_app a "*") as Hc.
    change (a +:+ ":" +:+ "*") with (a +:+ ":*") in Hc.
    rewrite <- Heq in Hc. done. }
  rewrite (Hframe "*") by done.
  destruct (String.eqb_spec y "*") as [->|Hy].
  - rewrite add_eq by done. simpl.
    rewrite elem_of_matching_insert_ne; [done|].
    change (a +:+ ":*") with (a +:+ ":" +:+ "*").
    rewrite startswith_other by done. by rewrite has_colon_app.
  - rewrite !Hframe; [done| |].
    + change (a +:+ ":*") with (a +:+ ":" +:+ "*").
      intros [? _]%colon_app_inj; done.
    + change (a +:+ ":*") with (a +:+ ":" +:+ "*").
      change (b +:+ ":*") with (b +:+ ":" +:+ "*").
      intros [? _]%colon_app_inj; done.
Qed.

Lemma matching_empty p : matching p ∅ = [].
Proof. unfold matching. by rewrite map_to_list_empty. Qed.

(** A manager just made resolves every channel to the empty sequence. *)
Lemma init_delivers_nothing r s h : ~ delivered (Manager_init r) s h.
Proof.
  rewrite delivered_resolves. unfold resolves.
  destruct (parse_channel s) as [target channel]. simpl.
  unfold chan. simpl. rewrite !matching_empty, !lookup_empty. simpl.
  repeat case_match; rewrite ?elem_of_nil; try tauto. set_solver.
Qed.

(** C1: a handler added on ["*"] (or with the channel omitted) is in the
    sequence resolved for every [s]; added on ["a:*"] it is in the sequences
    for ["a:x"] and ["a:y"], and the sequence for ["b:y"] holds it only if
    it did before, so never on a manager just made; added on a bare ["x"]
    it is in the sequences for ["*:x"] and ["x"]. *)
Theorem handlers_wildcards (h : Handler) (m : Manager) (a b x y : string) :
  type_ok h = true -> plain a -> plain b -> a ≠ b -> has_colon x = false ->
  let on k m := (add h k m).2 in
  (forall s, delivered (on (Some "*") m) s h) /\
  (forall s, delivered (on None m) s h) /\
  delivered (on (Some (a +:+ ":*")) m) (a +:+ ":" +:+ x) h /\
  delivered (on (Some (a +:+ ":*")) m) (a +:+ ":" +:+ y) h /\
  (delivered (on (Some (a +:+ ":*")) m) (b +:+ ":" +:+ y) h <->
     delivered m (b +:+ ":" +:+ y) h) /\
  (forall r, ~ delivered (on (Some (a +:+ ":*")) (Manager_init r)) (b +:+ ":" +:+ y) h) /\
  delivered (on (Some x) m) ("*" +:+ ":" +:+ x) h /\
  delivered (on (Some x) m) x h.
Proof.
  intros Hty Ha Hb Hab Hx on.
  split; [|split; [|split; [|split; [|split; [|split; [|split]]]]]].
  - intros s. apply global_delivered.
    + apply (elem_of_chan_add h (Some "*") m Hty).
    + unfold on. rewrite handlers_add by done.
      apply elem_of_union_l, elem_of_singleton. done.
  - intros s. apply global_delivered.
    + apply (elem_of_chan_add h None m Hty).
    + unfold on. rewrite handlers_add by done.
      apply elem_of_union_l, elem_of_singleton. done.
  - by apply own_target_delivered.
  - by apply own_target_delivered.
  - by apply other_target_frame.
  - intros r Hd. apply other_target_frame in Hd; [|done..].
    by apply init_delivers_nothing in Hd.
  - apply delivered_resolves. unfold resolves.
    rewrite (parse_channel_app "*" x) by done. simpl.
    destruct (String.eqb_spec x "*") as [->|Hne].
    + unfold on. rewrite handlers_add by done.
      apply elem_of_union_l, elem_of_singleton. done.
    + right. apply elem_of_matching.
      pose proof (elem_of_chan_add h (Some x) m Hty) as Hin. simpl in Hin.
      unfold chan in Hin. destruct (m_channels _ !! _) as [l|] eqn:E;
        [|by apply elem_of_nil in Hin].
      exists x, l. split; [done|]. split; [|done]. by rewrite String.eqb_refl.
  - apply delivered_resolves. unfold resolves.
    rewrite parse_channel_plain by done. simpl.
    pose proof (elem_of_chan_add h (Some x) m Hty) as Hin. simpl in Hin.
    destruct (String.eqb_spec x "*") as [->|Hne].
    + left. done.
    + right. right. done.
Qed.

(** ** The stable sort on [type] *)

Lemma type_ok_cases h : type_ok h = true <-> is_filter h \/ is_listener h.
Proof.
  unfold type_ok, is_filter, is_listener. destruct (h_type h) as [t|].
  - rewrite orb_true_iff, !String.eqb_eq. split; intros [?|?]; simplify_eq; auto.
  - split; [done|]. intros [?|?]; done.
Qed.

Lemma filter_not_listener h : is_filter h -> ~ is_listener h.
Proof. unfold is_filter, is_listener. congruence. Qed.

Lemma insert_filter h l :
  is_filter h -> Forall (fun y => type_ok y = true) l ->
  insert_by_type h l = h :: l.
Proof.
  intros Hh Hl. destruct l as [|y r]; simpl; [done|].
  apply Forall_cons in Hl as [Hy _]. apply type_ok_cases in Hy.
  unfold type_key. rewrite Hh. by destruct Hy as [-> | ->].
Qed.

Lemma insert_listener h fs ls :
  is_listener h -> Forall is_filter fs -> Forall is_listener ls ->
  insert_by_type h (fs ++ ls) = fs ++ h :: ls.
Proof.
  intros Hh Hfs Hls. induction Hfs as [|y fs Hy Hfs IH]; simpl.
  - destruct ls as [|y r]; simpl; [done|].
    apply Forall_cons in Hls as [Hy _].
    unfold type_key. by rewrite Hh, Hy.
  - unfold type_key at 1 2. rewrite Hh, Hy. simpl. by rewrite IH.
Qed.

Lemma Forall_filter_is (P : Handler -> Prop) `{!forall x, Decision (P x)} l :
  Forall P (filter P l).
Proof. apply Forall_forall. by intros x [? _]%list_elem_of_filter. Qed.

Lemma sort_by_type_stable l :
  Forall (fun y => type_ok y = true) l -> sort_by_type l = by_type l.
Proof.
  induction 1 as [|h r Hh Hr IH]; [done|]. simpl. rewrite IH. unfold by_type.
  apply type_ok_cases in Hh as [Hf|Hl].
  - rewrite insert_filter; [| done |].
    + rewrite filter_cons_True by done.
      rewrite filter_cons_False by by apply filter_not_listener. done.
    + apply Forall_app. split; eapply Forall_impl; try apply Forall_filter_is;
        intros y Hy; apply type_ok_cases; auto.
  - rewrite insert_listener; [| done | apply Forall_filter_is..].
    rewrite filter_cons_False by (intros ?; by eapply filter_not_listener).
    by rewrite filter_cons_True by done.
Qed.

Lemma by_type_perm l :
  Forall (fun y => type_ok y = true) l -> by_type l ≡ₚ l.
Proof. intros Hl. rewrite <- sort_by_type_stable by done. apply sort_by_type_perm. Qed.

Lemma by_type_snoc l h :
  type_ok h = true -> by_type (by_type l ++ [h]) = by_type (l ++ [h]).
Proof.
  intros Hh. unfold by_type. rewrite !filter_app.
  rewrite !list_filter_filter.
  assert (forall l : list Handler, filter (fun x => is_filter x /\ is_filter x) l = filter is_filter l) as E1.
  { intros l'. apply list_filter_iff. tauto. }
  assert (forall l : list Handler, filter (fun x => is_listener x /\ is_listener x) l = filter is_listener l) as E2.
  { intros l'. apply list_filter_iff. tauto. }
  assert (forall l : list Handler, filter (fun x => is_filter x /\ is_listener x) l = []) as E3.
  { intros l'. induction l' as [|y l' IH]; [done|].
    rewrite filter_cons_False; [done|]. intros [? ?]. by eapply filter_not_listener. }
  assert (forall l : list Handler, filter (fun x => is_listener x /\ is_filter x) l = []) as E4.
  { intros l'. induction l' as [|y l' IH]; [done|].
    rewrite filter_cons_False; [done|]. intros [? ?]. by eapply filter_not_listener. }
  rewrite E1, E2, E3, E4. simpl. rewrite app_nil_r.
  apply type_ok_cases in Hh as [Hf|Hl].
  - rewrite (filter_cons_True is_filter) by done.
    rewrite (filter_cons_False is_listener) by by apply filter_not_listener.
    done.
  - rewrite (filter_cons_False is_filter) by (intros ?; by eapply filter_not_listener).
    rewrite (filter_cons_True is_listener) by done.
    done.
Qed.

Lemma by_type_filter (P : Handler -> Prop) `{!forall x, Decision (P x)} l :
  by_type (filter P l) = filter P (by_type l).
Proof.
  unfold by_type. rewrite filter_app, !list_filter_filter.
  f_equal; apply list_filter_iff; tauto.
Qed.

(** ** [remove] *)

Lemma list_remove_Some x l : x ∈ l -> is_Some (list_remove x l).
Proof.
  induction l as [|y r IH]; simpl; [by intros ?%elem_of_nil|].
  intros Hin. case_decide; [eauto|].
  apply elem_of_cons in Hin as [?|Hin]; [done|].
  destruct (IH Hin) as [r' ->]. eauto.
Qed.

Lemma list_remove_None x l : x ∉ l -> list_remove x l = None.
Proof.
  induction l as [|y r IH]; simpl; [done|].
  intros [Hne Hin]%not_elem_of_cons. case_decide; [done|]. by rewrite IH.
Qed.

Lemma discard_list_absent x l : x ∉ l -> discard_list x l = l.
Proof. intros Hx. unfold discard_list. by rewrite list_remove_None. Qed.

Lemma filter_all (P : Handler -> Prop) `{!forall x, Decision (P x)} l :
  Forall P l -> filter P l = l.
Proof.
  induction 1 as [|y r Hy Hr IH]; [done|]. by rewrite filter_cons_True, IH.
Qed.

Lemma discard_list_nodup x l :
  NoDup l -> discard_list x l = filter (fun y => y ≠ x) l.
Proof.
  unfold discard_list. induction 1 as [|y r Hy Hr IH]; simpl; [done|].
  case_decide as Hxy.
  - subst y. rewrite filter_cons_False by tauto. simpl.
    symmetry. apply filter_all, Forall_forall. intros z Hz ->. done.
  - rewrite filter_cons_True by done.
    destruct (list_remove x r); simpl in *; by f_equal.
Qed.

Lemma insert_vivify k (l : list Handler) chs :
  <[k := l]> (vivify k chs) = <[k := l]> chs.
Proof.
  unfold vivify. destruct (chs !! k); [done|]. by rewrite insert_insert_eq.
Qed.

Lemma discard_eq h k m :
  discard h k m =
    (Ok tt, set_channels (<[k := discard_list h (chan m k)]> (m_channels m)) m).
Proof.
  unfold discard, bind. rewrite getitem_eq.
  case_bool_decide as Hin.
  - destruct (list_remove_Some _ _ Hin) as [l' Hl'].
    unfold discard_list. rewrite Hl'. simpl.
    unfold setitem, modify, set_channels. simpl. by rewrite insert_vivify.
  - rewrite discard_list_absent by done. unfold ret. do 2 f_equal.
    unfold vivify, chan. destruct (m_channels m !! k) eqn:E; simpl; [|done].
    by rewrite insert_id.
Qed.

Lemma for_each_discard h keys m :
  for_each keys (discard h) m =
    (Ok tt, set_channels (discard_all h keys (m_channels m)) m).
Proof.
  revert m. induction keys as [|k keys IH]; intros m; simpl.
  - unfold ret. by destruct m.
  - unfold bind. rewrite discard_eq, IH. done.
Qed.

Lemma lookup_discard_all h keys chs k :
  NoDup keys ->
  default [] (discard_all h keys chs !! k) =
    if bool_decide (k ∈ keys) then discard_list h (default [] (chs !! k))
    else default [] (chs !! k).
Proof.
  intros Hnd. revert chs. induction Hnd as [|k' keys Hk' Hnd IH]; intros chs; simpl.
  - done.
  - rewrite IH. destruct (decide (k = k')) as [->|Hne].
    + rewrite bool_decide_eq_false_2 by done.
      rewrite bool_decide_eq_true_2 by (apply elem_of_cons; auto).
      by rewrite lookup_insert_eq.
    + rewrite lookup_insert_ne by done.
      case_bool_decide as H1; case_bool_decide as H2; try done.
      * exfalso. apply H2. by (apply elem_of_cons; auto).
      * exfalso. apply elem_of_cons in H2 as [?|?]; done.
Qed.

Lemma set_remove_eq h H :
  h ∈ H -> set_remove h H = Some (H ∖ {[h]}).
Proof. intros Hin. unfold set_remove. by rewrite bool_decide_eq_true_2. Qed.

Lemma remove_tail h keys m :
  (let* m := get in
   do (if bool_decide (h ∈ m_handlers m) then
         match set_remove h (m_handlers m) with
         | Some hs => modify (set_handlers hs)
         | None => raise KeyError
         end
       else ret tt) then
   for_each keys (discard h)) m =
  (Ok tt, set_channels (discard_all h keys (m_channels m))
            (set_handlers (m_handlers m ∖ {[h]}) m)).
Proof.
  unfold bind, get. case_bool_decide as Hin.
  - rewrite set_remove_eq by done. unfold modify. by rewrite for_each_discard.
  - unfold ret. rewrite for_each_discard. do 2 f_equal.
    assert (m_handlers m ∖ {[h]} = m_handlers m) as -> by set_solver.
    by destruct m.
Qed.

Lemma remove_eq h ch m :
  remove h ch m =
    (Ok tt,
     let chs1 := match ch with
                 | None => <["*" := discard_list h (chan m "*")]> (m_channels m)
                 | Some _ => m_channels m
                 end in
     let keys := match ch with
                 | None => map fst (map_to_list chs1)
                 | Some c => [c]
                 end in
     set_channels (discard_all h keys chs1)
       (set_handlers (m_handlers m ∖ {[h]}) m)).
Proof.
  unfold remove. unfold bind at 1. destruct ch as [c|].
  - unfold ret at 1. by rewrite remove_tail.
  - unfold bind at 1. rewrite discard_eq. unfold bind at 1, get at 1, ret at 1.
    by rewrite remove_tail.
Qed.

Lemma chan_remove_one h c m k :
  chan (remove h (Some c) m).2 k =
    if bool_decide (k = c) then discard_list h (chan m k) else chan m k.
Proof.
  rewrite remove_eq. unfold chan. simpl.
  destruct (decide (k = c)) as [->|Hne].
  - rewrite bool_decide_eq_true_2 by done. by rewrite lookup_insert_eq.
  - rewrite bool_decide_eq_false_2 by done. by rewrite lookup_insert_ne.
Qed.

Lemma chan_remove_all h m k :
  chan (remove h None m).2 k =
    discard_list h (if bool_decide (k = "*") then discard_list h (chan m "*")
                    else chan m k).
Proof.
  rewrite remove_eq. unfold chan at 1. cbv zeta. simpl.
  rewrite lookup_discard_all by apply NoDup_fst_map_to_list.
  set (chs1 := <["*" := _]> (m_channels m)).
  assert (default [] (chs1 !! k) =
          if bool_decide (k = "*") then discard_list h (chan m "*") else chan m k) as ->.
  { unfold chs1. case_bool_decide as Hk.
    - subst k. by rewrite lookup_insert_eq.
    - by rewrite lookup_insert_ne. }
  case_bool_decide as Hkeys; [done|].
  assert (chs1 !! k = None) as Hnone.
  { destruct (chs1 !! k) as [l|] eqn:E; [|done]. exfalso. apply Hkeys.
    apply list_elem_of_fmap. exists (k, l). split; [done|].
    by apply elem_of_map_to_list. }
  case_bool_decide as Hk.
  - subst k. unfold chs1 in Hnone. by rewrite lookup_insert_eq in Hnone.
  - unfold chs1 in Hnone. rewrite lookup_insert_ne in Hnone by done.
    unfold chan. rewrite Hnone. done.
Qed.

Lemma handlers_remove h ch m :
  m_handlers (remove h ch m).2 = m_handlers m ∖ {[h]}.
Proof. by rewrite remove_eq. Qed.

(** ** What resolution leaves in the registry *)

Lemma getitem_state k m :
  (getitem k m).2 = set_channels (vivify k (m_channels m)) m.
Proof. by rewrite getitem_eq. Qed.

Lemma handlers_state s m :
  (handlers s m).2 =
    set_channels
      (let '(target, channel) := parse_channel s in
       if bool_decide (target = Some "*") || String.eqb channel "*"
       then vivify "*" (m_channels m)
       else vivify s (vivify (fmt target +:+ ":*") (vivify "*" (m_channels m))))
      m.
Proof.
  unfold handlers. destruct (parse_channel s) as [target channel].
  unfold bind. rewrite getitem_eq. simpl.
  destruct (bool_decide (target = Some "*")), (String.eqb channel "*"); simpl;
    unfold ret, bind; rewrite ?getitem_eq; simpl; rewrite ?getitem_eq; simpl;
    done.
Qed.

Lemma chan_set_vivify k chs m c :
  chan (set_channels (vivify k chs) m) c = chan (set_channels chs m) c.
Proof. unfold chan. simpl. apply default_vivify. Qed.

Lemma chan_handlers s m c : chan (handlers s m).2 c = chan m c.
Proof.
  rewrite handlers_state. destruct (parse_channel s) as [target channel].
  destruct (_ || _); rewrite !chan_set_vivify; by destruct m.
Qed.

Lemma chan_getitem k m c : chan (getitem k m).2 c = chan m c.
Proof. rewrite getitem_state, chan_set_vivify. by destruct m. Qed.

Lemma m_handlers_handlers s m : m_handlers (handlers s m).2 = m_handlers m.
Proof. by rewrite handlers_state. Qed.

(** ** The order inside a channel list *)

Lemma add_list_default h o : add_list h o = add_list h (Some (default [] o)).
Proof. by destruct o. Qed.

Lemma chan_add h ch m c :
  type_ok h = true ->
  chan (add h ch m).2 c =
    if String.eqb (default "*" ch) c then add_list h (Some (chan m c)) else chan m c.
Proof.
  intros Hty. destruct (String.eqb_spec (default "*" ch) c) as [<-|Hne].
  - rewrite chan_add_eq by done. apply add_list_default.
  - by apply chan_add_ne.
Qed.

Lemma filter_twice (x : Handler) (l : list Handler) :
  filter (fun y => y ≠ x) (filter (fun y => y ≠ x) l) = filter (fun y => y ≠ x) l.
Proof. rewrite list_filter_filter. apply list_filter_iff. tauto. Qed.

Lemma tidy_by_type l : tidy l -> NoDup (by_type l).
Proof. intros [Hnd Hok]. by rewrite by_type_perm. Qed.

Lemma subscribe_step op m c l :
  tidy l -> chan m c = by_type l ->
  tidy (subscribe_op c l op) /\
  chan (run_op op m) c = by_type (subscribe_op c l op).
Proof.
  intros Htidy Hc. pose proof (tidy_by_type l Htidy) as Hnd.
  destruct Htidy as [Hl Hok]. destruct op as [h ch|h ch|s|x]; simpl.
  - destruct (type_ok h) eqn:Hty; simpl.
    + rewrite chan_add by done. destruct (String.eqb _ c); [|done].
      unfold add_list. rewrite Hc.
      assert (h ∈ by_type l <-> h ∈ l) as Hin by by rewrite by_type_perm.
      case_bool_decide as H1; case_bool_decide as H2; try tauto; [done|].
      split.
      * split.
        -- apply NoDup_app. split; [done|]. split; [|apply NoDup_singleton].
           intros y Hy ->%list_elem_of_singleton. done.
        -- apply Forall_app. split; [done|]. by apply Forall_singleton.
      * rewrite sort_by_type_stable.
        -- by apply by_type_snoc.
        -- apply Forall_app. split; [|by apply Forall_singleton].
           by rewrite by_type_perm.
    + by rewrite add_invalid.
  - assert (tidy (filter (fun y => y ≠ h) l)) as Htidy'.
    { split; [by apply NoDup_filter|]. apply Forall_forall.
      intros y [_ Hy]%list_elem_of_filter. by eapply (proj1 (Forall_forall _ _) Hok). }
    destruct ch as [k|].
    + rewrite chan_remove_one.
      destruct (String.eqb_spec k c) as [->|Hne].
      * rewrite bool_decide_eq_true_2 by done. split; [done|].
        rewrite Hc, discard_list_nodup by done. by rewrite by_type_filter.
      * rewrite bool_decide_eq_false_2 by done. done.
    + split; [done|]. rewrite chan_remove_all, by_type_filter.
      case_bool_decide as Hk.
      * subst c. rewrite Hc. rewrite !discard_list_nodup;
          [apply filter_twice | done | ].
        rewrite discard_list_nodup by done. by apply NoDup_filter.
      * by rewrite Hc, discard_list_nodup.
  - by rewrite chan_handlers.
  - unfold Manager_getitem. by rewrite chan_getitem.
Qed.

Lemma run_ops_snoc ops op m : run_ops (ops ++ [op]) m = run_op op (run_ops ops m).
Proof. unfold run_ops. by rewrite fold_left_app. Qed.

Lemma insertion_order_snoc ops op c :
  insertion_order (ops ++ [op]) c = subscribe_op c (insertion_order ops c) op.
Proof. unfold insertion_order. by rewrite fold_left_app. Qed.

Lemma chan_fresh m c : fresh m -> chan m c = [].
Proof. intros [Hc _]. unfold chan. by rewrite Hc, lookup_empty. Qed.

Lemma run_ops_by_type ops m0 c :
  fresh m0 ->
  tidy (insertion_order ops c) /\
  chan (run_ops ops m0) c = by_type (insertion_order ops c).
Proof.
  intros Hfresh. induction ops as [|op ops IH] using rev_ind.
  - split; [split; [apply NoDup_nil_2|apply Forall_nil_2]|]. by apply chan_fresh.
  - rewrite run_ops_snoc, insertion_order_snoc. destruct IH as [Ht Hc].
    by apply subscribe_step.
Qed.

Lemma reachable_nodup m c : reachable m -> NoDup (chan m c).
Proof.
  intros (ops & m0 & Hfresh & ->).
  destruct (run_ops_by_type ops m0 c Hfresh) as [Ht ->]. by apply tidy_by_type.
Qed.

Lemma reachable_type_ok m c h : reachable m -> h ∈ chan m c -> type_ok h = true.
Proof.
  intros (ops & m0 & Hfresh & ->).
  destruct (run_ops_by_type ops m0 c Hfresh) as [[Hnd Hok] ->].
  rewrite by_type_perm by done. intros Hin.
  by eapply (proj1 (Forall_forall _ _) Hok).
Qed.

Lemma filter_ext_in (P Q : Handler -> Prop)
    `{!forall x, Decision (P x)} `{!forall x, Decision (Q x)} (l : list Handler) :
  (forall y, y ∈ l -> P y <-> Q y) -> filter P l = filter Q l.
Proof.
  induction l as [|y l IH]; intros Hext; [done|].
  rewrite !filter_cons.
  rewrite IH by (intros z Hz; apply Hext, elem_of_cons; auto).
  pose proof (Hext y (proj2 (elem_of_cons _ _ _) (or_introl eq_refl))).
  repeat case_decide; tauto.
Qed.

Lemma filter_none (P : Handler -> Prop) `{!forall x, Decision (P x)} (l : list Handler) :
  (forall y, y ∈ l -> ~ P y) -> filter P l = [].
Proof.
  induction l as [|y l IH]; intros Hno; [done|].
  rewrite filter_cons_False by (apply Hno, elem_of_cons; auto).
  apply IH. intros z Hz. apply Hno, elem_of_cons. auto.
Qed.

Lemma filter_type_by_type t l :
  Forall (fun y => type_ok y = true) l ->
  filter (fun h => h_type h = Some t) (by_type l) = filter (fun h => h_type h = Some t) l.
Proof.
  intros Hok. unfold by_type. rewrite filter_app, !list_filter_filter.
  assert (forall y, y ∈ l -> is_filter y \/ is_listener y) as Hcases.
  { intros y Hy. apply type_ok_cases. by eapply (proj1 (Forall_forall _ _) Hok). }
  unfold is_filter, is_listener in *.
  destruct (decide (t = "filter")) as [->|Hf].
  - rewrite (filter_none (fun x => _ /\ h_type x = Some "listener")) by (intros y _ [? ?]; congruence).
    rewrite app_nil_r. apply filter_ext_in. tauto.
  - rewrite (filter_none (fun x => _ /\ h_type x = Some "filter")) by (intros y _ [? ?]; congruence).
    simpl. apply filter_ext_in. intros y Hy. destruct (Hcases y Hy); split; try tauto.
    intros; split; congruence.
Qed.

(** C7: in every state a registry reaches from its construction by [add]
    and [remove] (and by resolutions, which only create empty lists), in each
    channel list no listener stands before a filter, and the handlers of one
    type stand in the order of their insertion. *)
Theorem registry_order (ops : list RegOp) (m0 : Manager) (c : string) :
  fresh m0 ->
  let l := chan (run_ops ops m0) c in
  (forall i j hi hj,
     l !! i = Some hi -> l !! j = Some hj ->
     is_filter hi -> is_listener hj -> i < j) /\
  (forall t,
     filter (fun h => h_type h = Some t) l =
     filter (fun h => h_type h = Some t) (insertion_order ops c)) /\
  NoDup (insertion_order ops c) /\
  (forall h, h ∈ l <-> h ∈ insertion_order ops c).
Proof.
  intros Hfresh l. destruct (run_ops_by_type ops m0 c Hfresh) as [[Hnd Hok] Hc].
  fold l in Hc. rewrite Hc. split; [|split; [|split]].
  - intros i j hi hj Hi Hj Hfi Hlj. unfold by_type in *.
    set (fs := filter is_filter (insertion_order ops c)) in *.
    set (ls := filter is_listener (insertion_order ops c)) in *.
    assert (Forall is_filter fs) as Hfs by apply Forall_filter_is.
    assert (Forall is_listener ls) as Hls by apply Forall_filter_is.
    destruct (decide (i < length fs)) as [Hlt|Hge].
    + destruct (decide (j < length fs)) as [Hlt'|Hge']; [|lia].
      rewrite lookup_app_l in Hj by done.
      apply list_elem_of_lookup_2 in Hj.
      apply (proj1 (Forall_forall _ _) Hfs) in Hj. by apply filter_not_listener in Hj.
    + rewrite lookup_app_r in Hi by lia.
      apply list_elem_of_lookup_2 in Hi.
      apply (proj1 (Forall_forall _ _) Hls) in Hi. by apply filter_not_listener in Hfi.
  - intros t. by apply filter_type_by_type.
  - done.
  - intros h. by rewrite by_type_perm.
Qed.

(** ** Idempotence of [add], totality of [remove] *)

Lemma reachable_step op m : reachable m -> reachable (run_op op m).
Proof.
  intros (ops & m0 & Hfresh & ->). exists (ops ++ [op]), m0.
  by rewrite run_ops_snoc.
Qed.

Lemma count_occ_nodup (x : Handler) l :
  NoDup l -> x ∈ l -> count_occ Handler_eq_dec l x = 1.
Proof.
  induction 1 as [|y r Hy Hr IH]; [by intros ?%elem_of_nil|].
  intros Hx. simpl. destruct (Handler_eq_dec y x) as [->|Hne].
  - f_equal. apply count_occ_not_In. by rewrite <- list_elem_of_In.
  - apply elem_of_cons in Hx as [?|Hx]; [congruence|]. by apply IH.
Qed.

(** C8: on a registry reached from its construction, [add(h, c)] with a
    validly tagged [h] returns, and a second [add(h, c)] returns and leaves
    the manager as the first left it; channel [c] then lists [h] once. *)
Theorem add_idempotent (m : Manager) (h : Handler) (c : option string) :
  reachable m -> type_ok h = true ->
  let m1 := (add h c m).2 in
  add h c m = (Ok tt, m1) /\
  add h c m1 = (Ok tt, m1) /\
  count_occ Handler_eq_dec (chan m1 (default "*" c)) h = 1.
Proof.
  intros Hreach Hty m1.
  assert (h ∈ chan m1 (default "*" c)) as Hin by by apply elem_of_chan_add.
  split; [|split].
  - unfold m1. by rewrite add_eq.
  - rewrite (add_eq h c m1) by done. do 2 f_equal.
    unfold chan in Hin.
    destruct (m_channels m1 !! default "*" c) as [l|] eqn:E;
      [|by apply elem_of_nil in Hin].
    simpl in *. rewrite bool_decide_eq_true_2 by done.
    rewrite insert_id by done.
    assert ({[h]} ∪ m_handlers m1 = m_handlers m1) as ->.
    { unfold m1. rewrite handlers_add by done. set_solver. }
    by destruct m1.
  - apply count_occ_nodup; [|done].
    apply reachable_nodup. apply (reachable_step (OpAdd h c)). done.
Qed.

(** C9: [remove(h, channel)] returns for every handler and every channel
    argument, on every registry.  Afterwards [h] is not in the handler set,
    which lost nothing else; a list without repetition that the call covers
    (every key when the channel is omitted, the named one otherwise) is the
    old list without [h], and the other lists are as they were. *)
Theorem remove_returns (m : Manager) (h : Handler) (channel : option string) :
  exists m',
    remove h channel m = (Ok tt, m') /\
    (h ∉ m_handlers m') /\
    m_handlers m' = m_handlers m ∖ {[h]} /\
    (forall k, covers channel k = false -> chan m' k = chan m k) /\
    (forall k, covers channel k = true -> NoDup (chan m k) ->
       chan m' k = filter (fun x => x ≠ h) (chan m k) /\ h ∉ chan m' k).
Proof.
  exists (remove h channel m).2. split; [by rewrite remove_eq|].
  rewrite handlers_remove. split; [set_solver|]. split; [done|].
  assert (forall l : list Handler, h ∉ filter (fun x => x ≠ h) l) as Hgone.
  { intros l [? _]%list_elem_of_filter. done. }
  split.
  - intros k Hk. destruct channel as [c|]; [|done]. simpl in Hk.
    rewrite chan_remove_one. apply String.eqb_neq in Hk.
    by rewrite bool_decide_eq_false_2.
  - intros k Hk Hnd. destruct channel as [c|]; simpl in Hk.
    + apply String.eqb_eq in Hk as ->. rewrite chan_remove_one.
      rewrite bool_decide_eq_true_2 by done.
      rewrite discard_list_nodup by done. auto.
    + rewrite chan_remove_all. case_bool_decide as Hstar.
      * subst k. rewrite (discard_list_nodup h (chan m "*")) by done.
        rewrite discard_list_nodup by by apply NoDup_filter.
        rewrite filter_twice. auto.
      * rewrite discard_list_nodup by done. auto.
Qed.

(** ** Empty entries do not show *)

Lemma filter_concat_perm (f : string * list Handler -> bool) l l' :
  l ≡ₚ l' ->
  concat (map snd (List.filter f l)) ≡ₚ concat (map snd (List.filter f l')).
Proof.
  induction 1 as [|x l l' Hp IH|x y l|l l' l'' H1 IH1 H2 IH2]; simpl.
  - done.
  - destruct (f x); simpl; by rewrite IH.
  - destruct (f x), (f y); simpl; try done.
    rewrite !app_assoc. by rewrite (Permutation_app_comm y.2 x.2).
  - by rewrite IH1.
Qed.

Lemma matching_insert p k l chs :
  chs !! k = None ->
  matching p (<[k := l]> chs) ≡ₚ (if p k then l else []) ++ matching p chs.
Proof.
  intros Hk. unfold matching.
  rewrite (filter_concat_perm _ _ _ (map_to_list_insert chs k l Hk)). simpl.
  by destruct (p k).
Qed.


Lemma same_lists_refl m : same_lists m m.
Proof. by split. Qed.

Lemma same_lists_sym m1 m2 : same_lists m1 m2 -> same_lists m2 m1.
Proof. intros [? ?]. by split. Qed.

Lemma same_lists_trans m1 m2 m3 :
  same_lists m1 m2 -> same_lists m2 m3 -> same_lists m1 m3.
Proof. intros [? H1] [? H2]. split; [congruence|]. intros k. by rewrite H1. Qed.

Lemma same_lists_handlers s m : same_lists (handlers s m).2 m.
Proof. split; [apply m_handlers_handlers|]. intros k. apply chan_handlers. Qed.


Lemma handlers_result s m :
  (handlers s m).1 =
    Ok (let '(target, channel) := parse_channel s in
        if bool_decide (target = Some "*") && String.eqb channel "*" then
          elements (m_handlers m)
        else if bool_decide (target = Some "*") then
          chan m "*" ++
          matching (fun k => String.eqb k channel || endswith (":" +:+ channel) k)
                   (vivify "*" (m_channels m))
        else if String.eqb channel "*" then
          chan m "*" ++
          matching (fun k => startswith (fmt target +:+ ":") k || negb (has_colon k))
                   (vivify "*" (m_channels m))
        else chan m "*" ++ chan m (fmt target +:+ ":*") ++ chan m s).
Proof.
  unfold handlers. destruct (parse_channel s) as [target channel].
  unfold bind. rewrite getitem_eq. simpl.
  destruct (bool_decide (target = Some "*")), (String.eqb channel "*"); simpl;
    unfold ret, bind; rewrite ?getitem_eq; simpl; rewrite ?getitem_eq; simpl;
    try done.
  unfold chan. simpl. by rewrite !default_vivify.
Qed.





(** ** Dispatch at a root *)

Section DispatchFacts.

Context {W : Type}.
Variable call : Handler -> Invocation -> W -> Outcome * W.
Implicit Types σ : Sys W.

Lemma obj_eq σ self m : objs σ !! self = Some m -> obj self σ = (Ok m, σ).
Proof. intros H. unfold obj. by rewrite H. Qed.

Lemma event_obj_eq σ event e :
  events σ !! event = Some e -> event_obj event σ = (Ok e, σ).
Proof. intros H. unfold event_obj. by rewrite H. Qed.

Lemma run_of_not_timeout hs calls r : run_of hs calls r -> r ≠ Timeout.
Proof. induction 1; done. Qed.

Lemma dispatch_run self event e hs σ :
  events σ !! event = Some e ->
  exists calls r σ',
    dispatch call self event hs σ = (r, σ') /\
    run_of hs calls r /\
    objs σ' = objs σ /\ events σ' = events σ /\
    log σ' = log σ ++ map (invoked self e) calls.
Proof.
  intros He. revert σ He. induction hs as [|h rest IH]; intros σ He; simpl.
  - exists [], (Ok tt), σ. simpl. rewrite app_nil_r. eauto using run_of.
  - unfold bind at 1. unfold invoke, bind. rewrite event_obj_eq with (e := e) by done.
    destruct (call h (adapt h e) (world σ)) as [[v|] w] eqn:Hcall.
    + destruct (truthy v && bool_decide (h_type h = Some "filter")) eqn:Hstop.
      * eexists [(h, Returned v)], (Ok tt), _. split; [done|].
        split; [by apply run_break|]. done.
      * set (σ1 := set_world w (record (Invoked self h (adapt h e) (Returned v)) σ)).
        destruct (IH σ1) as (calls & r & σ' & Hrun & Hof & Ho & Hev & Hlog); [done|].
        exists ((h, Returned v) :: calls), r, σ'. split; [done|].
        split; [by apply run_next|]. split; [done|]. split; [done|].
        rewrite Hlog. simpl. by rewrite <- app_assoc.
    + eexists [(h, Raised)], (Raise HandlerError), _. split; [done|].
      split; [apply run_raise|]. done.
Qed.


Lemma send_root fuel self event channel target σ m e key :
  objs σ !! self = Some m -> m_manager m = self ->
  events σ !! event = Some e ->
  send_key channel target = Some key ->
  exists hs m',
    handlers key m = (Ok hs, m') /\
    send call (S fuel) self event channel target σ =
      dispatch call self event hs
        {| objs := <[self := m']> (objs σ);
           events := <[event := stamped channel target e]> (events σ);
           world := world σ;
           log := log σ ++ [Dispatched self event key] |}.
Proof.
  intros Hm Hroot He Hkey.
  destruct (handlers_total key m) as (hs & m' & Hh). exists hs, m'.
  split; [done|]. simpl. unfold bind at 1. rewrite (obj_eq _ _ _ Hm).
  rewrite Hroot, Nat.eqb_refl. unfold bind at 1, stamp. rewrite He.
  unfold bind at 1.
  assert ((match target with
           | Some t => ret (t +:+ ":" +:+ fmt channel)
           | None => match channel with
                     | Some c => ret c
                     | None => raise TypeError
                     end
           end : M (Sys W) string) = ret key) as ->.
  { unfold send_key in Hkey. destruct target, channel; by simplify_eq. }
  unfold ret at 1, bind at 1, modify at 1, bind at 1, at_obj. simpl.
  rewrite Hm, Hh. done.
Qed.


(** ** The queue *)

Lemma stamped_id e : stamped (ev_channel e) (ev_target e) e = e.
Proof. by destruct e. Qed.

Lemma pop_nil : pop [] = None.
Proof. done. Qed.

Lemma pop_snoc q x : pop (q ++ [x]) = Some (x, q).
Proof. unfold pop. rewrite rev_app_distr. simpl. by rewrite rev_involutive. Qed.

Lemma dispatched_invoked self e calls :
  dispatched_events (map (invoked self e) calls) = [].
Proof. by induction calls. Qed.

Lemma dispatched_app l1 l2 :
  dispatched_events (l1 ++ l2) = dispatched_events l1 ++ dispatched_events l2.
Proof. apply omap_app. Qed.

Lemma m_manager_handlers s m : m_manager (handlers s m).2 = m_manager m.
Proof. by rewrite handlers_state. Qed.

Lemma m_queue_handlers s m : m_queue (handlers s m).2 = m_queue m.
Proof. by rewrite handlers_state. Qed.

(** One [send] at a root: it returns or raises, the root stays a root with
    its queue, and the log grows by at most this dispatch and its calls. *)
Lemma send_root_effect fuel self event channel target σ :
  is_root σ self ->
  let out := send call (S fuel) self event channel target σ in
  out.1 ≠ Timeout /\
  is_root out.2 self /\
  queue_of out.2 self = queue_of σ self /\
  exists new,
    log out.2 = log σ ++ new /\
    dispatched_events new `prefix_of` [event] /\
    (out.1 = Ok tt -> dispatched_events new = [event]).
Proof.
  intros (m & Hm & Hroot) out.
  destruct (events σ !! event) as [e|] eqn:He; cycle 1.
  { assert (out = (Raise BadReference, σ)) as ->.
    { unfold out. simpl. unfold bind at 1. rewrite (obj_eq _ _ _ Hm).
      rewrite Hroot, Nat.eqb_refl. unfold bind at 1, stamp. by rewrite He. }
    simpl. split; [done|]. split; [by exists m|]. split; [done|].
    exists []. rewrite app_nil_r. split; [done|]. split; [|done].
    apply prefix_nil. }
  destruct (send_key channel target) as [key|] eqn:Hkey; cycle 1.
  { assert (out = (Raise TypeError,
                   set_events (<[event := stamped channel target e]> (events σ)) σ)) as ->.
    { unfold out. simpl. unfold bind at 1. rewrite (obj_eq _ _ _ Hm).
      rewrite Hroot, Nat.eqb_refl. unfold bind at 1, stamp. rewrite He.
      unfold bind at 1. unfold send_key in Hkey. by destruct target, channel. }
    simpl. split; [done|]. split; [by exists m|]. split; [done|].
    exists []. rewrite app_nil_r. split; [done|]. split; [|done].
    apply prefix_nil. }
  destruct (send_root fuel self event channel target σ m e key)
    as (hs & m' & Hh & Hsend); [done..|].
  set (σ1 := {| objs := _ |}) in Hsend.
  destruct (dispatch_run self event (stamped channel target e) hs σ1)
    as (calls & r & σ' & Hrun & Hof & Hobjs & _ & Hlog).
  { simpl. apply list_lookup_insert_eq. by eapply lookup_lt_Some. }
  assert (m' = (handlers key m).2) as Hm' by by rewrite Hh.
  assert (objs σ' !! self = Some m') as Hself.
  { rewrite Hobjs. simpl. apply list_lookup_insert_eq. by eapply lookup_lt_Some. }
  unfold out. rewrite Hsend, Hrun. simpl.
  split; [by eapply run_of_not_timeout|]. split.
  { exists m'. split; [done|]. by rewrite Hm', m_manager_handlers. }
  split.
  { unfold queue_of. rewrite Hself, Hm. simpl. by rewrite Hm', m_queue_handlers. }
  exists (Dispatched self event key :: map (invoked self (stamped channel target e)) calls).
  split; [rewrite Hlog; simpl; by rewrite <- app_assoc|].
  simpl. rewrite dispatched_invoked. done.
Qed.

Lemma dispatch_returns self event e hs σ :
  (forall h inv w, (call h inv w).1 ≠ Raised) ->
  events σ !! event = Some e ->
  (dispatch call self event hs σ).1 = Ok tt.
Proof.
  intros Hcall. revert σ. induction hs as [|h rest IH]; intros σ He; [done|].
  simpl. unfold bind at 1. unfold invoke, bind. rewrite event_obj_eq with (e := e) by done.
  pose proof (Hcall h (adapt h e) (world σ)) as Hno.
  destruct (call h (adapt h e) (world σ)) as [[v|] w]; [|done].
  destruct (truthy v && _); [done|]. by apply IH.
Qed.


Lemma pop_cases q :
  (q = [] /\ pop q = None) \/ (exists q' x, q = q' ++ [x] /\ pop q = Some (x, q')).
Proof.
  destruct q as [|y q] using rev_ind; [by left|].
  right. exists q, y. by rewrite pop_snoc.
Qed.

Lemma drain_step n q x q' e σ
    (f : nat -> option string -> option string -> M (Sys W) unit) :
  pop q = Some (x, q') -> events σ !! x = Some e ->
  drain (S n) q f σ =
    match f x (ev_channel e) (ev_target e) σ with
    | (Ok _, σ1) => drain n q' f σ1
    | (Raise ex, σ1) => (Raise ex, σ1)
    | (Timeout, σ1) => (Timeout, σ1)
    end.
Proof.
  intros Hpop He. simpl. rewrite Hpop. unfold bind at 1.
  by rewrite (event_obj_eq _ _ _ He).
Qed.

Lemma drain_bad_ref n q x q' σ
    (f : nat -> option string -> option string -> M (Sys W) unit) :
  pop q = Some (x, q') -> events σ !! x = None ->
  drain (S n) q f σ = (Raise BadReference, σ).
Proof.
  intros Hpop He. simpl. rewrite Hpop. unfold bind at 1, event_obj. by rewrite He.
Qed.

Lemma drain_empty n σ
    (f : nat -> option string -> option string -> M (Sys W) unit) :
  drain n [] f σ = (Ok tt, σ).
Proof. by destruct n. Qed.

(** The loop of [flush] over the deque it took: the sends go from the right
    end to the left, and stop at the first that raises. *)
Lemma drain_effect fuel self n q σ :
  is_root σ self -> length q <= n ->
  let out := drain n q (send call (S fuel) self) σ in
  out.1 ≠ Timeout /\
  is_root out.2 self /\
  queue_of out.2 self = queue_of σ self /\
  exists new,
    log out.2 = log σ ++ new /\
    dispatched_events new `prefix_of` rev q /\
    (out.1 = Ok tt -> dispatched_events new = rev q).
Proof.
  revert q σ. induction n as [|n IH]; intros q σ Hroot Hlen out.
  - destruct q; [|simpl in Hlen; lia]. unfold out. rewrite drain_empty. simpl.
    split; [done|]. split; [done|]. split; [done|].
    exists []. by rewrite app_nil_r.
  - destruct (pop_cases q) as [[-> Hpop]|(q' & x & -> & Hpop)].
    + unfold out. rewrite drain_empty. simpl.
      split; [done|]. split; [done|]. split; [done|].
      exists []. by rewrite app_nil_r.
    + rewrite length_app in Hlen. simpl in Hlen.
      rewrite rev_app_distr. change (rev [x] ++ rev q') with (x :: rev q').
      destruct (events σ !! x) as [e|] eqn:He; cycle 1.
      { unfold out. rewrite (drain_bad_ref _ _ _ _ _ _ Hpop He). simpl.
        split; [done|]. split; [done|]. split; [done|].
        exists []. rewrite app_nil_r. split; [done|]. split; [|done].
        apply prefix_nil. }
      unfold out. rewrite (drain_step _ _ _ _ _ _ _ Hpop He).
      pose proof (send_root_effect fuel self x (ev_channel e) (ev_target e) σ Hroot)
        as (Hto & Hroot1 & Hq1 & new1 & Hlog1 & Hpre1 & Hok1).
      destruct (send call (S fuel) self x (ev_channel e) (ev_target e) σ)
        as [r1 σ1] eqn:Hsend. simpl in Hto, Hroot1, Hq1, Hlog1, Hok1.
      destruct r1 as [[]|ex|]; [|simpl|done].
      * specialize (IH q' σ1 Hroot1 ltac:(lia)) as (Hto2 & Hroot2 & Hq2 & new2 & Hlog2 & Hpre2 & Hok2).
        split; [done|]. split; [done|]. split; [congruence|].
        exists (new1 ++ new2). rewrite Hlog2, Hlog1, <- app_assoc.
        split; [done|]. rewrite dispatched_app, Hok1 by done.
        split; [by apply prefix_cons|]. intros Hok. simpl. by rewrite Hok2.
      * split; [done|]. split; [done|]. split; [done|].
        exists new1. split; [done|]. split; [|done].
        etrans; [done|]. by apply prefix_cons, prefix_nil.
Qed.


Lemma flush_root fuel self σ m :
  objs σ !! self = Some m -> m_manager m = self ->
  flush call (S fuel) self σ =
    drain (length (m_queue m)) (m_queue m) (send call (S fuel) self)
      (set_objs (<[self := set_queue [] m]> (objs σ)) σ).
Proof.
  intros Hm Hroot. simpl. unfold bind at 1. rewrite (obj_eq _ _ _ Hm).
  rewrite Hroot, Nat.eqb_refl. unfold bind at 1, at_obj. by rewrite Hm.
Qed.

Lemma push_root fuel self event channel target σ m e :
  objs σ !! self = Some m -> m_manager m = self ->
  events σ !! event = Some e ->
  push (S fuel) self event channel target σ =
    (Ok tt,
     {| objs := <[self := set_queue (m_queue m ++ [event]) m]> (objs σ);
        events := <[event := stamped channel target e]> (events σ);
        world := world σ; log := log σ |}).
Proof.
  intros Hm Hroot He. simpl. unfold bind at 1. rewrite (obj_eq _ _ _ Hm).
  rewrite Hroot, Nat.eqb_refl. unfold bind at 1, stamp. rewrite He.
  unfold at_obj. simpl. by rewrite Hm.
Qed.

Lemma for_each_cons {S A} (x : A) (r : list A) (body : A -> M S unit) (s : S) :
  for_each (x :: r) body s =
    match body x s with
    | (Ok _, s1) => for_each r body s1
    | (Raise ex, s1) => (Raise ex, s1)
    | (Timeout, s1) => (Timeout, s1)
    end.
Proof. done. Qed.



End DispatchFacts.

(** ** The [manager] references *)

Lemma root_of_mono ps n n' i r :
  root_of ps n i = Some r -> n <= n' -> root_of ps n' i = Some r.
Proof.
  revert n' i. induction n as [|n IH]; intros n' i Hr Hle; [done|].
  destruct n' as [|n']; [lia|]. simpl in *.
  destruct (ps !! i) as [p|]; [|done].
  destruct (Nat.eqb p i); [done|]. apply IH; [done|lia].
Qed.

Lemma root_of_unique ps n n' i r r' :
  root_of ps n i = Some r -> root_of ps n' i = Some r' -> r = r'.
Proof.
  intros H1 H2.
  apply (root_of_mono _ _ (n + n')) in H1; [|lia].
  apply (root_of_mono _ _ (n + n')) in H2; [|lia]. congruence.
Qed.

Lemma root_of_is_root ps n i r : root_of ps n i = Some r -> ps !! r = Some r.
Proof.
  revert i. induction n as [|n IH]; intros i; simpl; [done|].
  destruct (ps !! i) as [p|] eqn:E; [|done].
  destruct (Nat.eqb_spec p i) as [->|Hne]; [|by apply IH].
  by intros [= <-].
Qed.

Lemma root_of_app ps ps' n i r :
  root_of ps n i = Some r -> root_of (ps ++ ps') n i = Some r.
Proof.
  revert i. induction n as [|n IH]; intros i; simpl; [done|].
  destruct (ps !! i) as [p|] eqn:E; [|done].
  rewrite (lookup_app_l_Some _ _ _ _ E).
  destruct (Nat.eqb p i); [done|]. apply IH.
Qed.

Lemma rooted_new ps : rooted ps -> rooted (ps ++ [length ps]).
Proof.
  intros Hps i Hi. rewrite length_app in Hi. simpl in Hi.
  destruct (decide (i < length ps)) as [Hlt|Hge].
  - destruct (Hps i Hlt) as (n & r & Hr). exists n, r. by apply root_of_app.
  - assert (i = length ps) as -> by lia. exists 1, (length ps). simpl.
    rewrite lookup_app_r by lia. rewrite Nat.sub_diag. simpl.
    by rewrite Nat.eqb_refl.
Qed.

Lemma root_of_off_chain ps n i r c m :
  root_of ps n i = Some r -> c ∉ chain ps n i ->
  root_of (<[c := m]> ps) n i = Some r.
Proof.
  revert i. induction n as [|n IH]; intros i; simpl; [done|].
  intros Hr [Hne Hc]%not_elem_of_cons.
  rewrite list_lookup_insert_ne by done.
  destruct (ps !! i) as [p|]; [|done].
  destruct (Nat.eqb p i); [done|]. by apply IH.
Qed.

Lemma root_of_redirect ps n i r c m nm rm :
  root_of (<[c := m]> ps) nm m = Some rm ->
  root_of ps n i = Some r ->
  exists n' r', root_of (<[c := m]> ps) n' i = Some r'.
Proof.
  intros Hm. revert i. induction n as [|n IH]; intros i; simpl; [done|].
  destruct (ps !! i) as [p|] eqn:E; [|done].
  destruct (decide (i = c)) as [->|Hne].
  - intros _. destruct (decide (m = c)) as [->|Hmc].
    + exists 1, c. simpl. rewrite list_lookup_insert_eq by by eapply lookup_lt_Some.
      by rewrite Nat.eqb_refl.
    + exists (S nm), rm. simpl.
      rewrite list_lookup_insert_eq by by eapply lookup_lt_Some.
      by rewrite (proj2 (Nat.eqb_neq m c) Hmc).
  - destruct (Nat.eqb_spec p i) as [->|Hpi].
    + intros _. exists 1, i. simpl. rewrite list_lookup_insert_ne by done.
      by rewrite E, Nat.eqb_refl.
    + intros (n' & r' & Hr')%IH. exists (S n'), r'. simpl.
      rewrite list_lookup_insert_ne by done.
      by rewrite E, (proj2 (Nat.eqb_neq p i) Hpi).
Qed.

Lemma rooted_self ps c : rooted ps -> rooted (<[c := c]> ps).
Proof.
  intros Hps i Hi. rewrite length_insert in Hi.
  destruct (Hps i Hi) as (n & r & Hr).
  destruct (decide (c < length ps)) as [Hc|Hc].
  - eapply (root_of_redirect ps n i r c c 1 c); [|done]. simpl.
    rewrite list_lookup_insert_eq by done. by rewrite Nat.eqb_refl.
  - rewrite list_insert_ge by lia. eauto.
Qed.

Lemma rooted_register ps c m n r :
  rooted ps -> root_of ps n m = Some r -> c ∉ chain ps n m ->
  rooted (<[c := m]> ps).
Proof.
  intros Hps Hm Hc i Hi. rewrite length_insert in Hi.
  destruct (Hps i Hi) as (n' & r' & Hr').
  eapply root_of_redirect; [|done]. by apply root_of_off_chain.
Qed.

Lemma ancestor_root ps k r : ps !! r = Some r -> ancestor ps k r = Some r.
Proof. intros Hr. induction k as [|k IH]; simpl; [done|]. by rewrite Hr. Qed.

Lemma ancestor_shift ps k i p :
  ps !! i = Some p -> ancestor ps (S k) i = Some i -> ancestor ps (S k) p = Some p.
Proof.
  intros Hp. simpl. rewrite Hp.
  assert (forall j a b, ancestor ps j a = Some b ->
            ancestor ps (S j) a = match ps !! b with Some q => Some q | None => None end)
    as Hstep.
  { induction j as [|j IH]; intros a b; simpl.
    - intros [= ->]. by destruct (ps !! b).
    - destruct (ps !! a) as [q|]; [|done]. intros Hj. by rewrite <- (IH q b Hj). }
  intros Hk. pose proof (Hstep k p i Hk) as Hnext. rewrite Hp in Hnext. done.
Qed.

Lemma rooted_acyclic ps : rooted ps -> acyclic ps.
Proof.
  intros Hps i k Hcyc.
  assert (i < length ps) as Hi.
  { simpl in Hcyc. destruct (ps !! i) eqn:E; [|done]. by eapply lookup_lt_Some. }
  destruct (Hps i Hi) as (n & r & Hr). clear Hi.
  revert i Hr Hcyc. induction n as [|n IH]; intros i; cbn [root_of]; [done|].
  destruct (ps !! i) as [p|] eqn:E; [|done].
  destruct (Nat.eqb_spec p i) as [->|Hne]; [done|].
  intros Hr Hcyc. exfalso.
  pose proof (ancestor_shift ps k i p E Hcyc) as Hp.
  pose proof (IH p Hr Hp) as Hroot.
  simpl in Hcyc. rewrite E in Hcyc.
  rewrite (ancestor_root ps k p Hroot) in Hcyc. congruence.
Qed.

(** ** What the methods leave of the store *)

Section TreeFacts.

Context {W : Type}.
Variable call : Handler -> Invocation -> W -> Outcome * W.
Implicit Types σ : Sys W.

Lemma same_shape_refl m : same_shape m m.
Proof. by repeat split. Qed.

Lemma same_shape_trans m1 m2 m3 :
  same_shape m1 m2 -> same_shape m2 m3 -> same_shape m1 m3.
Proof. unfold same_shape. intros (?&?&?&?&?) (?&?&?&?&?). repeat split; congruence. Qed.

Lemma same_object_refl m : same_object m m.
Proof. split; [apply same_shape_refl|apply same_lists_refl]. Qed.

Lemma same_object_trans m1 m2 m3 :
  same_object m1 m2 -> same_object m2 m3 -> same_object m1 m3.
Proof.
  intros [H1 L1] [H2 L2]. split; [by eapply same_shape_trans|].
  by eapply same_lists_trans.
Qed.

Lemma Forall2_refl_on {A} (R : A -> A -> Prop) (l : list A) :
  (forall x, R x x) -> Forall2 R l l.
Proof. intros HR. induction l; by constructor. Qed.

Lemma Forall2_trans_on {A} (R : A -> A -> Prop) (l1 l2 l3 : list A) :
  (forall x y z, R x y -> R y z -> R x z) ->
  Forall2 R l1 l2 -> Forall2 R l2 l3 -> Forall2 R l1 l3.
Proof.
  intros HR H12. revert l3. induction H12 as [|x y l1 l2 Hxy H12 IH]; intros l3 H23.
  - by inversion H23.
  - inversion H23 as [|y' z l2' l3' Hyz H23']; subst. constructor; eauto.
Qed.

Lemma Forall2_insert_on {A} (R : A -> A -> Prop) (l : list A) i x y :
  (forall x, R x x) -> l !! i = Some x -> R x y -> Forall2 R l (<[i := y]> l).
Proof.
  intros HR. revert i. induction l as [|z l IH]; intros i Hi Hxy; [done|].
  destruct i as [|i]; simpl in *.
  - simplify_eq. constructor; [done|]. by apply Forall2_refl_on.
  - constructor; [done|]. by apply IH.
Qed.

Lemma same_shapes_parents (os os' : list Manager) :
  Forall2 same_shape os os' -> m_manager <$> os' = m_manager <$> os.
Proof.
  induction 1 as [|m m' os os' (Hm & _) _ IH]; [done|].
  rewrite !fmap_cons. by rewrite Hm, IH.
Qed.

Lemma same_objects_shapes (os os' : list Manager) :
  Forall2 same_object os os' -> Forall2 same_shape os os'.
Proof. induction 1 as [|m m' os os' [? _] _ IH]; by constructor. Qed.

Lemma same_shape_add h ch m : same_shape m (add h ch m).2.
Proof.
  destruct (type_ok h) eqn:Hty.
  - rewrite add_eq by done. by repeat split.
  - rewrite add_invalid by done. apply same_shape_refl.
Qed.

Lemma same_shape_remove h ch m : same_shape m (remove h ch m).2.
Proof. rewrite remove_eq. by repeat split. Qed.

Lemma same_object_handlers s m : same_object m (handlers s m).2.
Proof.
  split; [|apply same_lists_handlers]. rewrite handlers_state. by repeat split.
Qed.

(** A method of the object at [i] that keeps its shape keeps all shapes. *)
Lemma at_obj_shapes {A} i (c : M Manager A) σ :
  (forall m, same_shape m (c m).2) ->
  Forall2 same_shape (objs σ) (objs (at_obj i c σ).2).
Proof.
  intros Hc. unfold at_obj. destruct (objs σ !! i) as [m|] eqn:E.
  - specialize (Hc m). destruct (c m) as [r m']. simpl in *.
    eapply Forall2_insert_on; [apply same_shape_refl|done..].
  - simpl. apply Forall2_refl_on, same_shape_refl.
Qed.

Lemma for_each_inv {S A} (P : S -> Prop) (xs : list A) (body : A -> M S unit) s :
  (forall x s, P s -> P (body x s).2) -> P s -> P (for_each xs body s).2.
Proof.
  intros Hbody. revert s. induction xs as [|x xs IH]; intros s Hs; [done|].
  rewrite for_each_cons. specialize (Hbody x s Hs).
  destruct (body x s) as [[[]|ex|] s1]; simpl in *; auto.
Qed.

Lemma dispatch_objs self event hs σ :
  objs (dispatch call self event hs σ).2 = objs σ.
Proof.
  revert σ. induction hs as [|h rest IH]; intros σ; [done|].
  simpl. unfold bind at 1. unfold invoke, bind, event_obj.
  destruct (events σ !! event) as [e|]; [|done].
  destruct (call h (adapt h e) (world σ)) as [[v|] w]; [|done].
  destruct (truthy v && _); [done|]. by rewrite IH.
Qed.

(** [send] changes no object but for the empty lists resolution leaves. *)
Lemma send_objects fuel self event channel target σ :
  Forall2 same_object (objs σ) (objs (send call fuel self event channel target σ).2).
Proof.
  assert (Forall2 same_object (objs σ) (objs σ)) as Hrefl
    by apply Forall2_refl_on, same_object_refl.
  revert self. induction fuel as [|fuel IH]; intros self; [done|].
  destruct (objs σ !! self) as [m|] eqn:Hm; cycle 1.
  { simpl. unfold bind at 1, obj. by rewrite Hm. }
  destruct (Nat.eqb_spec (m_manager m) self) as [Hroot|Hne]; cycle 1.
  { simpl. unfold bind at 1. rewrite (obj_eq _ _ _ Hm).
    rewrite (proj2 (Nat.eqb_neq _ _) Hne). apply IH. }
  destruct (events σ !! event) as [e|] eqn:He; cycle 1.
  { simpl. unfold bind at 1. rewrite (obj_eq _ _ _ Hm).
    rewrite Hroot, Nat.eqb_refl. unfold bind at 1, stamp. by rewrite He. }
  destruct (send_key channel target) as [key|] eqn:Hkey; cycle 1.
  { simpl. unfold bind at 1. rewrite (obj_eq _ _ _ Hm).
    rewrite Hroot, Nat.eqb_refl. unfold bind at 1, stamp. rewrite He.
    unfold bind at 1. unfold send_key in Hkey. by destruct target, channel. }
  destruct (send_root call fuel self event channel target σ m e key)
    as (hs & m' & Hh & ->); [done..|].
  rewrite dispatch_objs. simpl.
  eapply Forall2_insert_on; [apply same_object_refl|done|].
  replace m' with (handlers key m).2 by by rewrite Hh.
  apply same_object_handlers.
Qed.

Lemma send_parents fuel self event channel target σ :
  parents (send call fuel self event channel target σ).2 = parents σ.
Proof. apply same_shapes_parents, same_objects_shapes, send_objects. Qed.

Lemma parents_set_manager σ c m r :
  objs σ !! c = Some m ->
  (m_manager <$> <[c := set_manager r m]> (objs σ)) = <[c := r]> (parents σ).
Proof. intros Hc. unfold parents. by rewrite list_fmap_insert. Qed.

Lemma shapes_lookup (os os' : list Manager) i m :
  Forall2 same_shape os os' -> os !! i = Some m ->
  exists m', os' !! i = Some m' /\ same_shape m m'.
Proof. intros H Hi. by eapply Forall2_lookup_l. Qed.

(** The loop of [register] and the dispatch of [Registered] keep all shapes. *)
Lemma register_adds_shapes (manager : nat) (prefix : option string)
    (hs : list Handler) σ :
  Forall2 same_shape (objs σ)
    (objs (for_each hs (fun handler =>
             for_each (declared handler) (fun channel =>
               at_obj manager (add handler (Some (qualified prefix channel))))) σ).2).
Proof.
  apply (for_each_inv (fun s => Forall2 same_shape (objs σ) (objs s)));
    [|apply Forall2_refl_on, same_shape_refl].
  intros h s Hs.
  apply (for_each_inv (fun s => Forall2 same_shape (objs σ) (objs s))); [|done].
  intros ch s' Hs'. eapply Forall2_trans_on; [apply same_shape_trans|done|].
  apply at_obj_shapes. intros m. apply same_shape_add.
Qed.

Lemma register_parents fuel c manager σ r σ' :
  register call fuel c manager σ = (r, σ') ->
  (r = Ok tt /\ parents σ' = <[c := manager]> (parents σ)) \/
  (r ≠ Ok tt /\ parents σ' = parents σ).
Proof.
  unfold register. unfold bind at 1, obj.
  destruct (objs σ !! c) as [oc|] eqn:Hc; [|intros [= <- <-]; by right].
  destruct (m_kind oc); [intros [= <- <-]; by right|].
  unfold bind at 1.
  pose proof (register_adds_shapes manager (c_channel oc)
    (List.filter (fun x => bool_decide (is_Some (h_type x))) (c_members oc)) σ) as Hloop.
  destruct (for_each _ _ σ) as [r1 σ1]. simpl in Hloop.
  assert (parents σ1 = parents σ) as Hp1 by by apply same_shapes_parents.
  destruct r1 as [[]|ex|]; [|intros [= <- <-]; by right..].
  unfold bind at 1.
  assert (exists r2 σ2,
    (if negb (manager =? c)%nat
     then let* ev := new_event (Event_new "Registered" [] []) in
          send call fuel manager ev (Some "registered") (c_channel oc)
     else ret tt) σ1 = (r2, σ2) /\ Forall2 same_shape (objs σ1) (objs σ2))
    as (r2 & σ2 & -> & Hs2).
  { destruct (negb _).
    - unfold bind, new_event.
      pose proof (send_objects fuel manager (length (events σ1)) (Some "registered")
               (c_channel oc) (set_events (events σ1 ++ [Event_new "Registered" [] []]) σ1))
        as Hsend.
      destruct (send _ _ _ _ _ _ _) as [r2 σ2]. exists r2, σ2. split; [done|].
      by apply same_objects_shapes.
    - eexists _, _. split; [done|]. apply Forall2_refl_on, same_shape_refl. }
  assert (parents σ2 = parents σ) as Hp2.
  { rewrite <- Hp1. by apply same_shapes_parents. }
  destruct r2 as [[]|ex|]; [|intros [= <- <-]; by right..].
  destruct (shapes_lookup _ _ c oc Hloop Hc) as (oc1 & Hc1 & _).
  destruct (shapes_lookup _ _ c oc1 Hs2 Hc1) as (oc2 & Hc2 & _).
  unfold at_obj. rewrite Hc2. simpl. intros [= <- <-]. left. split; [done|].
  unfold parents at 1. simpl. rewrite (parents_set_manager σ2 c oc2 manager Hc2).
  by rewrite Hp2.
Qed.

Lemma unregister_parents c σ r σ' :
  unregister c σ = (r, σ') ->
  (r = Ok tt /\ parents σ' = <[c := c]> (parents σ)) \/
  (r ≠ Ok tt /\ parents σ' = parents σ).
Proof.
  unfold unregister. unfold bind at 1, obj.
  destruct (objs σ !! c) as [oc|] eqn:Hc; [|intros [= <- <-]; by right].
  destruct (m_kind oc); [intros [= <- <-]; by right|].
  unfold bind at 1.
  assert (Forall2 same_shape (objs σ)
            (objs (for_each (elements (m_handlers oc))
                     (fun handler => at_obj (m_manager oc) (remove handler None)) σ).2))
    as Hloop.
  { apply (for_each_inv (fun s => Forall2 same_shape (objs σ) (objs s)));
      [|apply Forall2_refl_on, same_shape_refl].
    intros h s Hs. eapply Forall2_trans_on; [apply same_shape_trans|done|].
    apply at_obj_shapes. intros m. apply same_shape_remove. }
  destruct (for_each _ _ σ) as [r1 σ1]. simpl in Hloop.
  assert (parents σ1 = parents σ) as Hp1 by by apply same_shapes_parents.
  destruct r1 as [[]|ex|]; [|intros [= <- <-]; by right..].
  destruct (shapes_lookup _ _ c oc Hloop Hc) as (oc1 & Hc1 & _).
  unfold at_obj. rewrite Hc1. simpl. intros [= <- <-]. left. split; [done|].
  unfold parents at 1. simpl. rewrite (parents_set_manager σ1 c oc1 c Hc1).
  by rewrite Hp1.
Qed.

Lemma new_manager_parents σ :
  parents (new_manager σ).2 = parents σ ++ [length (parents σ)].
Proof.
  unfold new_manager, parents. simpl. rewrite fmap_app. simpl.
  by rewrite length_fmap.
Qed.

Lemma new_component_parents fuel channel members σ :
  parents (new_component call fuel channel members σ).2 =
    parents σ ++ [length (parents σ)].
Proof.
  unfold new_component.
  set (self := length (objs σ)). set (c := {| m_queue := [] |}).
  set (σ0 := set_objs (objs σ ++ [c]) σ).
  assert (parents σ0 = parents σ ++ [length (parents σ)]) as H0.
  { unfold parents. simpl. rewrite fmap_app. simpl. by rewrite length_fmap. }
  unfold bind.
  destruct (register call fuel self self σ0) as [r σ1] eqn:Hreg.
  apply register_parents in Hreg.
  assert (parents σ1 = parents σ0) as H1.
  { destruct Hreg as [[_ ->]|[_ ->]]; [|done].
    apply list_insert_id. rewrite H0. unfold self.
    rewrite lookup_app_r by (unfold parents; rewrite length_fmap; lia).
    unfold parents. rewrite length_fmap, Nat.sub_diag. done. }
  destruct r as [[]|ex|]; simpl; by rewrite H1.
Qed.

Lemma tree_op_parents fuel op σ :
  let ps := parents (run_tree_op call fuel op σ).2 in
  match op with
  | TManager | TComponent _ _ => ps = parents σ ++ [length (parents σ)]
  | TRegister c manager => ps = <[c := manager]> (parents σ) \/ ps = parents σ
  | TUnregister c => ps = <[c := c]> (parents σ) \/ ps = parents σ
  end.
Proof.
  destruct op as [|channel members|c manager|c]; cbn [run_tree_op].
  - apply new_manager_parents.
  - pose proof (new_component_parents fuel channel members σ) as Hp.
    unfold bind. destruct (new_component call fuel channel members σ) as [[?|?|] σ1];
      exact Hp.
  - destruct (register call fuel c manager σ) as [r σ1] eqn:Hreg. cbn [snd].
    destruct (register_parents _ _ _ _ _ _ Hreg) as [[_ ->]|[_ ->]]; auto.
  - destruct (unregister c σ) as [r σ1] eqn:Hunreg. cbn [snd].
    destruct (unregister_parents _ _ _ _ Hunreg) as [[_ ->]|[_ ->]]; auto.
Qed.

(** Every configuration built with [register] kept off the chains is rooted. *)
Lemma reach_rooted σ : reach_by call off_chain σ -> rooted (parents σ).
Proof.
  induction 1 as [σ Hempty|σ fuel op Hreach IH Hok Hto].
  - unfold parents. rewrite Hempty. intros i Hi. simpl in Hi. lia.
  - pose proof (tree_op_parents fuel op σ) as Hp.
    destruct op as [|channel members|c manager|c]; cbv zeta in Hp.
    + rewrite Hp. by apply rooted_new.
    + rewrite Hp. by apply rooted_new.
    + destruct Hp as [-> | ->]; [|done].
      destruct Hok as [->|(n & r & Hr & Hc)].
      * by apply rooted_self.
      * by eapply rooted_register.
    + destruct Hp as [-> | ->]; [|done]. by apply rooted_self.
Qed.

(** ** Delegation *)

Lemma parents_lookup σ i p :
  parents σ !! i = Some p <-> exists m, objs σ !! i = Some m /\ m_manager m = p.
Proof.
  unfold parents. rewrite list_lookup_fmap.
  destruct (objs σ !! i) as [m|]; simpl.
  - split; [intros [= <-]; eauto|]. by intros (m' & [= <-] & <-).
  - split; [done|]. by intros (m' & ? & _).
Qed.

Lemma root_is_root σ n i r : root_of (parents σ) n i = Some r -> is_root σ r.
Proof. intros Hr%root_of_is_root. by apply parents_lookup in Hr. Qed.

Lemma push_delegates σ n i r fuel event channel target :
  root_of (parents σ) n i = Some r -> n <= fuel ->
  push fuel i event channel target σ = push 1 r event channel target σ.
Proof.
  revert i fuel. induction n as [|n IH]; intros i fuel; cbn [root_of]; [done|].
  destruct (parents σ !! i) as [p|] eqn:Hp; [|done].
  apply parents_lookup in Hp as (m & Hm & <-).
  intros Hr Hle. destruct fuel as [|fuel]; [lia|].
  destruct (Nat.eqb_spec (m_manager m) i) as [Hroot|Hne].
  - injection Hr as <-. simpl. unfold bind at 1. rewrite (obj_eq _ _ _ Hm).
    rewrite Hroot, Nat.eqb_refl. symmetry.
    unfold bind at 1. rewrite (obj_eq _ _ _ Hm). by rewrite Hroot, Nat.eqb_refl.
  - rewrite <- (IH (m_manager m) fuel Hr) by lia.
    simpl. unfold bind at 1. rewrite (obj_eq _ _ _ Hm).
    by rewrite (proj2 (Nat.eqb_neq _ _) Hne).
Qed.

Lemma send_delegates σ n i r fuel event channel target :
  root_of (parents σ) n i = Some r -> n <= fuel ->
  send call fuel i event channel target σ = send call 1 r event channel target σ.
Proof.
  revert i fuel. induction n as [|n IH]; intros i fuel; cbn [root_of]; [done|].
  destruct (parents σ !! i) as [p|] eqn:Hp; [|done].
  apply parents_lookup in Hp as (m & Hm & <-).
  intros Hr Hle. destruct fuel as [|fuel]; [lia|].
  destruct (Nat.eqb_spec (m_manager m) i) as [Hroot|Hne].
  - injection Hr as <-. simpl. unfold bind at 1. rewrite (obj_eq _ _ _ Hm).
    rewrite Hroot, Nat.eqb_refl. symmetry.
    unfold bind at 1. rewrite (obj_eq _ _ _ Hm). by rewrite Hroot, Nat.eqb_refl.
  - rewrite <- (IH (m_manager m) fuel Hr) by lia.
    simpl. unfold bind at 1. rewrite (obj_eq _ _ _ Hm).
    by rewrite (proj2 (Nat.eqb_neq _ _) Hne).
Qed.

Lemma flush_delegates σ n i r fuel :
  root_of (parents σ) n i = Some r -> n <= fuel ->
  exists k, flush call fuel i σ = flush call (S k) r σ.
Proof.
  revert i fuel. induction n as [|n IH]; intros i fuel; cbn [root_of]; [done|].
  destruct (parents σ !! i) as [p|] eqn:Hp; [|done].
  apply parents_lookup in Hp as (m & Hm & <-).
  intros Hr Hle. destruct fuel as [|fuel]; [lia|].
  destruct (Nat.eqb_spec (m_manager m) i) as [Hroot|Hne].
  - injection Hr as <-. by exists fuel.
  - destruct (IH (m_manager m) fuel Hr) as [k Hk]; [lia|]. exists k.
    rewrite <- Hk. simpl. unfold bind at 1. rewrite (obj_eq _ _ _ Hm).
    by rewrite (proj2 (Nat.eqb_neq _ _) Hne).
Qed.

Lemma push_root_effect fuel r event channel target σ :
  is_root σ r ->
  (push (S fuel) r event channel target σ).1 ≠ Timeout /\
  (forall j, j ≠ r -> objs (push (S fuel) r event channel target σ).2 !! j = objs σ !! j).
Proof.
  intros (m & Hm & Hroot). destruct (events σ !! event) as [e|] eqn:He.
  - rewrite (push_root fuel r event channel target σ m e Hm Hroot He). simpl.
    split; [done|]. intros j Hj. by rewrite list_lookup_insert_ne.
  - assert (push (S fuel) r event channel target σ = (Raise BadReference, σ)) as ->.
    { simpl. unfold bind at 1. rewrite (obj_eq _ _ _ Hm).
      rewrite Hroot, Nat.eqb_refl. unfold bind, stamp. by rewrite He. }
    done.
Qed.

Lemma flush_root_effect fuel r σ :
  is_root σ r -> (flush call (S fuel) r σ).1 ≠ Timeout.
Proof.
  intros (m & Hm & Hroot). rewrite (flush_root call fuel r σ m Hm Hroot).
  apply drain_effect; [|done]. exists (set_queue [] m). split; [|done].
  simpl. apply list_lookup_insert_eq. by eapply lookup_lt_Some.
Qed.

(** C4, amended: in the configurations built from construction,
    [unregister] and a [register] whose target is the component itself or a
    manager whose chain does not pass the component, the only way back to
    an object is the self-reference of a root; from every object the chain
    ends at one root, and [push], [send] and [flush] called on the object
    come to an end and do what they do when called on that root, whose queue
    is the only one [push] writes. *)
Theorem delegation_ends_at_root (σ : Sys W) (self : nat) :
  reach_by call off_chain σ -> self < length (objs σ) ->
  acyclic (parents σ) /\
  exists r n,
    root_of (parents σ) n self = Some r /\ is_root σ r /\
    (forall n' r', root_of (parents σ) n' self = Some r' -> r' = r) /\
    forall fuel event channel target, n <= fuel ->
      push fuel self event channel target σ = push 1 r event channel target σ /\
      (push fuel self event channel target σ).1 ≠ Timeout /\
      (forall j, j ≠ r ->
         objs (push fuel self event channel target σ).2 !! j = objs σ !! j) /\
      send call fuel self event channel target σ =
        send call 1 r event channel target σ /\
      (send call fuel self event channel target σ).1 ≠ Timeout /\
      (exists k, flush call fuel self σ = flush call (S k) r σ) /\
      (flush call fuel self σ).1 ≠ Timeout.
Proof.
  intros Hreach Hself. pose proof (reach_rooted σ Hreach) as Hrooted.
  split; [by apply rooted_acyclic|].
  destruct (Hrooted self) as (n & r & Hr).
  { unfold parents. by rewrite length_fmap. }
  pose proof (root_is_root σ n self r Hr) as Hroot.
  exists r, n. split; [done|]. split; [done|]. split.
  { intros n' r' Hr'. by eapply root_of_unique. }
  intros fuel event channel target Hle.
  rewrite (push_delegates σ n self r fuel event channel target Hr Hle).
  rewrite (send_delegates σ n self r fuel event channel target Hr Hle).
  destruct (flush_delegates σ n self r fuel Hr Hle) as [k Hk]. rewrite Hk.
  destruct (push_root_effect 0 r event channel target σ Hroot) as [Hto Hframe].
  split; [done|]. split; [done|]. split; [done|]. split; [done|].
  split; [by apply (send_root_effect call 0 r event channel target σ Hroot)|].
  split; [by exists k|]. by apply flush_root_effect.
Qed.

End TreeFacts.

Lemma push_cycle {W} (σ : Sys W) a b ma mb :
  objs σ !! a = Some ma -> m_manager ma = b ->
  objs σ !! b = Some mb -> m_manager mb = a -> a ≠ b ->
  forall fuel event channel target,
    push fuel a event channel target σ = (Timeout, σ) /\
    push fuel b event channel target σ = (Timeout, σ).
Proof.
  intros Ha Hab Hb Hba Hne fuel event channel target.
  induction fuel as [|fuel [IHa IHb]]; [done|]. simpl. unfold bind.
  rewrite (obj_eq _ _ _ Ha), (obj_eq _ _ _ Hb), Hab, Hba.
  rewrite (proj2 (Nat.eqb_neq b a)) by done.
  rewrite (proj2 (Nat.eqb_neq a b)) by done. done.
Qed.

Lemma root_of_cycle n i : i < 2 -> root_of [1; 0] n i = None.
Proof.
  revert i. induction n as [|n IH]; intros i Hi; [done|].
  destruct i as [|[|i]]; simpl; [apply IH; lia..|lia].
Qed.

(** C4 as stated fails: two components registered on each other refer to
    each other, neither is a root, and [push] on either one never ends. *)
Lemma register_makes_cycle :
  let σ := run_tree call_none 2 cycle_ops empty_sys in
  reach_by call_none any_op σ /\
  parents σ = [1; 0] /\
  ~ rooted (parents σ) /\
  ~ acyclic (parents σ) /\
  forall fuel event channel target,
    (push fuel 0 event channel target σ).1 = Timeout.
Proof.
  intros σ.
  assert (parents σ = [1; 0]) as Hp by (vm_compute; reflexivity).
  split; [|split; [done|split; [|split]]].
  - unfold σ, run_tree, cycle_ops. cbn [fold_left].
    do 4 (apply reach_step; [|done|by vm_compute]).
    by apply reach_empty.
  - rewrite Hp. intros Hrooted. destruct (Hrooted 0) as (n & r & Hr); [simpl; lia|].
    rewrite root_of_cycle in Hr by lia. done.
  - rewrite Hp. intros Hacyc. specialize (Hacyc 0 1 eq_refl). done.
  - intros fuel event channel target.
    assert (parents σ !! 0 = Some 1) as H0 by by rewrite Hp.
    assert (parents σ !! 1 = Some 0) as H1 by by rewrite Hp.
    apply parents_lookup in H0 as (m0 & Hm0 & Hp0).
    apply parents_lookup in H1 as (m1 & Hm1 & Hp1).
    by rewrite (proj1 (push_cycle σ 0 1 m0 m1 Hm0 Hp0 Hm1 Hp1 ltac:(done)
                         fuel event channel target)).
Qed.

(** ** Components *)

Section ComponentFacts.

Context {W : Type}.
Variable call : Handler -> Invocation -> W -> Outcome * W.
Implicit Types σ : Sys W.







Lemma elem_of_tagged h (members : list Handler) :
  h ∈ List.filter (fun x => bool_decide (is_Some (h_type x))) members <->
  h ∈ members /\ is_Some (h_type h).
Proof.
  rewrite !list_elem_of_In, filter_In, bool_decide_eq_true. done.
Qed.



Lemma chan_remove_all_nodup h m k :
  (forall k, NoDup (chan m k)) ->
  chan (remove h None m).2 k = filter (fun x => x ≠ h) (chan m k).
Proof.
  intros Hnd. rewrite chan_remove_all. case_bool_decide as Hstar.
  - subst k. rewrite (discard_list_nodup h (chan m "*")) by done.
    rewrite discard_list_nodup by by apply NoDup_filter.
    apply filter_twice.
  - by rewrite discard_list_nodup.
Qed.

Lemma remove_each_effect hs m :
  (forall k, NoDup (chan m k)) ->
  same_shape m (remove_each hs m) /\
  (forall x, x ∈ m_handlers (remove_each hs m) -> x ∈ m_handlers m /\ x ∉ hs) /\
  (forall x k, x ∈ chan (remove_each hs m) k -> x ∈ chan m k /\ x ∉ hs).
Proof.
  revert m. induction hs as [|h hs IH]; intros m Hnd.
  - split; [apply same_shape_refl|]. split; intros; split; auto using not_elem_of_nil.
  - destruct (IH (remove h None m).2) as (Hshape & Hhs & Hch).
    { intros k. rewrite chan_remove_all_nodup by done. by apply NoDup_filter. }
    split; [|split].
    + eapply same_shape_trans; [apply same_shape_remove|done].
    + intros x [Hx Hnot]%Hhs. rewrite handlers_remove in Hx.
      apply elem_of_difference in Hx as [Hx Hne].
      rewrite elem_of_singleton in Hne. split; [done|].
      rewrite not_elem_of_cons. done.
    + intros x k [Hx Hnot]%Hch. rewrite chan_remove_all_nodup in Hx by done.
      apply list_elem_of_filter in Hx as [Hne Hx]. split; [done|].
      rewrite not_elem_of_cons. done.
Qed.

Lemma for_each_remove (hs : list Handler) (mgr : nat) σ om :
  objs σ !! mgr = Some om ->
  for_each hs (fun h => at_obj mgr (remove h None)) σ =
    (Ok tt, set_objs (<[mgr := remove_each hs om]> (objs σ)) σ).
Proof.
  revert σ om. induction hs as [|h hs IH]; intros σ om Hm.
  - simpl. unfold ret. rewrite list_insert_id by done. by destruct σ.
  - rewrite for_each_cons. unfold at_obj at 1. rewrite Hm.
    change (remove_each (h :: hs) om) with (remove_each hs (remove h None om).2).
    assert ((remove h None om).1 = Ok tt) as Hok by by rewrite remove_eq.
    destruct (remove h None om) as [r om1]. simpl in Hok. subst r. cbn [fst snd].
    rewrite (IH _ om1).
    + simpl. by rewrite list_insert_insert_eq.
    + simpl. apply list_lookup_insert_eq. by eapply lookup_lt_Some.
Qed.

(** [Component.unregister] goes through the component's own handler set:
    on a component whose manager holds no handler twice in a list it
    returns; afterwards none of the handlers that were in the component's
    own handler set is in the handler set of that manager or in any of its
    channel lists, and the component is its own manager. *)
Theorem unregister_removes (σ : Sys W) (c : nat) (oc om : Manager) :
  objs σ !! c = Some oc -> m_kind oc = KComponent ->
  objs σ !! m_manager oc = Some om ->
  (forall k, NoDup (chan om k)) ->
  exists σ' oc' om',
    unregister c σ = (Ok tt, σ') /\
    objs σ' !! c = Some oc' /\ m_manager oc' = c /\
    objs σ' !! m_manager oc = Some om' /\
    forall h, h ∈ m_handlers oc ->
      (h ∉ m_handlers om') /\ forall k, h ∉ chan om' k.
Proof.
  intros Hc Hkind Hm Hnd.
  destruct (remove_each_effect (elements (m_handlers oc)) om Hnd)
    as (Hshape & Hhs & Hch).
  set (f := remove_each (elements (m_handlers oc)) om) in *.
  set (os1 := <[m_manager oc := f]> (objs σ)).
  assert (m_manager oc < length (objs σ)) as Hlt by by eapply lookup_lt_Some.
  assert (os1 !! m_manager oc = Some f) as Hm1 by by apply list_lookup_insert_eq.
  assert (exists oc1, os1 !! c = Some oc1) as [oc1 Hc1].
  { apply lookup_lt_is_Some_2. unfold os1. rewrite length_insert.
    by eapply lookup_lt_Some. }
  assert (c < length os1) as Hlt1 by by eapply lookup_lt_Some.
  exists (set_objs (<[c := set_manager c oc1]> os1) σ), (set_manager c oc1).
  assert (exists om', <[c := set_manager c oc1]> os1 !! m_manager oc = Some om' /\
            m_handlers om' = m_handlers f /\ forall k, chan om' k = chan f k)
    as (om' & Hom' & Hhs' & Hch').
  { destruct (decide (m_manager oc = c)) as [Heq|Hne].
    - exists (set_manager c oc1). rewrite Heq in *.
      rewrite list_lookup_insert_eq by done. split; [done|]. by simplify_eq.
    - exists f. by rewrite list_lookup_insert_ne. }
  exists om'. split; [|split; [|split; [|split]]].
  - unfold unregister. unfold bind at 1. rewrite (obj_eq _ _ _ Hc). rewrite Hkind.
    unfold bind at 1. rewrite (for_each_remove _ _ _ om Hm). fold f. fold os1.
    unfold at_obj. simpl. by rewrite Hc1.
  - simpl. by apply list_lookup_insert_eq.
  - done.
  - done.
  - intros h Hh. apply elem_of_elements in Hh. split.
    + rewrite Hhs'. intros [_ Hnot]%Hhs. done.
    + intros k. rewrite Hch'. intros [_ Hnot]%Hch. done.
Qed.

End ComponentFacts.

Lemma the_obj_lookup {W} (σ : Sys W) i :
  i < length (objs σ) -> objs σ !! i = Some (the_obj σ i).
Proof.
  intros Hi. unfold the_obj.
  by destruct (lookup_lt_is_Some_2 _ _ Hi) as [m ->].
Qed.

Lemma subscribed_the_obj {W} (σ : Sys W) i h key :
  i < length (objs σ) ->
  h ∈ m_handlers (the_obj σ i) -> h ∈ chan (the_obj σ i) key ->
  subscribed σ i h key.
Proof.
  intros Hi Hhs Hch. exists (the_obj σ i). by rewrite <- the_obj_lookup.
Qed.


(** C6 holds of what [unregister] documents ("Unregister all registered
    event handlers from the manager") and fails on the code: [register]
    takes the handlers from the members of the component, [unregister]
    from the component's own handler set.  A component that was
    unregistered while its own manager has an empty handler set; registered
    on a manager afterwards, its [unregister] returns, makes the component
    its own manager and leaves its tagged listener in the handler set and
    in the global list of that manager. *)
Lemma unregister_leaves_handler :
  let σ := run_tree call_none 2 stale_ops empty_sys in
  let out := unregister 1 σ in
  (m_manager <$> objs σ !! 1) = Some 0 /\
  (c_members <$> objs σ !! 1) = Some [plain_listener] /\
  subscribed σ 0 plain_listener "*" /\
  out.1 = Ok tt /\
  (m_manager <$> objs out.2 !! 1) = Some 1 /\
  subscribed out.2 0 plain_listener "*".
Proof.
  intros σ out. split; [by vm_compute|]. split; [by vm_compute|].
  split; [|split; [by vm_compute|split; [by vm_compute|]]].
  - apply subscribed_the_obj; [vm_compute; lia|..];
      apply (bool_decide_unpack _); by vm_compute.
  - apply subscribed_the_obj; [vm_compute; lia|..];
      apply (bool_decide_unpack _); by vm_compute.
Qed.

(** ** The statements at sample objects *)

Lemma pair_eta {A B} (p : A * B) (a : A) : p.1 = a -> p = (a, p.2).
Proof. intros <-. by destruct p. Qed.

Lemma nodup_lists_check (m : Manager) :
  bool_decide (Forall (fun kl : string * list Handler => NoDup kl.2)
                 (map_to_list (m_channels m))) = true ->
  forall k, NoDup (chan m k).
Proof.
  intros Hall%bool_decide_eq_true k. unfold chan.
  destruct (m_channels m !! k) as [l|] eqn:E; simpl; [|apply NoDup_nil_2].
  apply elem_of_map_to_list in E.
  by apply (proj1 (Forall_forall _ _) Hall (k, l)).
Qed.

(** The wildcard contract at a listener added on a new manager. *)
Lemma handlers_wildcards_witness :
  type_ok plain_listener = true /\ plain "a" /\ plain "b" /\ "a" ≠ "b" /\
  has_colon "x" = false /\
  forall s, delivered (add plain_listener (Some "*") (Manager_init 0)).2 s plain_listener.
Proof.
  assert (type_ok plain_listener = true) as H1 by reflexivity.
  assert (plain "a") as H2 by (split; [reflexivity|discriminate]).
  assert (plain "b") as H3 by (split; [reflexivity|discriminate]).
  assert ("a" ≠ "b") as H4 by discriminate.
  assert (has_colon "x" = false) as H5 by reflexivity.
  repeat (split; [assumption|]).
  exact (proj1 (handlers_wildcards plain_listener (Manager_init 0) "a" "b" "x" "y"
                  H1 H2 H3 H4 H5)).
Defined.



(** A component registered on a manager: its chain ends at the manager. *)
Lemma delegation_ends_at_root_witness :
  let σ := run_tree call_none 2 pair_ops empty_sys in
  reach_by call_none off_chain σ /\ 1 < length (objs σ) /\
  acyclic (parents σ) /\
  exists r n, root_of (parents σ) n 1 = Some r /\ is_root σ r.
Proof.
  intros σ.
  assert (reach_by call_none off_chain σ) as H1.
  { unfold σ, run_tree, pair_ops. cbn [fold_left].
    apply reach_step; [|right; exists 1, 0; split;
                          [vm_compute; reflexivity
                          |apply (bool_decide_unpack _); vm_compute; exact I]
                        |vm_compute; discriminate].
    apply reach_step; [|exact I|vm_compute; discriminate].
    apply reach_step; [|exact I|vm_compute; discriminate].
    apply reach_empty. reflexivity. }
  assert (1 < length (objs σ)) as H2 by (vm_compute; lia).
  split; [exact H1|]. split; [exact H2|].
  destruct (delegation_ends_at_root call_none σ 1 H1 H2)
    as (Hacyc & r & n & Hr & Hroot & _).
  split; [exact Hacyc|]. exists r, n. split; [exact Hr|exact Hroot].
Defined.


(** A component registered on a manager unregisters. *)
Lemma unregister_removes_witness :
  let σ := run_tree call_none 2 pair_ops empty_sys in
  objs σ !! 1 = Some (the_obj σ 1) /\ m_kind (the_obj σ 1) = KComponent /\
  objs σ !! m_manager (the_obj σ 1) = Some (the_obj σ 0) /\
  (forall k, NoDup (chan (the_obj σ 0) k)) /\
  exists σ' oc' om',
    unregister 1 σ = (Ok tt, σ') /\
    objs σ' !! 1 = Some oc' /\ m_manager oc' = 1 /\
    objs σ' !! m_manager (the_obj σ 1) = Some om' /\
    forall h, h ∈ m_handlers (the_obj σ 1) ->
      (h ∉ m_handlers om') /\ forall k, h ∉ chan om' k.
Proof.
  intros σ.
  assert (objs σ !! 1 = Some (the_obj σ 1)) as H1
    by (apply the_obj_lookup; vm_compute; lia).
  assert (m_kind (the_obj σ 1) = KComponent) as H2 by (vm_compute; reflexivity).
  assert (m_manager (the_obj σ 1) = 0) as Hm by (vm_compute; reflexivity).
  assert (objs σ !! m_manager (the_obj σ 1) = Some (the_obj σ 0)) as H3.
  { rewrite Hm. apply the_obj_lookup. vm_compute. lia. }
  assert (forall k, NoDup (chan (the_obj σ 0) k)) as H4.
  { apply nodup_lists_check. vm_compute. reflexivity. }
  split; [exact H1|]. split; [exact H2|]. split; [exact H3|]. split; [exact H4|].
  exact (unregister_removes σ 1 (the_obj σ 1) (the_obj σ 0) H1 H2 H3 H4).
Defined.

(** The order of channel ["c"] after a sample history. *)
Lemma registry_order_witness :
  fresh (Manager_init 0) /\
  NoDup (insertion_order sample_ops "c") /\
  forall h, h ∈ chan (run_ops sample_ops (Manager_init 0)) "c" <->
            h ∈ insertion_order sample_ops "c".
Proof.
  assert (fresh (Manager_init 0)) as H1 by (split; reflexivity).
  split; [exact H1|].
  destruct (registry_order sample_ops (Manager_init 0) "c" H1) as (_ & _ & Hnd & Hin).
  split; [exact Hnd|exact Hin].
Defined.

(** A filter added twice to a channel that lists a listener. *)
Lemma add_idempotent_witness :
  let m := run_ops [OpAdd plain_listener (Some "c")] (Manager_init 0) in
  reachable m /\ type_ok stop_filter = true /\
  let m1 := (add stop_filter (Some "c") m).2 in
  add stop_filter (Some "c") m1 = (Ok tt, m1) /\
  count_occ Handler_eq_dec (chan m1 "c") stop_filter = 1.
Proof.
  intros m.
  assert (reachable m) as H1.
  { exists [OpAdd plain_listener (Some "c")], (Manager_init 0).
    split; [split; reflexivity|reflexivity]. }
  assert (type_ok stop_filter = true) as H2 by reflexivity.
  split; [exact H1|]. split; [exact H2|].
  exact (proj2 (add_idempotent m stop_filter (Some "c") H1 H2)).
Defined.


(** * Further properties of the registry *)

Lemma count_occ_elem (h : Handler) (l : list Handler) :
  h ∈ l -> 1 <= count_occ Handler_eq_dec l h.
Proof. rewrite list_elem_of_In. intros H%(count_occ_In Handler_eq_dec). lia. Qed.

Lemma by_type_idem (l : list Handler) : by_type (by_type l) = by_type l.
Proof.
  unfold by_type. rewrite !filter_app, !list_filter_filter.
  rewrite (filter_none (fun x => is_filter x /\ is_listener x))
    by (intros y _ [? ?]; by eapply filter_not_listener).
  rewrite (filter_none (fun x => is_listener x /\ is_filter x))
    by (intros y _ [? ?]; by eapply filter_not_listener).
  rewrite app_nil_r. simpl. f_equal; apply list_filter_iff; tauto.
Qed.

(** [Manager.handlers], the key ["*"] without a target: the global list is
    read once as [globals] and once more among the keys without a colon, so
    a send on the bare channel ["*"] meets every global handler twice. *)
Theorem bare_star_resolves_globals_twice (m m' : Manager) (h : Handler)
    (hs : list Handler) :
  handlers "*" m = (Ok hs, m') ->
  2 * count_occ Handler_eq_dec (chan m "*") h <= count_occ Handler_eq_dec hs h.
Proof.
  intros Hrun. pose proof (handlers_result "*" m) as Hres.
  rewrite Hrun in Hres. simpl in Hres. injection Hres as ->.
  match goal with |- context [matching ?q ?c] => set (p := q); set (chs := c) end.
  assert (chs !! "*" = Some (chan m "*")) as Hstar by apply lookup_vivify_eq.
  assert (p "*" = true) as Hp by reflexivity.
  assert (matching p chs ≡ₚ chan m "*" ++ matching p (delete "*" chs)) as Hperm.
  { rewrite <- (insert_delete_id chs "*" (chan m "*")) at 1 by done.
    rewrite matching_insert by apply lookup_delete_eq. by rewrite Hp. }
  rewrite count_occ_app.
  rewrite (proj1 (Permutation_count_occ Handler_eq_dec _ _) Hperm h).
  rewrite count_occ_app. lia.
Qed.

(** [Manager.handlers], a bare channel: the target is [None] and
    ["%s:*" % target] is the key ["None:*"], so a handler added under
    ["None:*"] is resolved for every bare channel. *)
Theorem none_target_list_is_resolved (m : Manager) (h : Handler) (x : string) :
  type_ok h = true -> has_colon x = false -> x ≠ "*" ->
  delivered (add h (Some "None:*") m).2 x h.
Proof.
  intros Hty Hx Hstar. apply delivered_resolves. unfold resolves.
  rewrite parse_channel_plain by done. simpl.
  apply String.eqb_neq in Hstar. rewrite Hstar.
  right. left. apply (elem_of_chan_add h (Some "None:*") m Hty).
Qed.

(** [Manager.handlers] concatenates and does not deduplicate: a handler
    added on ["*"] and on a bare channel [x] stands at least twice in the
    sequence resolved for [x]. *)
Theorem resolution_keeps_duplicates (m m' : Manager) (h : Handler) (x : string)
    (hs : list Handler) :
  type_ok h = true -> has_colon x = false -> x ≠ "*" ->
  handlers x (add h (Some x) (add h (Some "*") m).2).2 = (Ok hs, m') ->
  2 <= count_occ Handler_eq_dec hs h.
Proof.
  intros Hty Hx Hstar Hrun.
  set (m2 := (add h (Some x) (add h (Some "*") m).2).2) in *.
  pose proof (handlers_result x m2) as Hres. rewrite Hrun in Hres.
  rewrite parse_channel_plain in Hres by done. simpl in Hres.
  rewrite (proj2 (String.eqb_neq x "*") Hstar) in Hres. injection Hres as ->.
  assert (h ∈ chan m2 "*") as H1.
  { unfold m2. rewrite chan_add_ne by (simpl; done).
    apply (elem_of_chan_add h (Some "*") m Hty). }
  assert (h ∈ chan m2 x) as H2 by apply (elem_of_chan_add h (Some x) _ Hty).
  rewrite !count_occ_app.
  pose proof (count_occ_elem h _ H1). pose proof (count_occ_elem h _ H2). lia.
Qed.

(** [add] then [remove] on the same channel: on a registry reached from
    its construction that does not hold [h], the manager reads afterwards as
    it did before. *)
Theorem add_remove_round_trip (m : Manager) (h : Handler) (c : string) :
  reachable m -> type_ok h = true ->
  h ∉ m_handlers m -> h ∉ chan m c ->
  same_lists (remove h (Some c) (add h (Some c) m).2).2 m.
Proof.
  intros Hreach Hty Hset Hlist. split.
  - rewrite handlers_remove, handlers_add by done.
    apply set_eq. intros y. rewrite elem_of_difference, elem_of_union, !elem_of_singleton.
    split; [tauto|]. intros Hy. split; [auto|]. by intros ->.
  - intros k. rewrite chan_remove_one. case_bool_decide as Hk;
      [subst k|by rewrite chan_add_ne by (simpl; done)].
    assert (NoDup (chan (add h (Some c) m).2 c)) as Hnd.
    { apply reachable_nodup. apply (reachable_step (OpAdd h (Some c))). done. }
    rewrite discard_list_nodup by done.
    rewrite chan_add by done. simpl. rewrite String.eqb_refl. unfold add_list.
    rewrite bool_decide_eq_false_2 by done.
    destruct Hreach as (ops & m0 & Hfresh & ->).
    destruct (run_ops_by_type ops m0 c Hfresh) as [[Hnd' Hok] Hc].
    rewrite Hc in *.
    rewrite sort_by_type_stable.
    + rewrite by_type_snoc by done. rewrite <- by_type_filter.
      rewrite filter_app, filter_cons_False by tauto. rewrite filter_nil, app_nil_r.
      rewrite filter_all; [done|]. apply Forall_forall. intros y Hy ->.
      apply Hlist. by rewrite by_type_perm.
    + apply Forall_app. split; [|by apply Forall_singleton].
      by rewrite by_type_perm.
Qed.

(** [remove] with a channel takes the handler out of the handler set even
    when another channel still lists it: the handler is still resolved for
    that channel, and no longer by ["*:*"], which reads the handler set. *)
Theorem remove_one_channel_forgets_handler (m : Manager) (h : Handler) (c k : string) :
  has_colon k = false -> k ≠ c -> h ∈ chan m k ->
  let m' := (remove h (Some c) m).2 in
  h ∈ chan m' k /\ delivered m' k h /\ ~ delivered m' "*:*" h.
Proof.
  intros Hk Hne Hin m'.
  assert (h ∈ chan m' k) as Hin'.
  { unfold m'. rewrite chan_remove_one. by rewrite bool_decide_eq_false_2. }
  split; [done|]. split.
  - apply delivered_resolves. unfold resolves.
    rewrite parse_channel_plain by done. simpl.
    destruct (String.eqb_spec k "*") as [->|Hstar]; [by left|]. right. by right.
  - rewrite delivered_resolves. unfold resolves. simpl.
    unfold m'. rewrite handlers_remove. rewrite elem_of_difference, elem_of_singleton.
    tauto.
Qed.

(** The decorator and [add]: a handler made by [listener] passes the guard
    of [add] exactly when the [type] keyword is left out or is ["filter"]
    or ["listener"]; otherwise [add] raises [InvalidHandler] with the
    handler and leaves the manager as it was. *)
Theorem decorated_handler_accepted (args : list string) (type : option string)
    (f : Callable) (channel : option string) (m : Manager) :
  let h := listener args type f in
  (type = None \/ type = Some "filter" \/ type = Some "listener" ->
     (add h channel m).1 = Ok tt /\ h ∈ m_handlers (add h channel m).2 /\
     h ∈ chan (add h channel m).2 (default "*" channel)) /\
  (~ (type = None \/ type = Some "filter" \/ type = Some "listener") ->
     add h channel m = (Raise (InvalidHandler h), m)).
Proof.
  intros h.
  assert (type_ok h = true <->
          type = None \/ type = Some "filter" \/ type = Some "listener") as Hok.
  { unfold type_ok, h, listener. simpl. destruct type as [t|]; simpl.
    - rewrite orb_true_iff, !String.eqb_eq. split.
      + intros [->| ->]; auto.
      + intros [?|[[= ->]|[= ->]]]; [done|auto..].
    - split; auto. }
  split.
  - intros Hty%Hok. split; [by rewrite add_eq|]. split.
    + rewrite handlers_add by done. apply elem_of_union_l, elem_of_singleton. done.
    + by apply elem_of_chan_add.
  - intros Hty. apply add_invalid. destruct (type_ok h); [|done].
    exfalso. by apply Hty, Hok.
Qed.

(** The decorator and the call shapes of [send]: the leading [self] of a
    method is dropped, so a method declared [(self, event, ...)] is called
    with the event object and the whole payload, and a callable that
    declares nothing but [self] is called without any argument, whatever
    the event carries. *)
Theorem decorated_call_shapes (args : list string) (type : option string)
    (f : Callable) (e : Event) (rest : list string) :
  (f_params f = "self" :: "event" :: rest ->
     adapt (listener args type f) e =
       {| i_event := Some e; i_args := ev_args e; i_kwargs := ev_kwargs e |}) /\
  (f_params f = [] \/ f_params f = ["self"] ->
     f_star f = false -> f_starstar f = false ->
     adapt (listener args type f) e =
       {| i_event := None; i_args := []; i_kwargs := [] |}) /\
  (i_event (adapt (listener args type f) e) = None \/
   i_event (adapt (listener args type f) e) = Some e) /\
  (i_args (adapt (listener args type f) e) = [] \/
   i_args (adapt (listener args type f) e) = ev_args e).
Proof.
  unfold adapt, listener. simpl. split; [|split; [|split]].
  - by intros ->.
  - intros [-> | ->] -> ->; done.
  - repeat case_match; simpl; auto.
  - repeat case_match; simpl; auto.
Qed.

(** * Further properties of the queue and of dispatch *)

Section QueueFacts.

Context {W : Type}.
Variable call : Handler -> Invocation -> W -> Outcome * W.
Implicit Types σ : Sys W.

Lemma set_queue_same m : set_queue (m_queue m) m = m.
Proof. by destruct m. Qed.

Lemma set_objs_same σ : set_objs (objs σ) σ = σ.
Proof. by destruct σ. Qed.

Lemma flush_empty fuel r σ m :
  objs σ !! r = Some m -> m_manager m = r -> m_queue m = [] ->
  flush call (S fuel) r σ = (Ok tt, σ).
Proof.
  intros Hm Hroot Hq. rewrite (flush_root call fuel r σ m Hm Hroot).
  rewrite Hq. simpl. rewrite <- Hq, set_queue_same.
  rewrite list_insert_id by done. by rewrite set_objs_same.
Qed.

(** [Manager.flush] on a root, with handlers that do not push while
    they are called: whatever the first flush did, and whether it returned
    or a handler raised, the queue is empty afterwards and a second flush
    returns without changing anything. *)
Theorem second_flush_is_noop (σ : Sys W) (r fuel fuel' : nat) :
  is_root σ r ->
  let σ1 := (flush call (S fuel) r σ).2 in
  queue_of σ1 r = [] /\ flush call (S fuel') r σ1 = (Ok tt, σ1).
Proof.
  intros (m & Hm & Hroot) σ1.
  assert (is_root σ1 r /\ queue_of σ1 r = []) as [(m1 & Hm1 & Hroot1) Hq1].
  { unfold σ1. rewrite (flush_root call fuel r σ m Hm Hroot).
    set (σ0 := set_objs _ σ).
    assert (objs σ0 !! r = Some (set_queue [] m)) as H0.
    { simpl. apply list_lookup_insert_eq. by eapply lookup_lt_Some. }
    destruct (drain_effect call fuel r (length (m_queue m)) (m_queue m) σ0)
      as (_ & Hr & Hq & _); [by exists (set_queue [] m)|done|].
    split; [done|]. rewrite Hq. unfold queue_of. by rewrite H0. }
  split; [done|]. apply (flush_empty fuel' r σ1 m1 Hm1 Hroot1).
  unfold queue_of in Hq1. by rewrite Hm1 in Hq1.
Qed.

(** [Manager.push] only enqueues: called on any object whose [manager]
    references lead to the root [r], it stamps the event, appends it to the
    queue of [r] and touches nothing else -- no dispatch is logged, and the
    [len] of every other object, the caller included, stays what it was. *)
Theorem push_only_enqueues (σ : Sys W) (n self r fuel event : nat)
    (channel target : option string) (mr : Manager) (e : Event) :
  root_of (parents σ) n self = Some r -> n <= fuel ->
  objs σ !! r = Some mr -> events σ !! event = Some e ->
  let out := push fuel self event channel target σ in
  out = (Ok tt,
         {| objs := <[r := set_queue (m_queue mr ++ [event]) mr]> (objs σ);
            events := <[event := stamped channel target e]> (events σ);
            world := world σ; log := log σ |}) /\
  (Manager_len <$> objs out.2 !! r) = Some (S (Manager_len mr)) /\
  (forall j, j ≠ r -> objs out.2 !! j = objs σ !! j).
Proof.
  intros Hr Hle Hmr He out.
  assert (m_manager mr = r) as Hroot.
  { apply root_of_is_root, parents_lookup in Hr as (m' & Hm' & Hp). by simplify_eq. }
  assert (out = (Ok tt,
         {| objs := <[r := set_queue (m_queue mr ++ [event]) mr]> (objs σ);
            events := <[event := stamped channel target e]> (events σ);
            world := world σ; log := log σ |})) as Hout.
  { unfold out. rewrite (push_delegates σ n self r fuel event channel target Hr Hle).
    by apply push_root. }
  split; [done|]. rewrite Hout. simpl. split.
  - rewrite list_lookup_insert_eq by by eapply lookup_lt_Some.
    simpl. unfold Manager_len. simpl. rewrite length_app. simpl. f_equal. lia.
  - intros j Hj. by rewrite list_lookup_insert_ne.
Qed.

Lemma dispatched_keys_invoked self e calls :
  dispatched_keys (map (invoked self e) calls) = [].
Proof. by induction calls. Qed.

Lemma dispatched_keys_app l1 l2 :
  dispatched_keys (l1 ++ l2) = dispatched_keys l1 ++ dispatched_keys l2.
Proof. apply omap_app. Qed.

(** One [send] at a root when no handler raises, in full. *)
Lemma send_root_quiet fuel r ev channel target σ m e key :
  (forall h inv w, (call h inv w).1 ≠ Raised) ->
  objs σ !! r = Some m -> m_manager m = r -> events σ !! ev = Some e ->
  send_key channel target = Some key ->
  exists σ' calls,
    send call (S fuel) r ev channel target σ = (Ok tt, σ') /\
    objs σ' = <[r := (handlers key m).2]> (objs σ) /\
    events σ' = <[ev := stamped channel target e]> (events σ) /\
    log σ' = log σ ++ Dispatched r ev key ::
               map (invoked r (stamped channel target e)) calls.
Proof.
  intros Hcall Hm Hroot He Hkey.
  destruct (send_root call fuel r ev channel target σ m e key Hm Hroot He Hkey)
    as (hs & m' & Hh & Hsend).
  set (σ1 := {| objs := _ |}) in Hsend.
  assert (events σ1 !! ev = Some (stamped channel target e)) as He1.
  { simpl. apply list_lookup_insert_eq. by eapply lookup_lt_Some. }
  destruct (dispatch_run call r ev _ hs σ1 He1)
    as (calls & res & σ' & Hrun & _ & Hobjs & Hev & Hlog).
  pose proof (dispatch_returns call r ev _ hs σ1 Hcall He1) as Hok.
  rewrite Hrun in Hok. simpl in Hok. subst res.
  exists σ', calls. rewrite Hsend, Hrun. split; [done|].
  rewrite Hobjs, Hev, Hlog. simpl. rewrite Hh. simpl.
  split; [done|]. split; [done|]. by rewrite <- app_assoc.
Qed.

(** Events are not copied into the queue: a [send] of an event that is
    already queued stamps the queued event too, and the flush dispatches it
    on the key of the send, not on the key it was pushed with. *)
Theorem send_restamps_queued_event (σ : Sys W) (r ev : nat) (a b : string)
    (ta tb : option string) (m : Manager) (e : Event) (kb : string) :
  (forall h inv w, (call h inv w).1 ≠ Raised) ->
  objs σ !! r = Some m -> m_manager m = r -> m_queue m = [] ->
  events σ !! ev = Some e ->
  send_key (Some b) tb = Some kb ->
  let out := push_send_flush call r ev a b ta tb σ in
  out.1 = Ok tt /\
  dispatched_keys (drop (length (log σ)) (log out.2)) = [(ev, kb); (ev, kb)] /\
  events out.2 !! ev = Some (stamped (Some b) tb e).
Proof.
  intros Hcall Hm Hroot Hq He Hkb out.
  pose proof (push_root 0 r ev (Some a) ta σ m e Hm Hroot He) as Hpush.
  rewrite Hq in Hpush. change ([] ++ [ev]) with [ev] in Hpush.
  set (σ1 := {| objs := _ |}) in Hpush.
  assert (ev < length (events σ)) as Hev by by eapply lookup_lt_Some.
  assert (r < length (objs σ)) as Hr by by eapply lookup_lt_Some.
  set (m1 := set_queue [ev] m).
  assert (objs σ1 !! r = Some m1) as Hm1 by by apply list_lookup_insert_eq.
  assert (events σ1 !! ev = Some (stamped (Some a) ta e)) as He1
    by by apply list_lookup_insert_eq.
  destruct (send_root_quiet 0 r ev (Some b) tb σ1 m1 _ kb Hcall Hm1 Hroot He1 Hkb)
    as (σ2 & calls2 & Hsend & Hobjs2 & Hev2 & Hlog2).
  set (m2 := (handlers kb m1).2) in *.
  assert (objs σ2 !! r = Some m2) as Hm2.
  { rewrite Hobjs2. apply list_lookup_insert_eq. by eapply lookup_lt_Some. }
  assert (m_manager m2 = r) as Hroot2 by (unfold m2; by rewrite m_manager_handlers).
  assert (m_queue m2 = [ev]) as Hq2 by (unfold m2; by rewrite m_queue_handlers).
  set (e2 := stamped (Some b) tb e).
  assert (events σ2 !! ev = Some e2) as He2.
  { rewrite Hev2. simpl. rewrite list_insert_insert_eq.
    by apply list_lookup_insert_eq. }
  pose proof (flush_root call 0 r σ2 m2 Hm2 Hroot2) as Hflush. rewrite Hq2 in Hflush.
  set (σ3 := set_objs _ σ2) in Hflush.
  assert (objs σ3 !! r = Some (set_queue [] m2)) as Hm3.
  { simpl. apply list_lookup_insert_eq. by eapply lookup_lt_Some. }
  destruct (send_root_quiet 0 r ev (ev_channel e2) (ev_target e2) σ3 (set_queue [] m2)
              e2 kb Hcall Hm3 Hroot2 He2 Hkb)
    as (σ4 & calls4 & Hsend4 & Hobjs4 & Hev4 & Hlog4).
  assert (out = (Ok tt, σ4)) as ->.
  { unfold out, push_send_flush. unfold bind at 1. rewrite Hpush.
    unfold bind at 1. rewrite Hsend. rewrite Hflush.
    rewrite (drain_step 0 [ev] ev [] e2 σ3); [|done|done].
    by rewrite Hsend4, drain_empty. }
  simpl. split; [done|]. split.
  - rewrite Hlog4. simpl. rewrite Hlog2. simpl.
    rewrite <- app_assoc, drop_app_length. simpl.
    rewrite dispatched_keys_app, dispatched_keys_invoked. simpl.
    by rewrite dispatched_keys_invoked.
  - rewrite Hev4, stamped_id. simpl.
    apply list_lookup_insert_eq. rewrite Hev2. simpl.
    by rewrite !length_insert.
Qed.

End QueueFacts.

(** * Further properties of components *)

Section MoreComponentFacts.

Context {W : Type}.
Variable call : Handler -> Invocation -> W -> Outcome * W.
Implicit Types σ : Sys W.

Lemma for_each_app {S A} (xs ys : list A) (body : A -> M S unit) (s : S) :
  for_each (xs ++ ys) body s =
    match for_each xs body s with
    | (Ok _, s1) => for_each ys body s1
    | (Raise ex, s1) => (Raise ex, s1)
    | (Timeout, s1) => (Timeout, s1)
    end.
Proof.
  revert s. induction xs as [|x xs IH]; intros s; [done|].
  rewrite <- app_comm_cons, !for_each_cons.
  destruct (body x s) as [[[]|ex|] s1]; [apply IH|done..].
Qed.

Lemma at_obj_add_ok i h ch σ m :
  objs σ !! i = Some m -> type_ok h = true ->
  at_obj i (add h ch) σ = (Ok tt, set_objs (<[i := (add h ch m).2]> (objs σ)) σ).
Proof.
  intros Hm Hty. unfold at_obj. rewrite Hm.
  assert ((add h ch m).1 = Ok tt) as Hok by by rewrite add_eq.
  destruct (add h ch m) as [r m']. simpl in *. by subst r.
Qed.

Lemma at_obj_add_invalid i h ch σ m :
  objs σ !! i = Some m -> type_ok h = false ->
  at_obj i (add h ch) σ = (Raise (InvalidHandler h), σ).
Proof.
  intros Hm Hty. unfold at_obj. rewrite Hm, add_invalid by done.
  rewrite list_insert_id by done. by rewrite set_objs_same.
Qed.

Lemma adds_of_handler_ok i h prefix (chs : list string) σ m :
  objs σ !! i = Some m -> type_ok h = true ->
  for_each chs (fun ch => at_obj i (add h (Some (qualified prefix ch)))) σ =
    (Ok tt,
     set_objs (<[i := fold_left (fun m ch => (add h (Some (qualified prefix ch)) m).2)
                        chs m]> (objs σ)) σ).
Proof.
  intros Hm Hty. revert σ m Hm. induction chs as [|ch chs IH]; intros σ m Hm.
  - simpl. unfold ret. rewrite list_insert_id by done. by rewrite set_objs_same.
  - rewrite for_each_cons, (at_obj_add_ok _ _ _ _ m) by done.
    rewrite (IH _ (add h (Some (qualified prefix ch)) m).2).
    + simpl. by rewrite list_insert_insert_eq.
    + simpl. apply list_lookup_insert_eq. by eapply lookup_lt_Some.
Qed.

Lemma register_loop_ok i prefix (hs : list Handler) σ m :
  objs σ !! i = Some m -> Forall (fun h => type_ok h = true) hs ->
  for_each hs (fun h =>
    for_each (declared h) (fun ch => at_obj i (add h (Some (qualified prefix ch))))) σ =
    (Ok tt, set_objs (<[i := add_each prefix hs m]> (objs σ)) σ).
Proof.
  intros Hm Hok. revert σ m Hm. induction Hok as [|h hs Hh Hok IH]; intros σ m Hm.
  - simpl. unfold ret. rewrite list_insert_id by done. by rewrite set_objs_same.
  - rewrite for_each_cons, (adds_of_handler_ok _ _ _ _ _ m) by done.
    rewrite (IH _ (fold_left (fun m ch => (add h (Some (qualified prefix ch)) m).2)
                     (declared h) m)).
    + simpl. by rewrite list_insert_insert_eq.
    + simpl. apply list_lookup_insert_eq. by eapply lookup_lt_Some.
Qed.

Lemma add_keeps h h' ch k m : h ∈ chan m k -> h ∈ chan (add h' ch m).2 k.
Proof.
  intros Hin. destruct (type_ok h') eqn:Hty; [|by rewrite add_invalid].
  rewrite chan_add by done. destruct (String.eqb _ k); [|done].
  apply elem_of_add_list. auto.
Qed.

Lemma adds_keep h h' prefix (chs : list string) k m :
  h ∈ chan m k ->
  h ∈ chan (fold_left (fun m ch => (add h' (Some (qualified prefix ch)) m).2) chs m) k.
Proof.
  revert m. induction chs as [|ch chs IH]; intros m Hin; [done|].
  simpl. apply IH. by apply add_keeps.
Qed.

Lemma adds_make h prefix (chs : list string) ch m :
  type_ok h = true -> ch ∈ chs ->
  h ∈ chan (fold_left (fun m ch => (add h (Some (qualified prefix ch)) m).2) chs m)
           (qualified prefix ch).
Proof.
  intros Hty. revert m. induction chs as [|c chs IH]; intros m Hch.
  - by apply elem_of_nil in Hch.
  - simpl. apply elem_of_cons in Hch as [->|Hch]; [|by apply IH].
    apply adds_keep. apply (elem_of_chan_add h (Some (qualified prefix c)) m Hty).
Qed.

Lemma adds_handlers h prefix (chs : list string) m :
  type_ok h = true -> chs ≠ [] ->
  m_handlers (fold_left (fun m ch => (add h (Some (qualified prefix ch)) m).2) chs m) =
    {[h]} ∪ m_handlers m.
Proof.
  intros Hty. revert m. induction chs as [|c chs IH]; intros m Hne; [done|].
  simpl. destruct chs as [|c' chs].
  - simpl. by rewrite handlers_add.
  - rewrite IH by done. rewrite handlers_add by done.
    apply set_eq. intros y. rewrite !elem_of_union. tauto.
Qed.

Lemma adds_shape h prefix (chs : list string) m :
  same_shape m (fold_left (fun m ch => (add h (Some (qualified prefix ch)) m).2) chs m).
Proof.
  revert m. induction chs as [|c chs IH]; intros m; [apply same_shape_refl|].
  simpl. eapply same_shape_trans; [apply same_shape_add|apply IH].
Qed.

Lemma declared_ne h : declared h ≠ [].
Proof. unfold declared. by destruct (h_channels h). Qed.

Lemma add_each_cons prefix h (hs : list Handler) m :
  add_each prefix (h :: hs) m =
    add_each prefix hs
      (fold_left (fun m ch => (add h (Some (qualified prefix ch)) m).2) (declared h) m).
Proof. done. Qed.

Lemma add_each_effect prefix (hs : list Handler) m :
  Forall (fun h => type_ok h = true) hs ->
  same_shape m (add_each prefix hs m) /\
  m_handlers (add_each prefix hs m) = list_to_set hs ∪ m_handlers m /\
  (forall h k, h ∈ chan m k -> h ∈ chan (add_each prefix hs m) k) /\
  (forall h ch, h ∈ hs -> ch ∈ declared h ->
     h ∈ chan (add_each prefix hs m) (qualified prefix ch)).
Proof.
  intros Hok. revert m. induction Hok as [|h hs Hh Hok IH]; intros m.
  - split; [apply same_shape_refl|]. split.
    + simpl. apply set_eq. intros y. rewrite elem_of_union, elem_of_empty. tauto.
    + split; [done|]. intros h ch Hh. by apply elem_of_nil in Hh.
  - rewrite add_each_cons.
    set (m1 := fold_left _ (declared h) m).
    destruct (IH m1) as (Hshape & Hset & Hkeep & Hmake).
    split; [|split; [|split]].
    + eapply same_shape_trans; [apply adds_shape|done].
    + rewrite Hset. unfold m1. rewrite adds_handlers by (done || apply declared_ne).
      rewrite list_to_set_cons.
      apply set_eq. intros y. rewrite !elem_of_union. tauto.
    + intros h' k Hin. apply Hkeep. unfold m1. by apply adds_keep.
    + intros h' ch [->|Hin]%elem_of_cons Hch.
      * apply Hkeep. unfold m1. by apply adds_make.
      * by apply Hmake.
Qed.

Lemma tagged_members_spec h (members : list Handler) :
  h ∈ tagged_members members <-> h ∈ members /\ is_Some (h_type h).
Proof. apply elem_of_tagged. Qed.

Lemma register_unfold fuel c manager σ oc :
  objs σ !! c = Some oc -> m_kind oc = KComponent ->
  register call fuel c manager σ =
    match for_each (tagged_members (c_members oc)) (fun h =>
            for_each (declared h) (fun ch =>
              at_obj manager (add h (Some (qualified (c_channel oc) ch))))) σ with
    | (Ok _, σ1) =>
        match (if negb (manager =? c)%nat
               then let* ev := new_event (Event_new "Registered" [] []) in
                    send call fuel manager ev (Some "registered") (c_channel oc)
               else ret tt) σ1 with
        | (Ok _, σ2) => at_obj c (modify (set_manager manager)) σ2
        | (Raise ex, σ2) => (Raise ex, σ2)
        | (Timeout, σ2) => (Timeout, σ2)
        end
    | (Raise ex, σ1) => (Raise ex, σ1)
    | (Timeout, σ1) => (Timeout, σ1)
    end.
Proof.
  intros Hc Hk. unfold register. unfold bind at 1. rewrite (obj_eq _ _ _ Hc), Hk.
  reflexivity.
Qed.

(** [Component.__init__]: when every tagged method carries a valid type,
    construction returns a new reference, adds nothing to the log and
    allocates no event (no [Registered] is sent for a registration on
    itself).  The new component is its own manager with an empty queue; its
    handler set is the set of its tagged methods, and each is listed under
    every channel it declared, prefixed with the component's channel. *)
Theorem component_construction (σ : Sys W) (fuel : nat) (channel : option string)
    (members : list Handler) :
  Forall (fun h => type_ok h = true) (tagged_members members) ->
  exists c,
    new_component call fuel channel members σ =
      (Ok (length (objs σ)), set_objs (objs σ ++ [c]) σ) /\
    m_manager c = length (objs σ) /\ m_queue c = [] /\
    m_kind c = KComponent /\ c_channel c = channel /\ c_members c = members /\
    m_handlers c = list_to_set (tagged_members members) /\
    forall h ch, h ∈ members -> is_Some (h_type h) -> ch ∈ declared h ->
      h ∈ chan c (qualified channel ch).
Proof.
  intros Hok. unfold new_component.
  set (self := length (objs σ)).
  set (c0 := {| m_queue := []; m_handlers := ∅; m_manager := self;
                m_channels := ∅; m_kind := KComponent;
                c_channel := channel; c_members := members |}).
  set (σ0 := set_objs (objs σ ++ [c0]) σ).
  assert (objs σ0 !! self = Some c0) as H0.
  { simpl. rewrite lookup_app_r by (unfold self; lia).
    unfold self. by rewrite Nat.sub_diag. }
  destruct (add_each_effect channel (tagged_members members) c0 Hok)
    as ((Hmgr & Hq & Hkind & Hchan & Hmem) & Hset & _ & Hmake).
  set (c := add_each channel (tagged_members members) c0) in *.
  exists c.
  assert (register call fuel self self σ0 = (Ok tt, set_objs (objs σ ++ [c]) σ)) as Hreg.
  { rewrite (register_unfold fuel self self σ0 c0 H0 eq_refl).
    change (c_members c0) with members. change (c_channel c0) with channel.
    rewrite (register_loop_ok self channel (tagged_members members) σ0 c0 H0 Hok). fold c.
    rewrite Nat.eqb_refl. simpl negb. cbv iota. unfold ret at 1.
    unfold at_obj. simpl.
    rewrite list_lookup_insert_eq by (rewrite length_app; simpl; unfold self; lia).
    simpl. rewrite list_insert_insert_eq. f_equal. unfold set_objs. simpl. f_equal.
    assert (set_manager self c = c) as -> by (destruct c; simpl in *; by subst).
    unfold self.
    assert (length (objs σ) = length (objs σ) + 0) as Hlen by lia.
    rewrite Hlen at 1. rewrite (insert_app_r (objs σ) [c0] 0 c). done. }
  unfold bind. rewrite Hreg. split; [done|].
  split; [done|]. split; [done|]. split; [done|]. split; [done|]. split; [done|].
  split.
  { rewrite Hset. change (m_handlers c0) with (∅ : gset Handler).
    apply set_eq. intros y. rewrite elem_of_union, elem_of_empty. tauto. }
  intros h ch Hh Hty Hch. apply Hmake; [|done]. by apply tagged_members_spec.
Qed.

(** [Component.register] with a tagged method whose type [add] refuses:
    the methods before it are registered and stay registered, then the call
    raises [InvalidHandler] with that method; the component's manager
    reference, the events and the log are as before (no [Registered] was
    sent). *)
Theorem register_stops_at_invalid_handler (σ : Sys W) (fuel c manager : nat)
    (oc om : Manager) (pre post : list Handler) (h0 : Handler) :
  objs σ !! c = Some oc -> m_kind oc = KComponent ->
  objs σ !! manager = Some om ->
  tagged_members (c_members oc) = pre ++ h0 :: post ->
  Forall (fun h => type_ok h = true) pre -> type_ok h0 = false ->
  exists σ',
    register call fuel c manager σ = (Raise (InvalidHandler h0), σ') /\
    parents σ' = parents σ /\ events σ' = events σ /\ log σ' = log σ /\
    forall h ch, h ∈ pre -> ch ∈ declared h ->
      subscribed σ' manager h (qualified (c_channel oc) ch).
Proof.
  intros Hc Hkind Hm Htag Hpre Hbad.
  destruct (add_each_effect (c_channel oc) pre om Hpre)
    as ((Hmgr & _) & Hset & _ & Hmake).
  set (om1 := add_each (c_channel oc) pre om) in *.
  set (σ1 := set_objs (<[manager := om1]> (objs σ)) σ).
  assert (objs σ1 !! manager = Some om1) as Hm1.
  { simpl. apply list_lookup_insert_eq. by eapply lookup_lt_Some. }
  exists σ1. split; [|split; [|split; [done|split; [done|]]]].
  - rewrite (register_unfold fuel c manager σ oc Hc Hkind). rewrite Htag.
    rewrite for_each_app.
    rewrite (register_loop_ok manager (c_channel oc) pre σ om Hm Hpre). fold om1. fold σ1.
    rewrite for_each_cons.
    destruct (declared h0) as [|ch0 chs] eqn:Hd; [by apply declared_ne in Hd|].
    rewrite for_each_cons.
    by rewrite (at_obj_add_invalid manager h0 _ σ1 om1 Hm1 Hbad).
  - unfold parents, σ1. simpl. rewrite list_fmap_insert, Hmgr.
    apply list_insert_id. rewrite list_lookup_fmap, Hm. done.
  - intros h ch Hh Hch. exists om1. split; [done|]. split.
    + rewrite Hset. apply elem_of_union_l. by apply elem_of_list_to_set.
    + by apply Hmake.
Qed.

End MoreComponentFacts.

(** * Further properties of events *)

Lemma tuple_index_range (t : list value) (z : Z) :
  is_Some (tuple_index t z) <->
  (- Z.of_nat (length t) <= z < Z.of_nat (length t))%Z.
Proof.
  unfold tuple_index. cbv zeta.
  destruct (Z.leb_spec 0 z) as [H0|H0];
    destruct (Z.ltb_spec z (Z.of_nat (length t))) as [H1|H1];
    destruct (Z.leb_spec (- Z.of_nat (length t)) z) as [H2|H2];
    destruct (Z.ltb_spec z 0) as [H3|H3]; cbn [andb];
    try (rewrite lookup_lt_is_Some; lia);
    try (split; [by intros [? ?]|lia]).
Qed.

Lemma dict_get_Some (d : list (string * value)) k v :
  dict_get d k = Some v -> (k, v) ∈ d.
Proof.
  induction d as [|[k' v'] d IH]; simpl; [done|].
  destruct (String.eqb_spec k' k) as [->|Hne].
  - intros [= ->]. apply elem_of_cons. auto.
  - intros H. apply elem_of_cons. auto.
Qed.

Lemma dict_get_None (d : list (string * value)) k :
  dict_get d k = None <-> k ∉ d.*1.
Proof.
  induction d as [|[k' v'] d IH]; simpl.
  - split; [intros _; apply not_elem_of_nil|done].
  - rewrite not_elem_of_cons. destruct (String.eqb_spec k' k) as [->|Hne].
    + split; [done|]. by intros [? _].
    + rewrite IH. split; [auto|]. by intros [_ ?].
Qed.

(** [Event.__getitem__]: an integer index returns exactly when it lies in
    [-len(args) .. len(args)-1] and raises [IndexError] otherwise; [i] and
    [i - len(args)] name the same argument; a string index returns the
    keyword's value or raises [KeyError] with the key when the event has no
    such keyword; any other index raises [TypeError]. *)
Theorem event_getitem_bounds (e : Event) :
  (forall z, (exists v, Event_getitem e (IInt z) = inr v) <->
             (- Z.of_nat (length (ev_args e)) <= z < Z.of_nat (length (ev_args e)))%Z) /\
  (forall z, Event_getitem e (IInt z) = inl IndexError \/
             exists v, Event_getitem e (IInt z) = inr v) /\
  (forall i v, ev_args e !! i = Some v ->
     Event_getitem e (IInt (Z.of_nat i)) = inr v /\
     Event_getitem e (IInt (Z.of_nat i - Z.of_nat (length (ev_args e)))) = inr v) /\
  (forall k, k ∉ (ev_kwargs e).*1 <-> Event_getitem e (IStr k) = inl (MissingKey k)) /\
  (forall k v, Event_getitem e (IStr k) = inr v -> (k, v) ∈ ev_kwargs e) /\
  Event_getitem e IOther = inl BadIndexType.
Proof.
  split; [|split; [|split; [|split; [|split]]]].
  - intros z. rewrite <- tuple_index_range. simpl.
    destruct (tuple_index (ev_args e) z) as [v|].
    + split; [eauto|]. intros _. by exists v.
    + split; [by intros [? ?]|by intros [? ?]].
  - intros z. simpl. destruct (tuple_index (ev_args e) z); eauto.
  - intros i v Hi. pose proof (lookup_lt_Some _ _ _ Hi) as Hlt.
    simpl. unfold tuple_index. split.
    + rewrite (proj2 (Z.leb_le 0 (Z.of_nat i))) by lia.
      rewrite (proj2 (Z.ltb_lt _ _)) by lia. simpl.
      by rewrite Nat2Z.id, Hi.
    + rewrite (proj2 (Z.leb_gt 0 _)) by lia. simpl.
      rewrite (proj2 (Z.leb_le _ _)) by lia.
      rewrite (proj2 (Z.ltb_lt _ 0)) by lia. simpl.
      replace (Z.of_nat (length (ev_args e)) +
               (Z.of_nat i - Z.of_nat (length (ev_args e))))%Z with (Z.of_nat i) by lia.
      by rewrite Nat2Z.id, Hi.
  - intros k. rewrite <- dict_get_None. simpl.
    destruct (dict_get (ev_kwargs e) k); split; done.
  - intros k v. simpl. destruct (dict_get (ev_kwargs e) k) eqn:E; [|done].
    intros [= ->]. by apply dict_get_Some.
  - done.
Qed.

(** ** Equality of events *)

Lemma value_eq_refl v : value_eq v v = true.
Proof.
  destruct v as [|[]|z|s]; cbn [value_eq as_number];
    auto using Z.eqb_refl, String.eqb_refl.
Qed.

Lemma value_eq_sym v w : value_eq v w = value_eq w v.
Proof.
  destruct v as [|[]|z|s], w as [|[]|z'|s']; cbn [value_eq as_number];
    auto using Z.eqb_sym, String.eqb_sym.
Qed.

Lemma value_eq_trans u v w :
  value_eq u v = true -> value_eq v w = true -> value_eq u w = true.
Proof.
  destruct u as [|[]|a|s], v as [|[]|b|t], w as [|[]|c|r];
    cbn [value_eq as_number]; try done;
    rewrite ?Z.eqb_eq, ?String.eqb_eq; try congruence; intros; lia.
Qed.

Lemma tuple_eq_refl s : tuple_eq s s = true.
Proof. induction s as [|v s IH]; simpl; [done|]. by rewrite value_eq_refl. Qed.

Lemma tuple_eq_sym s t : tuple_eq s t = tuple_eq t s.
Proof.
  revert t. induction s as [|v s IH]; intros [|w t]; simpl; try done.
  by rewrite value_eq_sym, IH.
Qed.

Lemma tuple_eq_trans s t u :
  tuple_eq s t = true -> tuple_eq t u = true -> tuple_eq s u = true.
Proof.
  revert t u. induction s as [|a s IH]; intros [|b t] [|c u]; simpl; try done.
  rewrite !andb_true_iff. intros [H1 H2] [H3 H4]. split.
  - by eapply value_eq_trans.
  - by eapply IH.
Qed.

Lemma routing_eq_eq a b : routing_eq a b = true <-> a = b.
Proof.
  destruct a, b; simpl; rewrite ?String.eqb_eq; split; congruence.
Qed.

Lemma dict_get_elem (d : list (string * value)) k v :
  NoDup d.*1 -> (k, v) ∈ d -> dict_get d k = Some v.
Proof.
  induction d as [|[k' v'] d IH]; simpl; [by intros _ ?%elem_of_nil|].
  intros [Hk' Hnd]%NoDup_cons [[= <- <-]|Hin]%elem_of_cons.
  - by rewrite String.eqb_refl.
  - destruct (String.eqb_spec k' k) as [->|Hne]; [|by apply IH].
    exfalso. apply Hk'. apply list_elem_of_fmap. by exists (k, v).
Qed.

Lemma dict_eq_spec a b :
  dict_eq a b = true <-> length a = length b /\ dict_le a b.
Proof.
  unfold dict_eq, dict_le. rewrite andb_true_iff, Nat.eqb_eq, forallb_forall.
  split; intros [Hlen Hall]; (split; [done|]).
  - intros k v Hin. apply list_elem_of_In in Hin. specialize (Hall _ Hin). simpl in Hall.
    destruct (dict_get b k) as [w|]; [eauto|done].
  - intros [k v] Hin. apply list_elem_of_In in Hin.
    destruct (Hall k v Hin) as (w & Hget & Hw).
    change (k, v).1 with k. change (k, v).2 with v. by rewrite Hget.
Qed.

Lemma dict_le_keys a b :
  NoDup a.*1 -> length a = length b -> dict_le a b ->
  forall k, k ∈ b.*1 -> k ∈ a.*1.
Proof.
  intros Hnd Hlen Hle k Hk.
  assert (incl a.*1 b.*1) as Hincl.
  { intros k' Hk'. apply list_elem_of_In in Hk'.
    apply list_elem_of_fmap in Hk' as ([k0 v] & -> & Hin).
    destruct (Hle k0 v Hin) as (w & Hw & _).
    apply list_elem_of_In, list_elem_of_fmap. exists (k0, w).
    split; [done|]. by apply dict_get_Some. }
  apply list_elem_of_In.
  eapply (NoDup_length_incl (l := a.*1) (l' := b.*1)).
  - by apply NoDup_ListNoDup.
  - rewrite !length_fmap. lia.
  - done.
  - by apply list_elem_of_In.
Qed.

Lemma dict_eq_refl a : NoDup a.*1 -> dict_eq a a = true.
Proof.
  intros Hnd. apply dict_eq_spec. split; [done|]. intros k v Hin.
  exists v. split; [by apply dict_get_elem|apply value_eq_refl].
Qed.

Lemma dict_eq_sym a b :
  NoDup a.*1 -> NoDup b.*1 -> dict_eq a b = true -> dict_eq b a = true.
Proof.
  intros Ha Hb [Hlen Hle]%dict_eq_spec. apply dict_eq_spec. split; [done|].
  intros k w Hin.
  assert (k ∈ a.*1) as Hk.
  { apply (dict_le_keys a b Ha Hlen Hle). apply list_elem_of_fmap. by exists (k, w). }
  apply list_elem_of_fmap in Hk as ([k0 v] & -> & Hin').
  destruct (Hle k0 v Hin') as (w' & Hw' & Hvw).
  rewrite (dict_get_elem b k0 w Hb Hin) in Hw'. injection Hw' as <-.
  exists v. split; [by apply dict_get_elem|]. by rewrite value_eq_sym.
Qed.

Lemma dict_eq_trans a b c :
  dict_eq a b = true -> dict_eq b c = true -> dict_eq a c = true.
Proof.
  intros [Hlen1 Hle1]%dict_eq_spec [Hlen2 Hle2]%dict_eq_spec.
  apply dict_eq_spec. split; [congruence|]. intros k v Hin.
  destruct (Hle1 k v Hin) as (w & Hw & Hvw).
  destruct (Hle2 k w (dict_get_Some _ _ _ Hw)) as (u & Hu & Hwu).
  exists u. split; [done|]. by eapply value_eq_trans.
Qed.

Lemma Event_eq_spec x y :
  Event_eq x y = true <->
  ev_name x = ev_name y /\ tuple_eq (ev_args x) (ev_args y) = true /\
  dict_eq (ev_kwargs x) (ev_kwargs y) = true /\
  ev_channel x = ev_channel y /\ ev_target x = ev_target y.
Proof.
  unfold Event_eq. simpl. rewrite negb_true_iff, !orb_false_iff, !negb_false_iff.
  rewrite String.eqb_eq, !routing_eq_eq. tauto.
Qed.

(** [Event.__eq__] on events whose keyword dictionaries hold each key
    once: it is reflexive, symmetric and transitive, it does not see which
    object an event is (two events made alike are equal), and events that
    are equal stay equal when both are stamped with the same routing and
    differ once only one of them is stamped with a channel. *)
Theorem event_eq_equivalence (x y z : Event) :
  kwargs_ok x -> kwargs_ok y ->
  Event_eq x x = true /\
  (Event_eq x y = true -> Event_eq y x = true) /\
  (Event_eq x y = true -> Event_eq y z = true -> Event_eq x z = true) /\
  (forall c t, Event_eq x y = true ->
     Event_eq (stamped c t x) (stamped c t y) = true) /\
  (forall c t, ev_channel y = None ->
     Event_eq (stamped (Some c) t x) y = false).
Proof.
  intros Hx Hy. split; [|split; [|split; [|split]]].
  - apply Event_eq_spec. split; [done|]. split; [apply tuple_eq_refl|].
    split; [by apply dict_eq_refl|done].
  - intros (Hn & Ha & Hk & Hc & Ht)%Event_eq_spec. apply Event_eq_spec.
    split; [done|]. split; [by rewrite tuple_eq_sym|].
    split; [by apply dict_eq_sym|done].
  - intros (Hn & Ha & Hk & Hc & Ht)%Event_eq_spec
           (Hn' & Ha' & Hk' & Hc' & Ht')%Event_eq_spec.
    apply Event_eq_spec. split; [congruence|]. split; [by eapply tuple_eq_trans|].
    split; [by eapply dict_eq_trans|]. split; congruence.
  - intros c t (Hn & Ha & Hk & Hc & Ht)%Event_eq_spec. apply Event_eq_spec. done.
  - intros c t Hnone. destruct (Event_eq _ y) eqn:E; [|done].
    apply Event_eq_spec in E as (_ & _ & _ & Hc & _). simpl in Hc. congruence.
Qed.

(** * Properties of the utilities *)

Lemma lower_char_not_upper c : is_upper (lower_char c) = false.
Proof. by destruct c as [[] [] [] [] [] [] [] []]. Qed.

Lemma lower_char_id c : is_upper c = false -> lower_char c = c.
Proof. unfold lower_char. by intros ->. Qed.

Lemma has_upper_lower s : has_upper (lower s) = false.
Proof.
  induction s as [|c s IH]; simpl; [done|]. by rewrite lower_char_not_upper.
Qed.

Lemma lower_id s : has_upper s = false -> lower s = s.
Proof.
  induction s as [|c s IH]; simpl; [done|].
  intros [Hc Hs]%orb_false_iff. by rewrite lower_char_id, IH.
Qed.

Lemma sub_uncamel_id s : has_upper s = false -> sub_uncamel s = s.
Proof.
  induction s as [|c s IH]; [done|].
  intros [Hc Hs]%orb_false_iff. cbn [sub_uncamel].
  destruct s as [|d r]; [done|].
  pose proof Hs as [Hd _]%orb_false_iff. rewrite Hd, andb_false_r.
  by rewrite IH.
Qed.

(** Induction two characters at a time, the way [sub_uncamel] scans. *)
Lemma string_ind2 (P : string -> Prop) :
  P EmptyString ->
  (forall c, P (String c EmptyString)) ->
  (forall c d r, P r -> P (String d r) -> P (String c (String d r))) ->
  forall s, P s.
Proof.
  intros H0 H1 H2.
  assert (forall s, P s /\ forall c, P (String c s)) as H; [|intros s; apply H].
  induction s as [|d r [IHr IHdr]]; split; auto.
Qed.

Lemma sub_uncamel_eq c d r :
  sub_uncamel (String c (String d r)) =
    if is_lower_or_digit c && is_upper d
    then String c (String "_"%char (String d (sub_uncamel r)))
    else String c (sub_uncamel (String d r)).
Proof. done. Qed.

Lemma sub_uncamel_length s :
  String.length s <= String.length (sub_uncamel s) /\
  2 * String.length (sub_uncamel s) <= 3 * String.length s.
Proof.
  induction s as [| |c d r IH1 IH2] using string_ind2; [simpl; lia..|].
  rewrite sub_uncamel_eq. destruct (is_lower_or_digit c && is_upper d).
  - cbn [String.length] in *. lia.
  - cbn [String.length] in *. lia.
Qed.

Lemma lower_length s : String.length (lower s) = String.length s.
Proof. induction s as [|c s IH]; simpl; congruence. Qed.

(** [uncamel]: the result holds no capital letter; a string without
    capital letters is returned as it is, so [uncamel] applied twice is
    [uncamel]; the result is at least as long as the argument and at most
    half as long again. *)
Theorem uncamel_lower_case (s : string) :
  has_upper (uncamel s) = false /\
  (has_upper s = false -> uncamel s = s) /\
  uncamel (uncamel s) = uncamel s /\
  String.length s <= String.length (uncamel s) /\
  2 * String.length (uncamel s) <= 3 * String.length s.
Proof.
  assert (forall t, has_upper t = false -> uncamel t = t) as Hid.
  { intros t Ht. unfold uncamel. by rewrite sub_uncamel_id, lower_id. }
  split; [apply has_upper_lower|]. split; [apply Hid|].
  split; [apply Hid, has_upper_lower|].
  unfold uncamel. rewrite lower_length. apply sub_uncamel_length.
Qed.

Section FindrootFacts.
Variable parent : nat -> nat.

Lemma findroot_iter fuel x r :
  findroot parent fuel x = Some r <->
  exists k, k < fuel /\ Nat.iter k parent x = r /\ parent r = r /\
            forall j, j < k -> parent (Nat.iter j parent x) ≠ Nat.iter j parent x.
Proof.
  revert x. induction fuel as [|fuel IH]; intros x; simpl.
  - split; [done|]. intros (k & Hk & _). lia.
  - destruct (Nat.eqb_spec (parent x) x) as [Heq|Hne].
    + split.
      * intros [= <-]. exists 0. split; [lia|]. split; [done|]. split; [done|].
        intros j Hj. lia.
      * intros (k & Hk & Hit & Hfix & Hmin). destruct k as [|k]; [by simpl in Hit; subst|].
        exfalso. apply (Hmin 0); [lia|done].
    + rewrite IH. split.
      * intros (k & Hk & Hit & Hfix & Hmin). exists (S k). split; [lia|].
        split; [by rewrite Nat.iter_succ_r|]. split; [done|].
        intros [|j] Hj; [done|]. rewrite Nat.iter_succ_r. apply Hmin. lia.
      * intros (k & Hk & Hit & Hfix & Hmin). destruct k as [|k].
        { simpl in Hit. subst. done. }
        exists k. split; [lia|]. split; [by rewrite <- Nat.iter_succ_r|].
        split; [done|]. intros j Hj. rewrite <- Nat.iter_succ_r. apply Hmin. lia.
Qed.

(** [findroot(x)] returns the first object on the chain
    [x, x.parent, x.parent.parent, ...] that is its own parent, when the
    recursion is deep enough to get there, and with no bound on the depth
    it returns exactly when the chain has such an object: on a chain that
    has none (a cycle of parents) it never returns. *)
Theorem findroot_first_own_parent (x r : nat) :
  (forall fuel, findroot parent fuel x = Some r <->
     exists k, k < fuel /\ Nat.iter k parent x = r /\ parent r = r /\
       forall j, j < k -> parent (Nat.iter j parent x) ≠ Nat.iter j parent x) /\
  ((exists fuel r', findroot parent fuel x = Some r') <->
     exists k, parent (Nat.iter k parent x) = Nat.iter k parent x).
Proof.
  split; [intros fuel; apply findroot_iter|]. split.
  - intros (fuel & r' & (k & _ & <- & Hfix & _)%findroot_iter). by exists k.
  - intros [k Hk].
    assert (exists k0, parent (Nat.iter k0 parent x) = Nat.iter k0 parent x /\
              forall j, j < k0 -> parent (Nat.iter j parent x) ≠ Nat.iter j parent x)
      as (k0 & Hk0 & Hmin).
    { assert (forall n, (forall j, j < n ->
                 parent (Nat.iter j parent x) ≠ Nat.iter j parent x) \/
               exists k0, parent (Nat.iter k0 parent x) = Nat.iter k0 parent x /\
                 forall j, j < k0 ->
                   parent (Nat.iter j parent x) ≠ Nat.iter j parent x) as Hleast.
      { induction n as [|n [IH|IH]]; [left; intros j Hj; lia| |by right].
        destruct (decide (parent (Nat.iter n parent x) = Nat.iter n parent x))
          as [Hn|Hn]; [right; by exists n|].
        left. intros j Hj. destruct (decide (j = n)) as [->|]; [done|].
        apply IH. lia. }
      destruct (Hleast (S k)) as [Hno|?]; [|done].
      exfalso. apply (Hno k); [lia|done]. }
    exists (S k0), (Nat.iter k0 parent x). apply findroot_iter.
    exists k0. split; [lia|]. done.
Qed.

(** When [findroot(x)] returns [r], [findroot] returns [r] for every
    object between [x] and [r] on the chain of parents, for [r] itself at
    once, and a deeper recursion changes nothing. *)
Theorem findroot_same_root_on_chain (fuel x r : nat) :
  findroot parent fuel x = Some r ->
  findroot parent 1 r = Some r /\
  findroot parent (S fuel) x = Some r /\
  forall j y, Nat.iter j parent x = y ->
    (forall i, i < j -> parent (Nat.iter i parent x) ≠ Nat.iter i parent x) ->
    findroot parent fuel y = Some r.
Proof.
  intros H. pose proof H as (k & Hk & Hit & Hfix & Hmin)%findroot_iter.
  split; [|split].
  - simpl. by rewrite Hfix, Nat.eqb_refl.
  - apply findroot_iter. exists k. split; [lia|]. done.
  - intros j y <- Hj.
    assert (j <= k) as Hle.
    { destruct (decide (j <= k)) as [|Hgt]; [done|]. exfalso.
      apply (Hj k); [lia|]. by rewrite Hit. }
    apply findroot_iter. exists (k - j). split; [lia|].
    rewrite <- Nat.iter_add. replace (k - j + j) with k by lia.
    split; [done|]. split; [done|]. intros i Hi.
    rewrite <- Nat.iter_add. apply Hmin. lia.
Qed.

End FindrootFacts.

(** ** [flatten] *)

Section FlattenFacts.
Variable components : nat -> list nat.


Lemma flatten_loop_ok rec (from : nat -> Prop) cs :
  (forall c v ys v1, c ∈ cs -> rec c ({[c]} ∪ v) = Some (ys, v1) -> c ∉ v ->
     visit_ok components from v ys v1 /\ c ∈ v1) ->
  forall v zs v2, flatten_loop rec cs v = Some (zs, v2) ->
    visit_ok components from v zs v2 /\ forall c, c ∈ cs -> c ∈ v2.
Proof.
  induction cs as [|c cs IH]; intros Hrec v zs v2; simpl.
  - intros [= <- <-]. split; [|by intros ? ?%elem_of_nil].
    split; [constructor|]. split; [|split; [done|split]].
    + intros y. split; [by intros ?%elem_of_nil|tauto].
    + by intros ? ?%elem_of_nil.
    + by intros ? ? ?%elem_of_nil.
  - assert (forall c0 v0 ys v1, c0 ∈ cs -> rec c0 ({[c0]} ∪ v0) = Some (ys, v1) ->
              c0 ∉ v0 -> visit_ok components from v0 ys v1 /\ c0 ∈ v1) as Hrec'.
    { intros c0 v0 ys v1 Hin. apply Hrec. apply elem_of_cons. auto. }
    destruct (decide (c ∈ v)) as [Hcv|Hcv].
    + intros Hl. destruct (IH Hrec' _ _ _ Hl) as [Hok Hall]. split; [done|].
      intros c0 [->|Hin]%elem_of_cons; [|by apply Hall].
      destruct Hok as (_ & _ & Hsub & _). by apply Hsub.
    + destruct (rec c ({[c]} ∪ v)) as [[ys v1]|] eqn:Hr; [|done].
      destruct (flatten_loop rec cs v1) as [[zs' v2']|] eqn:Hl; [|done].
      intros [= <- <-].
      destruct (Hrec c v ys v1 ltac:(apply elem_of_cons; auto) Hr Hcv)
        as [(Hnd1 & Hin1 & Hsub1 & Hfrom1 & Hcl1) Hc1].
      destruct (IH Hrec' _ _ _ Hl) as [(Hnd2 & Hin2 & Hsub2 & Hfrom2 & Hcl2) Hall].
      split.
      * split; [|split; [|split; [|split]]].
        -- apply NoDup_app. split; [done|]. split; [|done].
           intros y Hy1 Hy2. apply Hin1 in Hy1. apply Hin2 in Hy2. tauto.
        -- intros y. rewrite elem_of_app, Hin1, Hin2. split.
           ++ intros [[Hy1 Hy2]|[Hy1 Hy2]]; split; auto.
           ++ intros [Hy1 Hy2]. destruct (decide (y ∈ v1)); auto.
        -- by etrans.
        -- intros y [Hy|Hy]%elem_of_app; auto.
        -- intros y c0 [Hy|Hy]%elem_of_app Hc0; [|by eapply Hcl2].
           apply Hsub2. by eapply Hcl1.
      * intros c0 [->|Hin]%elem_of_cons; [|by apply Hall].
        by apply Hsub2.
Qed.

Lemma flatten_from_step fuel x v :
  flatten_from components (S fuel) x v =
    match flatten_loop (flatten_call components fuel) (components x)
            (working_set v) with
    | None => None
    | Some (ys, w') => Some (x :: ys, if is_falsy v then v else Some w')
    end.
Proof. done. Qed.

Lemma is_falsy_nonempty (w : gset nat) : w ≠ ∅ -> is_falsy (Some w) = false.
Proof. intros Hw. simpl. by apply bool_decide_eq_false. Qed.

Lemma working_set_Some (w : gset nat) : working_set (Some w) = w.
Proof.
  unfold working_set. simpl. case_bool_decide as Hw; [by rewrite Hw|done].
Qed.

Lemma flatten_call_step fuel c w :
  w ≠ ∅ ->
  flatten_call components (S fuel) c w =
    match flatten_loop (flatten_call components fuel) (components c) w with
    | None => None
    | Some (ys, w') => Some (c :: ys, w')
    end.
Proof.
  intros Hw. unfold flatten_call at 1. rewrite flatten_from_step.
  rewrite working_set_Some, (is_falsy_nonempty w Hw).
  by destruct (flatten_loop _ _ _) as [[ys w']|].
Qed.

Lemma flatten_body_ok fuel x w tl w' :
  flatten_loop (flatten_call components fuel) (components x) w = Some (tl, w') ->
  visit_ok components (tc (component_of components) x) w tl w' /\
  forall c, c ∈ components x -> c ∈ w'.
Proof.
  revert x w tl w'. induction fuel as [|fuel IH]; intros x w tl w' Hl.
  - apply (flatten_loop_ok _ (tc (component_of components) x)) in Hl; [done|].
    intros c v0 ys v2 _ Hr _. done.
  - apply (flatten_loop_ok _ (tc (component_of components) x)) in Hl; [done|].
    intros c v0 ys v2 Hc Hr Hcv.
    rewrite flatten_call_step in Hr by set_solver.
    destruct (flatten_loop (flatten_call components fuel) (components c)
                ({[c]} ∪ v0)) as [[tlc v1]|] eqn:Hlc; [|done].
    injection Hr as <- <-.
    destruct (IH _ _ _ _ Hlc) as [(Hnd & Hin & Hsub & Hfrom & Hcl) Hch].
    assert (c ∈ v1) as Hcv1 by (apply Hsub; set_solver).
    split; [|done].
    split; [|split; [|split; [|split]]].
    + apply NoDup_cons. split; [|done]. intros Hc'%Hin. set_solver.
    + intros y. rewrite elem_of_cons, Hin. split.
      * intros [->|[Hy1 Hy2]]; [done|]. split; [done|]. set_solver.
      * intros [Hy1 Hy2]. destruct (decide (y = c)) as [->|Hne]; [by left|].
        right. split; [done|]. set_solver.
    + set_solver.
    + intros y [->|Hy]%elem_of_cons.
      * by apply tc_once.
      * eapply tc_l; [exact Hc|]. by apply Hfrom.
    + intros y c0 [->|Hy]%elem_of_cons Hc0; [by apply Hch|]. by eapply Hcl.
Qed.

Lemma flatten_body_returns U fuel x w :
  closed components U -> x ∈ U -> size (U ∖ w) <= fuel ->
  is_Some (flatten_loop (flatten_call components fuel) (components x) w).
Proof.
  intros HU. revert x w. induction fuel as [|fuel IH]; intros x w Hx Hsz.
  - assert (forall cs v0, (forall c, c ∈ cs -> c ∈ U) -> size (U ∖ v0) = 0 ->
              is_Some (flatten_loop (flatten_call components 0) cs v0))
      as Hloop.
    { induction cs as [|c cs IHcs]; intros v0 Hcs Hz; simpl; [eauto|].
      destruct (decide (c ∈ v0)) as [Hcv|Hcv].
      - apply IHcs; [|done]. intros c0 Hc0. apply Hcs, elem_of_cons. auto.
      - exfalso. apply size_empty_inv in Hz.
        assert (c ∈ U) as HcU by (apply Hcs, elem_of_cons; auto).
        assert (c ∈ U ∖ v0) as Hin by set_solver.
        rewrite Hz in Hin. set_solver. }
    apply Hloop; [|lia]. intros c Hc. by eapply HU.
  - assert (forall cs v0, (forall c, c ∈ cs -> c ∈ U) -> size (U ∖ v0) <= S fuel ->
              is_Some (flatten_loop (flatten_call components (S fuel)) cs v0))
      as Hloop.
    { clear x w Hx Hsz.
      induction cs as [|c cs IHcs]; intros v0 Hcs Hsz; simpl; [eauto|].
      assert (forall c0, c0 ∈ cs -> c0 ∈ U) as Hcs'.
      { intros c0 Hc0. apply Hcs. apply elem_of_cons. auto. }
      destruct (decide (c ∈ v0)) as [Hcv|Hcv]; [by apply IHcs|].
      assert (c ∈ U) as HcU by (apply Hcs; apply elem_of_cons; auto).
      assert (size (U ∖ ({[c]} ∪ v0)) < size (U ∖ v0)) as Hlt.
      { apply subset_size. split; [set_solver|]. intros Hsub.
        assert (c ∈ U ∖ ({[c]} ∪ v0)) as Hbad by (apply Hsub; set_solver).
        set_solver. }
      rewrite flatten_call_step by set_solver.
      destruct (IH c ({[c]} ∪ v0) HcU ltac:(lia)) as [[ys v1] Hr].
      rewrite Hr.
      destruct (flatten_body_ok _ _ _ _ _ Hr) as [(_ & _ & Hsub & _) _].
      assert (size (U ∖ v1) <= S fuel) as Hsz1.
      { etrans; [|exact Hsz]. apply subseteq_size. set_solver. }
      destruct (IHcs v1 Hcs' Hsz1) as [[zs v2] Hl]. rewrite Hl. eauto. }
    apply Hloop; [|done]. intros c Hc. by eapply HU.
Qed.

(** [flatten(x)] on a finite set of objects that holds [x] and the
    components of its members: the generator ends; it yields [x] first
    and then, each exactly once, the objects reached from [x] through one
    or more [components] steps.  So [x] itself is yielded a second time
    exactly when it is a component of something below it. *)
Theorem flatten_yields_reachable_once (U : gset nat) (fuel x : nat) :
  closed components U -> x ∈ U -> size U < fuel ->
  exists tl, flatten components fuel x = Some (x :: tl) /\
    NoDup tl /\ (forall y, y ∈ tl <-> tc (component_of components) x y) /\
    (forall y, y ∈ tl -> y ∈ U).
Proof.
  intros HU Hx Hsz. unfold flatten.
  destruct fuel as [|fuel]; [lia|]. rewrite flatten_from_step.
  change (working_set None) with (∅ : gset nat).
  destruct (flatten_body_returns U fuel x ∅ HU Hx) as [[tl v'] Hr].
  { etrans; [apply subseteq_size|]; [|apply Nat.lt_succ_r, Hsz]. set_solver. }
  rewrite Hr. simpl.
  destruct (flatten_body_ok _ _ _ _ _ Hr) as [(Hnd & Hin & _ & Hfrom & Hcl) Hch].
  exists tl. split; [done|]. split; [done|].
  assert (forall y, tc (component_of components) x y -> y ∈ tl) as Hall.
  { assert (forall a y, tc (component_of components) a y ->
              (forall c, component_of components a c -> c ∈ v') -> y ∈ v') as Htc.
    { intros a y Hay. induction Hay as [a y Hay|a b y Hab Hby IH]; intros Ha.
      - by apply Ha.
      - apply IH. intros c Hc. apply (Hcl b c); [|done].
        apply Hin. split; [by apply Ha|set_solver]. }
    intros y Hy. apply Hin. split; [|set_solver]. by apply (Htc x). }
  split; [|].
  - intros y. split; [apply Hfrom|apply Hall].
  - intros y Hy%Hfrom. clear -HU Hx Hy. induction Hy as [a y Hay|a b y Hab Hby IH].
    + by eapply HU.
    + apply IH. by eapply HU.
Qed.

(** [flatten(x, v)] with a set [v] passed: the generator ends; after [x]
    it yields no object of [v] and none twice, and every object it yields
    is reached from [x].  When [v] is not empty the generator works on
    [v] itself: afterwards [v] holds what it held and what was yielded
    after [x], every component of [x] among it.  When [v] is empty the
    generator works on a set of its own: [v] is still empty afterwards,
    and what is yielded is what [flatten(x)] yields. *)
Theorem flatten_skips_seen (U : gset nat) (fuel x : nat) (v : gset nat) :
  closed components U -> x ∈ U -> size (U ∖ v) < fuel ->
  exists tl v',
    flatten_from components fuel x (Some v) = Some (x :: tl, Some v') /\
    NoDup tl /\ (forall y, y ∈ tl -> y ∉ v /\ tc (component_of components) x y) /\
    (v ≠ ∅ ->
       v' = v ∪ list_to_set tl /\ forall c, c ∈ components x -> c ∈ v') /\
    (v = ∅ -> v' = ∅ /\ flatten components fuel x = Some (x :: tl)).
Proof.
  intros HU Hx Hsz. destruct fuel as [|fuel]; [lia|].
  destruct (flatten_body_returns U fuel x v HU Hx ltac:(lia)) as [[tl w'] Hr].
  destruct (flatten_body_ok _ _ _ _ _ Hr) as [(Hnd & Hin & Hsub & Hfrom & Hcl) Hch].
  exists tl, (if is_falsy (Some v) then v else w').
  split; [|split; [done|split; [|split]]].
  - rewrite flatten_from_step, working_set_Some, Hr.
    by destruct (is_falsy (Some v)).
  - intros y Hy. split; [by apply Hin|by apply Hfrom].
  - intros Hv. rewrite (is_falsy_nonempty v Hv). split; [|done].
    apply set_eq. intros y. rewrite elem_of_union, elem_of_list_to_set, Hin.
    split.
    + intros Hy. destruct (decide (y ∈ v)); auto.
    + intros [Hy|[Hy _]]; [by apply Hsub|done].
  - intros ->. split; [done|]. unfold flatten. rewrite flatten_from_step.
    change (working_set None) with (∅ : gset nat). by rewrite Hr.
Qed.
End FlattenFacts.

(** ** [itercmp], [findcmp] *)

Section FindFacts.
Variable components : nat -> list nat.
Variable issubclass_c : nat -> bool.
Variable isinstance_c : nat -> bool.

Lemma itercmp_loop_ext rec rec' hit hit' cs :
  (forall c, rec c = rec' c) -> (forall c, hit c = hit' c) ->
  itercmp_loop rec hit cs = itercmp_loop rec' hit' cs.
Proof.
  intros Hrec Hhit. induction cs as [|c cs IH]; simpl; [done|].
  by rewrite Hhit, Hrec, IH.
Qed.

Lemma findcmp_loop_ext rec rec' hit hit' cs :
  (forall c, rec c = rec' c) -> (forall c, hit c = hit' c) ->
  findcmp_loop rec hit cs = findcmp_loop rec' hit' cs.
Proof.
  intros Hrec Hhit. induction cs as [|c cs IH]; simpl; [done|].
  by rewrite Hhit, Hrec, IH.
Qed.

Lemma itercmp_found (rank : nat -> nat) s :
  (forall y c, c ∈ components y -> rank c < rank y) ->
  forall fuel x, rank x < fuel ->
    exists ys,
      itercmp components issubclass_c isinstance_c fuel x s = Some ys /\
      findcmp components issubclass_c isinstance_c fuel x s = Some (head ys) /\
      found components issubclass_c isinstance_c s x ys.
Proof.
  intros Hrank. induction fuel as [|fuel IH]; intros x Hx; [lia|]. simpl.
  set (hit := is_cmp issubclass_c isinstance_c s) in *.
  set (below := component_of components) in *.
  destruct (hit x) eqn:Hhit.
  { exists [x]. split; [done|]. split; [done|]. split; [|done].
    constructor; [|constructor]. done. }
  assert (forall cs, (forall c, c ∈ cs -> c ∈ components x) ->
            exists ys,
              itercmp_loop
                (fun c => itercmp components issubclass_c isinstance_c fuel c s)
                hit cs = Some ys /\
              findcmp_loop
                (fun c => findcmp components issubclass_c isinstance_c fuel c s)
                hit cs = Some (head ys) /\
              Forall (fun y => hit y = true /\ rtc below x y) ys /\
              (ys = [] ->
               forall c y, c ∈ cs -> rtc below c y -> hit y = false))
    as Hloop.
  { induction cs as [|c cs IHcs]; intros Hcs; simpl.
    - exists []. split; [done|]. split; [done|]. split; [constructor|].
      by intros _ c y ?%elem_of_nil.
    - assert (c ∈ components x) as Hc by (apply Hcs, elem_of_cons; auto).
      destruct IHcs as (zs & Hz1 & Hz2 & Hz3 & Hz4).
      { intros c0 Hc0. apply Hcs, elem_of_cons. auto. }
      rewrite Hz1. destruct (hit c) eqn:Hhc.
      + exists (c :: zs). split; [done|]. split; [done|]. split; [|done].
        constructor; [|done]. split; [done|]. by apply rtc_once.
      + destruct (IH c) as (ys & Hy1 & Hy2 & Hy3 & Hy4).
        { specialize (Hrank _ _ Hc). lia. }
        rewrite Hy1, Hy2. exists (ys ++ zs). split; [done|]. split.
        { destruct ys as [|y ys]; [done|]. done. }
        split.
        * apply Forall_app. split; [|done].
          eapply Forall_impl; [exact Hy3|]. intros y [? ?]. split; [done|].
          by eapply rtc_l.
        * intros [-> ->]%app_eq_nil c0 y [->|Hc0]%elem_of_cons Hy.
          -- by apply Hy4.
          -- by eapply Hz4. }
  destruct (Hloop (components x)) as (ys & H1 & H2 & H3 & H4); [done|].
  exists ys. split; [done|]. split; [done|]. split; [done|].
  intros -> y Hy. destruct (rtc_inv _ _ Hy) as [<-|(c & Hc & Hcy)]; [done|].
  by eapply H4.
Qed.

(** [findcmp] on a tree of components (each component lies lower than
    the object that holds it): the search ends; it returns what
    [itercmp] yields first; an object it returns passes the class test and
    is [x] or is reached from [x] through [components]; it returns [None]
    only when neither [x] nor anything reached from it passes the test;
    and when [x] passes, [x] alone is yielded. *)
Theorem findcmp_finds (rank : nat -> nat) (s : bool) (fuel x : nat) :
  (forall y c, c ∈ components y -> rank c < rank y) ->
  rank x < fuel ->
  exists ys,
    itercmp components issubclass_c isinstance_c fuel x s = Some ys /\
    findcmp components issubclass_c isinstance_c fuel x s = Some (head ys) /\
    (forall y, head ys = Some y ->
       is_cmp issubclass_c isinstance_c s y = true /\
       rtc (component_of components) x y) /\
    (head ys = None ->
       forall y, rtc (component_of components) x y ->
         is_cmp issubclass_c isinstance_c s y = false) /\
    (is_cmp issubclass_c isinstance_c s x = true -> ys = [x]).
Proof.
  intros Hrank Hx.
  destruct (itercmp_found rank s Hrank fuel x Hx) as (ys & H1 & H2 & H3 & H4).
  exists ys. split; [done|]. split; [done|]. split; [|split].
  - intros y Hy. destruct ys as [|y0 ys]; [done|]. injection Hy as ->.
    by apply Forall_cons in H3 as [? _].
  - intros Hn. apply H4. by destruct ys.
  - intros Hhit. destruct fuel as [|fuel]; [lia|]. simpl in H1.
    rewrite Hhit in H1. by injection H1 as <-.
Qed.

(** The [subclass] argument changes nothing when every object whose
    class is a subclass of [c] is an instance of [c]: [itercmp] and
    [findcmp] give the same with [subclass=True] and [subclass=False]. *)
Theorem subclass_flag_is_redundant (fuel x : nat) :
  (forall y, issubclass_c y = true -> isinstance_c y = true) ->
  itercmp components issubclass_c isinstance_c fuel x true =
    itercmp components issubclass_c isinstance_c fuel x false /\
  findcmp components issubclass_c isinstance_c fuel x true =
    findcmp components issubclass_c isinstance_c fuel x false.
Proof.
  intros Hsub.
  assert (forall y, is_cmp issubclass_c isinstance_c true y =
                    is_cmp issubclass_c isinstance_c false y) as Hsame.
  { intros y. unfold is_cmp. simpl.
    destruct (issubclass_c y) eqn:E; [|done]. by rewrite (Hsub y E). }
  revert x. induction fuel as [|fuel IH]; intros x; [done|]. simpl.
  rewrite Hsame. destruct (is_cmp issubclass_c isinstance_c false x); [done|]. split.
  - apply itercmp_loop_ext; [|done]. intros c. apply IH.
  - apply findcmp_loop_ext; [|done]. intros c. apply IH.
Qed.
End FindFacts.

(** * Instances of the further properties *)

Lemma loop_components_closed : closed loop_components {[0; 1; 2]}.
Proof.
  intros y c Hy Hc.
  assert (y = 0 \/ y = 1 \/ y = 2) as [-> | [-> | ->]] by set_solver;
    simpl in Hc; set_solver.
Qed.

Lemma tree_rank_decreases y c : c ∈ tree_components y -> tree_rank c < tree_rank y.
Proof.
  destruct y as [|y]; simpl; [|by intros ?%elem_of_nil].
  intros Hc. assert (c = 1 \/ c = 2) as [-> | ->] by set_solver; simpl; lia.
Qed.

Lemma bare_star_resolves_globals_twice_witness :
  let m := (add plain_listener None (Manager_init 0)).2 in
  handlers "*" m = (Ok [plain_listener; plain_listener], (handlers "*" m).2) /\
  2 * count_occ Handler_eq_dec (chan m "*") plain_listener <=
    count_occ Handler_eq_dec [plain_listener; plain_listener] plain_listener.
Proof.
  intros m.
  assert (handlers "*" m = (Ok [plain_listener; plain_listener], (handlers "*" m).2))
    as H1 by (apply pair_eta; vm_compute; reflexivity).
  split; [exact H1|].
  exact (bare_star_resolves_globals_twice m _ plain_listener _ H1).
Defined.

Lemma none_target_list_is_resolved_witness :
  type_ok plain_listener = true /\ has_colon "c" = false /\ "c" ≠ "*" /\
  delivered (add plain_listener (Some "None:*") (Manager_init 0)).2 "c" plain_listener.
Proof.
  assert (type_ok plain_listener = true) as H1 by reflexivity.
  assert (has_colon "c" = false) as H2 by reflexivity.
  assert ("c" ≠ "*") as H3 by discriminate.
  split; [exact H1|]. split; [exact H2|]. split; [exact H3|].
  exact (none_target_list_is_resolved (Manager_init 0) plain_listener "c" H1 H2 H3).
Defined.

Lemma resolution_keeps_duplicates_witness :
  let m := (add plain_listener (Some "c")
              (add plain_listener (Some "*") (Manager_init 0)).2).2 in
  type_ok plain_listener = true /\ has_colon "c" = false /\ "c" ≠ "*" /\
  handlers "c" m = (Ok [plain_listener; plain_listener], (handlers "c" m).2) /\
  2 <= count_occ Handler_eq_dec [plain_listener; plain_listener] plain_listener.
Proof.
  intros m.
  assert (type_ok plain_listener = true) as H1 by reflexivity.
  assert (has_colon "c" = false) as H2 by reflexivity.
  assert ("c" ≠ "*") as H3 by discriminate.
  assert (handlers "c" m = (Ok [plain_listener; plain_listener], (handlers "c" m).2))
    as H4 by (apply pair_eta; vm_compute; reflexivity).
  split; [exact H1|]. split; [exact H2|]. split; [exact H3|]. split; [exact H4|].
  exact (resolution_keeps_duplicates (Manager_init 0) _ plain_listener "c" _ H1 H2 H3 H4).
Defined.

Lemma add_remove_round_trip_witness :
  let m := run_ops [OpAdd plain_listener (Some "c")] (Manager_init 0) in
  reachable m /\ type_ok stop_filter = true /\
  stop_filter ∉ m_handlers m /\ stop_filter ∉ chan m "c" /\
  same_lists (remove stop_filter (Some "c") (add stop_filter (Some "c") m).2).2 m.
Proof.
  intros m.
  assert (reachable m) as H1.
  { exists [OpAdd plain_listener (Some "c")], (Manager_init 0).
    split; [split; reflexivity|reflexivity]. }
  assert (type_ok stop_filter = true) as H2 by reflexivity.
  assert (stop_filter ∉ m_handlers m) as H3
    by (apply (bool_decide_unpack _); vm_compute; reflexivity).
  assert (stop_filter ∉ chan m "c") as H4
    by (apply (bool_decide_unpack _); vm_compute; reflexivity).
  split; [exact H1|]. split; [exact H2|]. split; [exact H3|]. split; [exact H4|].
  exact (add_remove_round_trip m stop_filter "c" H1 H2 H3 H4).
Defined.

Lemma remove_one_channel_forgets_handler_witness :
  has_colon "c" = false /\ "c" ≠ "d" /\ plain_listener ∈ chan sample_root "c" /\
  let m' := (remove plain_listener (Some "d") sample_root).2 in
  plain_listener ∈ chan m' "c" /\ delivered m' "c" plain_listener /\
  ~ delivered m' "*:*" plain_listener.
Proof.
  assert (has_colon "c" = false) as H1 by reflexivity.
  assert ("c" ≠ "d") as H2 by discriminate.
  assert (plain_listener ∈ chan sample_root "c") as H3
    by (apply (bool_decide_unpack _); vm_compute; reflexivity).
  split; [exact H1|]. split; [exact H2|]. split; [exact H3|].
  exact (remove_one_channel_forgets_handler sample_root plain_listener "d" "c" H1 H2 H3).
Defined.

Lemma second_flush_is_noop_witness :
  is_root queue_sys 0 /\
  let σ1 := (flush call_none 1 0 queue_sys).2 in
  queue_of σ1 0 = [] /\ flush call_none 1 0 σ1 = (Ok tt, σ1).
Proof.
  assert (is_root queue_sys 0) as H1.
  { exists (set_queue [0] (Manager_init 0)). split; reflexivity. }
  split; [exact H1|].
  exact (second_flush_is_noop call_none queue_sys 0 0 0 H1).
Defined.

Lemma push_only_enqueues_witness :
  let mr := set_queue [0] (Manager_init 0) in
  let e := Event_new "E2" [] [] in
  root_of (parents queue_sys) 1 0 = Some 0 /\ 1 <= 1 /\
  objs queue_sys !! 0 = Some mr /\ events queue_sys !! 1 = Some e /\
  let out := push 1 0 1 (Some "d") None queue_sys in
  out = (Ok tt,
         {| objs := <[0 := set_queue (m_queue mr ++ [1]) mr]> (objs queue_sys);
            events := <[1 := stamped (Some "d") None e]> (events queue_sys);
            world := world queue_sys; log := log queue_sys |}) /\
  (Manager_len <$> objs out.2 !! 0) = Some (S (Manager_len mr)) /\
  (forall j, j ≠ 0 -> objs out.2 !! j = objs queue_sys !! j).
Proof.
  intros mr e.
  assert (root_of (parents queue_sys) 1 0 = Some 0) as H1 by reflexivity.
  assert (1 <= 1) as H2 by lia.
  assert (objs queue_sys !! 0 = Some mr) as H3 by reflexivity.
  assert (events queue_sys !! 1 = Some e) as H4 by reflexivity.
  split; [exact H1|]. split; [exact H2|]. split; [exact H3|]. split; [exact H4|].
  exact (push_only_enqueues queue_sys 1 0 0 1 1 (Some "d") None mr e H1 H2 H3 H4).
Defined.

Lemma send_restamps_queued_event_witness :
  (forall h inv w, (call_none h inv w).1 ≠ Raised) /\
  objs sample_sys !! 0 = Some sample_root /\ m_manager sample_root = 0 /\
  m_queue sample_root = [] /\
  events sample_sys !! 0 = Some (Event_new "Ping" [VInt 1] []) /\
  send_key (Some "d") (Some "t") = Some "t:d" /\
  let out := push_send_flush call_none 0 0 "c" "d" None (Some "t") sample_sys in
  out.1 = Ok tt /\
  dispatched_keys (drop (length (log sample_sys)) (log out.2)) = [(0, "t:d"); (0, "t:d")] /\
  events out.2 !! 0 = Some (stamped (Some "d") (Some "t") (Event_new "Ping" [VInt 1] [])).
Proof.
  assert (forall h inv w, (call_none h inv w).1 ≠ Raised) as H1 by (intros; discriminate).
  assert (objs sample_sys !! 0 = Some sample_root) as H2 by reflexivity.
  assert (m_manager sample_root = 0) as H3 by reflexivity.
  assert (m_queue sample_root = []) as H4 by reflexivity.
  assert (events sample_sys !! 0 = Some (Event_new "Ping" [VInt 1] [])) as H5
    by reflexivity.
  assert (send_key (Some "d") (Some "t") = Some "t:d") as H6 by reflexivity.
  split; [exact H1|]. split; [exact H2|]. split; [exact H3|].
  split; [exact H4|]. split; [exact H5|]. split; [exact H6|].
  exact (send_restamps_queued_event call_none sample_sys 0 0 "c" "d" None (Some "t")
           sample_root _ "t:d" H1 H2 H3 H4 H5 H6).
Defined.

Lemma component_construction_witness :
  Forall (fun h => type_ok h = true) (tagged_members [plain_listener; stop_filter]) /\
  exists c,
    new_component call_none 1 (Some "foo") [plain_listener; stop_filter] empty_sys =
      (Ok (length (objs empty_sys)), set_objs (objs empty_sys ++ [c]) empty_sys) /\
    m_manager c = length (objs empty_sys) /\ m_queue c = [] /\
    m_kind c = KComponent /\ c_channel c = Some "foo" /\
    c_members c = [plain_listener; stop_filter] /\
    m_handlers c = list_to_set (tagged_members [plain_listener; stop_filter]) /\
    forall h ch, h ∈ [plain_listener; stop_filter] -> is_Some (h_type h) ->
      ch ∈ declared h -> h ∈ chan c (qualified (Some "foo") ch).
Proof.
  assert (Forall (fun h => type_ok h = true)
            (tagged_members [plain_listener; stop_filter])) as H1.
  { apply Forall_cons. split; [reflexivity|].
    apply Forall_cons. split; [reflexivity|]. apply Forall_nil_2. }
  split; [exact H1|].
  exact (component_construction call_none empty_sys 1 (Some "foo")
           [plain_listener; stop_filter] H1).
Defined.

Lemma register_stops_at_invalid_handler_witness :
  objs odd_sys !! 1 = Some odd_component /\ m_kind odd_component = KComponent /\
  objs odd_sys !! 0 = Some (Manager_init 0) /\
  tagged_members (c_members odd_component) = [plain_listener] ++ odd_handler :: [] /\
  Forall (fun h => type_ok h = true) [plain_listener] /\
  type_ok odd_handler = false /\
  exists σ',
    register call_none 1 1 0 odd_sys = (Raise (InvalidHandler odd_handler), σ') /\
    parents σ' = parents odd_sys /\ events σ' = events odd_sys /\
    log σ' = log odd_sys /\
    forall h ch, h ∈ [plain_listener] -> ch ∈ declared h ->
      subscribed σ' 0 h (qualified (c_channel odd_component) ch).
Proof.
  assert (objs odd_sys !! 1 = Some odd_component) as H1 by reflexivity.
  assert (m_kind odd_component = KComponent) as H2 by reflexivity.
  assert (objs odd_sys !! 0 = Some (Manager_init 0)) as H3 by reflexivity.
  assert (tagged_members (c_members odd_component) =
          [plain_listener] ++ odd_handler :: []) as H4 by reflexivity.
  assert (Forall (fun h => type_ok h = true) [plain_listener]) as H5.
  { apply Forall_cons. split; [reflexivity|apply Forall_nil_2]. }
  assert (type_ok odd_handler = false) as H6 by reflexivity.
  split; [exact H1|]. split; [exact H2|]. split; [exact H3|].
  split; [exact H4|]. split; [exact H5|]. split; [exact H6|].
  exact (register_stops_at_invalid_handler call_none odd_sys 1 1 0 odd_component
           (Manager_init 0) [plain_listener] [] odd_handler H1 H2 H3 H4 H5 H6).
Defined.

Lemma event_eq_equivalence_witness :
  kwargs_ok ping_one /\ kwargs_ok ping_true /\
  Event_eq ping_one ping_one = true /\
  (Event_eq ping_one ping_true = true -> Event_eq ping_true ping_one = true) /\
  (Event_eq ping_one ping_true = true -> Event_eq ping_true ping_one = true ->
   Event_eq ping_one ping_one = true) /\
  (forall c t, Event_eq ping_one ping_true = true ->
     Event_eq (stamped c t ping_one) (stamped c t ping_true) = true) /\
  (forall c t, ev_channel ping_true = None ->
     Event_eq (stamped (Some c) t ping_one) ping_true = false).
Proof.
  assert (kwargs_ok ping_one) as H1 by apply NoDup_singleton.
  assert (kwargs_ok ping_true) as H2 by apply NoDup_singleton.
  split; [exact H1|]. split; [exact H2|].
  exact (event_eq_equivalence ping_one ping_true ping_one H1 H2).
Defined.

Lemma findroot_same_root_on_chain_witness :
  findroot sample_parent 3 2 = Some 0 /\
  findroot sample_parent 1 0 = Some 0 /\
  findroot sample_parent 4 2 = Some 0 /\
  forall j y, Nat.iter j sample_parent 2 = y ->
    (forall i, i < j ->
       sample_parent (Nat.iter i sample_parent 2) ≠ Nat.iter i sample_parent 2) ->
    findroot sample_parent 3 y = Some 0.
Proof.
  assert (findroot sample_parent 3 2 = Some 0) as H1 by reflexivity.
  split; [exact H1|].
  exact (findroot_same_root_on_chain sample_parent 3 2 0 H1).
Defined.

Lemma flatten_yields_reachable_once_witness :
  closed loop_components {[0; 1; 2]} /\ 0 ∈ ({[0; 1; 2]} : gset nat) /\
  size ({[0; 1; 2]} : gset nat) < 4 /\
  exists tl, flatten loop_components 4 0 = Some (0 :: tl) /\
    NoDup tl /\ (forall y, y ∈ tl <-> tc (component_of loop_components) 0 y) /\
    (forall y, y ∈ tl -> y ∈ ({[0; 1; 2]} : gset nat)).
Proof.
  assert (closed loop_components {[0; 1; 2]}) as H1 by exact loop_components_closed.
  assert (0 ∈ ({[0; 1; 2]} : gset nat)) as H2
    by (apply (bool_decide_unpack _); vm_compute; reflexivity).
  assert (size ({[0; 1; 2]} : gset nat) < 4) as H3 by (vm_compute; lia).
  split; [exact H1|]. split; [exact H2|]. split; [exact H3|].
  exact (flatten_yields_reachable_once loop_components {[0; 1; 2]} 4 0 H1 H2 H3).
Defined.

Lemma flatten_skips_seen_witness :
  closed loop_components {[0; 1; 2]} /\ 0 ∈ ({[0; 1; 2]} : gset nat) /\
  size (({[0; 1; 2]} : gset nat) ∖ {[2]}) < 3 /\
  exists tl v',
    flatten_from loop_components 3 0 (Some {[2]}) = Some (0 :: tl, Some v') /\
    NoDup tl /\
    (forall y, y ∈ tl ->
       y ∉ ({[2]} : gset nat) /\ tc (component_of loop_components) 0 y) /\
    (({[2]} : gset nat) ≠ ∅ ->
       v' = {[2]} ∪ list_to_set tl /\ forall c, c ∈ loop_components 0 -> c ∈ v') /\
    (({[2]} : gset nat) = ∅ ->
       v' = ∅ /\ flatten loop_components 3 0 = Some (0 :: tl)).
Proof.
  assert (closed loop_components {[0; 1; 2]}) as H1 by exact loop_components_closed.
  assert (0 ∈ ({[0; 1; 2]} : gset nat)) as H2
    by (apply (bool_decide_unpack _); vm_compute; reflexivity).
  assert (size (({[0; 1; 2]} : gset nat) ∖ {[2]}) < 3) as H3 by (vm_compute; lia).
  split; [exact H1|]. split; [exact H2|]. split; [exact H3|].
  exact (flatten_skips_seen loop_components {[0; 1; 2]} 3 0 {[2]} H1 H2 H3).
Defined.

Lemma findcmp_finds_witness :
  (forall y c, c ∈ tree_components y -> tree_rank c < tree_rank y) /\
  tree_rank 0 < 2 /\
  exists ys,
    itercmp tree_components (fun _ => false) is_two 2 0 true = Some ys /\
    findcmp tree_components (fun _ => false) is_two 2 0 true = Some (head ys) /\
    (forall y, head ys = Some y ->
       is_cmp (fun _ => false) is_two true y = true /\
       rtc (component_of tree_components) 0 y) /\
    (head ys = None -> forall y, rtc (component_of tree_components) 0 y ->
       is_cmp (fun _ => false) is_two true y = false) /\
    (is_cmp (fun _ => false) is_two true 0 = true -> ys = [0]).
Proof.
  assert (forall y c, c ∈ tree_components y -> tree_rank c < tree_rank y) as H1
    by exact tree_rank_decreases.
  assert (tree_rank 0 < 2) as H2 by (simpl; lia).
  split; [exact H1|]. split; [exact H2|].
  exact (findcmp_finds tree_components (fun _ => false) is_two tree_rank true 2 0 H1 H2).
Defined.

Lemma subclass_flag_is_redundant_witness :
  (forall y, is_two y = true -> is_two y = true) /\
  itercmp tree_components is_two is_two 2 0 true =
    itercmp tree_components is_two is_two 2 0 false /\
  findcmp tree_components is_two is_two 2 0 true =
    findcmp tree_components is_two is_two 2 0 false.
Proof.
  assert (forall y, is_two y = true -> is_two y = true) as H1 by (intros y H; exact H).
  split; [exact H1|].
  exact (subclass_flag_is_redundant tree_components is_two is_two 2 0 H1).
Defined.
